(** * Caduceus: a shallow embedding of the dispatch engine and its intake

    The development follows the Go sources file by file.  Part I holds
    the embedding, Part II the properties.

    Conventions
    - a Go [[]byte] and a Go [string] are both [string] (a sequence of
      8-bit characters);
    - a Go [error] is [option string]: [None] is [nil], [Some msg] an
      error whose [Error()] text is [msg];
    - a Go [int] is a [Z]; where the program does arithmetic on it the
      64-bit wrap-around is written out ([wrap64]);
    - a buffered channel is its bounded FIFO buffer ([chan]); the
      [select { case c <- x: ... default: ... }] idiom is [try_send];
      the worker pool, whose channel may have no buffer at all, also
      counts the workers parked at the receive;
    - a goroutine's loop is a step function driven by the list of events
      the scheduler picked;
    - a [float64] is a [spec_float] of the Standard Library with 53 bits
      of precision; in the registry adapter, whose numbers are all
      integers, it is the integer it equals. *)

From Stdlib Require Import ZArith NArith Lia.
From Stdlib Require Import DecimalString DecimalN.
From Stdlib Require SpecFloat.
From stdpp Require Import base gmap strings list fin_maps sorting.

Local Open Scope Z_scope.

(* ===================================================================== *)
(** * Part I: the embedding                                               *)
(* ===================================================================== *)

(** The line feed, for the messages the handlers write. *)
Definition LF : string := String (Ascii.ascii_of_nat 10) EmptyString.

(** Go's [int] on the 64-bit targets Caduceus is built for. *)
Definition wrap64 (z : Z) : Z := (z + 2 ^ 63) mod 2 ^ 64 - 2 ^ 63.

(** ** Channels *)

Module Chan.

Record chan (A : Type) : Type := Make {
  cap : nat;          (* the size given to [make(chan A, size)] *)
  buf : list A        (* queued values, oldest first *)
}.
Arguments Make {A} _ _.
Arguments cap {A} _.
Arguments buf {A} _.

Definition make {A} (size : nat) : chan A := Make size [].

Definition len {A} (c : chan A) : nat := length (buf c).

(** What a plain [c <- x] can do right now. *)
Inductive outcome (A : Type) : Type :=
| Sent (c' : chan A)
| WouldBlock.
Arguments Sent {A} _.
Arguments WouldBlock {A}.

Definition send {A} (c : chan A) (x : A) : outcome A :=
  if decide (len c < cap c)%nat then Sent (Make (cap c) (buf c ++ [x]))
  else WouldBlock.

(** [select { case c <- x: (Some c') default: None }] *)
Definition try_send {A} (c : chan A) (x : A) : option (chan A) :=
  match send c x with
  | Sent c' => Some c'
  | WouldBlock => None
  end.

(** [select { case x := <-c: ... default: ... }] *)
Definition try_recv {A} (c : chan A) : option (A * chan A) :=
  match buf c with
  | [] => None
  | x :: rest => Some (x, Make (cap c) rest)
  end.

End Chan.

(** ** Package [health] as Caduceus uses it *)

Module health.

(** [type Stat string] *)
Definition Stat : Type := string.

(** [health.Inc(stat, value)]: the only [HealthFunc] Caduceus sends. *)
Inductive HealthFunc : Type :=
| Inc (stat : Stat) (value : Z).

(** A missing key of a Go map reads as the zero value. *)
Definition count (stats : gmap string Z) (stat : Stat) : Z :=
  default 0 (stats !! stat).

(** The monitor applies each event it is sent to its [Stats] map. *)
Definition apply (f : HealthFunc) (stats : gmap string Z) : gmap string Z :=
  match f with
  | Inc stat value => <[stat := wrap64 (count stats stat + value)]> stats
  end.

End health.

(** ** caduceus_type.go *)

Definition PayloadsOverZero : health.Stat := "PayloadsOverZero".
Definition PayloadsOverHundred : health.Stat := "PayloadsOverHundred".
Definition PayloadsOverThousand : health.Stat := "PayloadsOverThousand".
Definition PayloadsOverTenThousand : health.Stat := "PayloadsOverTenThousand".

Definition payload_stats : list health.Stat :=
  [PayloadsOverZero; PayloadsOverHundred; PayloadsOverThousand;
   PayloadsOverTenThousand].

Record CaduceusTimestamps : Type := {
  TimeReceived : Z;
  TimeAccepted : Z;
  TimeProcessingStart : Z;
  TimeProcessingEnd : Z
}.

Record CaduceusRequest : Type := {
  Payload : string;
  ContentType : string;
  TargetURL : string;
  Timestamps : CaduceusTimestamps
}.

(** [CaduceusHealth] embeds a [health.Monitor]; its state is the stats. *)
Record CaduceusHealth : Type := {
  Monitor : gmap string Z
}.

Definition SendEvent (f : health.HealthFunc) (ch : CaduceusHealth)
  : CaduceusHealth :=
  {| Monitor := health.apply f (Monitor ch) |}.

Definition IncrementBucket (inSize : Z) (ch : CaduceusHealth) : CaduceusHealth :=
  if inSize <? 100 then SendEvent (health.Inc PayloadsOverZero 1) ch
  else if inSize <? 1000 then SendEvent (health.Inc PayloadsOverHundred 1) ch
  else if inSize <? 10000 then SendEvent (health.Inc PayloadsOverThousand 1) ch
  else SendEvent (health.Inc PayloadsOverTenThousand 1) ch.

(** The worker pool.  [F] is the type of the queued closures
    [func(workerID int)]. *)
Record WorkerPoolFactory : Type := {
  wpf_NumWorkers : Z;
  wpf_QueueSize : Z
}.

Record WorkerPool (F : Type) : Type := {
  jobs : Chan.chan F;
  waiting : nat;       (* workers parked at [for f := range jobs] *)
  busy : nat;          (* workers starting up or running a function *)
  taken : list F       (* the functions workers received, in order *)
}.
Arguments jobs {F} _.
Arguments waiting {F} _.
Arguments busy {F} _.
Arguments taken {F} _.

(** [WorkerPoolFactory.New]: [make] panics on a negative size ([None]);
    the loop starts no worker when [NumWorkers] is not positive.  The
    workers it starts have yet to reach their receive. *)
Definition WorkerPoolFactory_New {F} (wpf : WorkerPoolFactory)
  : option (WorkerPool F) :=
  if wpf_QueueSize wpf <? 0 then None
  else Some {| jobs := Chan.make (Z.to_nat (wpf_QueueSize wpf));
               waiting := 0;
               busy := Z.to_nat (wpf_NumWorkers wpf);
               taken := [] |}.

(** A worker comes to [range jobs], from its start or from the function
    it ran: it takes the oldest queued function, or parks. *)
Definition receive {F} (wp : WorkerPool F) : WorkerPool F :=
  match busy wp with
  | O => wp
  | S b =>
      match Chan.try_recv (jobs wp) with
      | Some (f, c') =>
          {| jobs := c'; waiting := waiting wp; busy := S b;
             taken := taken wp ++ [f] |}
      | None =>
          {| jobs := jobs wp; waiting := S (waiting wp); busy := b;
             taken := taken wp |}
      end
  end.

Definition pool_full : string := "Worker pool channel full.".

(** [Send]: the case [wp.jobs <- inFunc] of the [select] can proceed when
    a worker is parked at the receive, which then gets the function, or
    when the buffer has room; otherwise the [default] case runs. *)
Definition Send {F} (wp : WorkerPool F) (inFunc : F)
  : WorkerPool F * option string :=
  match waiting wp with
  | S parked =>
      ({| jobs := jobs wp; waiting := parked; busy := S (busy wp);
          taken := taken wp ++ [inFunc] |}, None)
  | O =>
      match Chan.try_send (jobs wp) inFunc with
      | Some c' =>
          ({| jobs := c'; waiting := 0; busy := busy wp;
              taken := taken wp |}, None)
      | None => (wp, Some pool_full)
      end
  end.

(** The channel is full, as the Go runtime has it: a channel without a
    buffer when no receiver is waiting, a buffered one when the buffer
    holds [cap] values. *)
Definition full {F} (wp : WorkerPool F) : bool :=
  if (Chan.cap (jobs wp) =? 0)%nat then (waiting wp =? 0)%nat
  else (Chan.cap (jobs wp) <=? Chan.len (jobs wp))%nat.

(** Workers park only at an empty buffer. *)
Definition well_formed {F} (wp : WorkerPool F) : Prop :=
  waiting wp = 0%nat ∨ Chan.buf (jobs wp) = [].

(** ** The intake handler ([ServerHandler.ServeHTTP]) *)

Module Intake.

(** [http.ResponseWriter]: the first [Write] without a status commits
    200, and a [WriteHeader] after the status is committed is ignored.
    [calls] keeps every call the handler made, in order. *)
Inductive call : Type :=
| CallWriteHeader (code : Z)
| CallWrite (data : string).

Record ResponseWriter : Type := {
  status : option Z;
  body : string;
  calls : list call
}.

Definition NewRecorder : ResponseWriter :=
  {| status := None; body := ""; calls := [] |}.

Definition WriteHeader (code : Z) (rw : ResponseWriter) : ResponseWriter :=
  {| status := match status rw with Some c => Some c | None => Some code end;
     body := body rw;
     calls := calls rw ++ [CallWriteHeader code] |}.

Definition Write (data : string) (rw : ResponseWriter) : ResponseWriter :=
  {| status := match status rw with Some c => Some c | None => Some 200 end;
     body := body rw +:+ data;
     calls := calls rw ++ [CallWrite data] |}.

Definition StatusAccepted : Z := 202.
Definition StatusBadRequest : Z := 400.
Definition StatusRequestTimeout : Z := 408.

(** What [ioutil.ReadAll(request.Body)] returns. *)
Inductive ReadResult : Type :=
| ReadOk (data : string)
| ReadErr (err : string).

Record Request : Type := {
  Body : ReadResult;
  Header : gmap string (list string);
  URL : string
}.

(** The closure handed to the pool. *)
Inductive Job : Type :=
| HandleRequestJob (inRequest : CaduceusRequest).

Record ServerHandler : Type := {
  logger : list string;
  caduceusHealth : CaduceusHealth;
  workerPool : WorkerPool Job
}.

Definition Info (msg : string) (sh : ServerHandler) : ServerHandler :=
  {| logger := logger sh ++ [msg];
     caduceusHealth := caduceusHealth sh;
     workerPool := workerPool sh |}.

(** [now1] and [now2] are the two readings of [time.Now().UnixNano()]. *)
Definition ServeHTTP (sh : ServerHandler) (response : ResponseWriter)
    (request : Request) (now1 now2 : Z) : ServerHandler * ResponseWriter :=
  let sh := Info "Someone is saying hello!" sh in
  let response := Write ("Heyo whaddup!" +:+ LF) response in
  let timeStamps :=
    {| TimeReceived := now1; TimeAccepted := 0;
       TimeProcessingStart := 0; TimeProcessingEnd := 0 |} in
  match Body request with
  | ReadErr err =>
      let statusMsg :=
        "Unable to retrieve the request body: " +:+ err +:+ "." +:+ LF in
      let response := WriteHeader StatusBadRequest response in
      let response := Write statusMsg response in
      (sh, response)
  | ReadOk myPayload =>
      let '(contentType, response) :=
        match Header request !! "Content-Type" with
        | Some value =>
            match value with
            | [v] => (v, response)
            | _ =>
                let response := WriteHeader StatusBadRequest response in
                ("", Write ("Content-Type cannot have more than one specification."
                            +:+ LF) response)
            end
        | None =>
            let response := WriteHeader StatusBadRequest response in
            ("", Write ("Content-Type must be set in the header." +:+ LF)
                   response)
        end in
      if decide (contentType = "") then (sh, response)
      else
        let targetURL := URL request in
        let caduceusRequest :=
          {| Payload := myPayload; ContentType := contentType;
             TargetURL := targetURL;
             Timestamps :=
               {| TimeReceived := TimeReceived timeStamps;
                  TimeAccepted := now2;
                  TimeProcessingStart := TimeProcessingStart timeStamps;
                  TimeProcessingEnd := TimeProcessingEnd timeStamps |} |} in
        match Send (workerPool sh) (HandleRequestJob caduceusRequest) with
        | (wp, Some _) =>
            let response := WriteHeader StatusRequestTimeout response in
            let response :=
              Write ("Unable to handle request at this time." +:+ LF) response in
            ({| logger := logger sh; caduceusHealth := caduceusHealth sh;
                workerPool := wp |}, response)
        | (wp, None) =>
            let response := WriteHeader StatusAccepted response in
            let response :=
              Write ("Request placed on to queue." +:+ LF) response in
            ({| logger := logger sh;
                caduceusHealth :=
                  IncrementBucket (Z.of_nat (String.length myPayload))
                                  (caduceusHealth sh);
                workerPool := wp |}, response)
        end
  end.

(** The fixture of [TestServeHTTP]: a pool of one worker and a queue of
    one, and a [text/plain] POST, here with the intake path as its URL. *)
Definition test_pool : WorkerPool Job :=
  {| jobs := Chan.make 1; waiting := 0; busy := 1; taken := [] |}.

Definition test_handler : ServerHandler :=
  {| logger := []; caduceusHealth := {| Monitor := ∅ |};
     workerPool := test_pool |}.

Definition post (data : string) : Request :=
  {| Body := ReadOk data;
     Header := {[ "Content-Type" := ["text/plain"] ]};
     URL := "/api/v1/run" |}.

Definition broken_post : Request :=
  {| Body := ReadErr "unexpected EOF";
     Header := {[ "Content-Type" := ["text/plain"] ]};
     URL := "/api/v1/run" |}.

End Intake.

(** ** caduceusProfiler.go *)

Module Profiler.

Record CaduceusTelemetry : Type := {
  RawPayloadSize : Z;
  TimeReceived : Z;
  TimeOutboundAccepted : Z;
  TimeSent : Z;
  TimeResponded : Z
}.

Record CaduceusStats : Type := {
  Name : string;
  Time : string;
  Tonnage : Z;
  EventsSent : Z;
  ProcessingTimePerc98 : string;
  ProcessingTimeAvg : string;
  LatencyPerc98 : string;
  LatencyAvg : string;
  ResponsePerc98 : string;
  ResponseAvg : string
}.

(** The [interface{}] values that travel through the profilers: delivery
    telemetry, the [*CaduceusStats] a child forwards, or anything else. *)
Inductive any : Type :=
| Telemetry (t : CaduceusTelemetry)
| Stats (cs : CaduceusStats)
| Other (tag : string).

(** [ServerRing]: declared in the ring's own file; the profiler only calls
    [NewCaduceusRing], [Add] and [Snapshot]. *)
Class ServerRing : Type := {
  Ring : Type;
  NewCaduceusRing : Z → Ring;
  Add : Ring → any → Ring;
  Snapshot : Ring → list any
}.

(** The six duration strings of a non-empty batch: sorting, the float64
    percentile index [math.Ceil(float64(n)*0.98) - 1], integer averages and
    [time.Duration.String], in field order. *)
Record TimingSummary : Type := {
  processingPerc98 : string;
  processingAvg : string;
  latencyPerc98 : string;
  latencyAvg : string;
  responsePerc98 : string;
  responseAvg : string
}.

Class StatsFormat : Type := {
  timing : list CaduceusTelemetry → TimingSummary
}.

Record ServerProfilerFactory : Type := {
  Frequency : Z;
  Duration : Z;
  QueueSize : Z;
  Parent : option (Chan.chan any)   (* the parent profiler's [inChan] *)
}.

(** Where the [aggregate] goroutine stands. *)
Inductive stage : Type :=
| Spawned       (* [go aggregate(quit)] issued, nothing run yet *)
| Looping       (* inside [for { select { ... } }] *)
| Returned.     (* left through [case <-quit] *)

Section Aggregation.
Context `{ServerRing} `{StatsFormat}.

Record caduceusProfiler : Type := {
  name : string;
  frequency : Z;
  profilerRing : Ring;
  inChan : Chan.chan any;
  quit : bool;                       (* [quit] has been closed *)
  parent : option (Chan.chan any);
  logger : list CaduceusStats;       (* "Endpoint Delivery Stats" entries *)
  data : list any;                   (* [aggregate]'s local batch *)
  at_stage : stage
}.

Definition no_parameter : string :=
  "No parameter to the ServerProfilerFactory can be less than 1.".

(** [ServerProfilerFactory.New]: the profiler with its goroutine spawned. *)
Definition New (spf : ServerProfilerFactory) (name : string)
  : caduceusProfiler + string :=
  if (Frequency spf <? 1) || (Duration spf <? 1) || (QueueSize spf <? 1)
  then inr no_parameter
  else inl {| name := name;
              frequency := Frequency spf;
              profilerRing := NewCaduceusRing (Duration spf);
              inChan := Chan.make (Z.to_nat (QueueSize spf));
              quit := false;
              parent := Parent spf;
              logger := [];
              data := [];
              at_stage := Spawned |}.

Definition channel_full : string := "Channel full.".

Definition Send (cp : caduceusProfiler) (inData : any)
  : caduceusProfiler * option string :=
  match Chan.try_send (inChan cp) inData with
  | Some c' =>
      ({| name := name cp; frequency := frequency cp;
          profilerRing := profilerRing cp; inChan := c'; quit := quit cp;
          parent := parent cp; logger := logger cp; data := data cp;
          at_stage := at_stage cp |}, None)
  | None => (cp, Some channel_full)
  end.

Definition Report (cp : caduceusProfiler) : list any :=
  Snapshot (profilerRing cp).

(** [Close] closes [quit]; closing it a second time panics in Go, which
    is left out here. *)
Definition Close (cp : caduceusProfiler) : caduceusProfiler :=
  {| name := name cp; frequency := frequency cp;
     profilerRing := profilerRing cp; inChan := inChan cp; quit := true;
     parent := parent cp; logger := logger cp; data := data cp;
     at_stage := at_stage cp |}.

(** The flag of the type assertion [element.(CaduceusTelemetry)]. *)
Definition isCaduceusTelemetry (element : any) : bool :=
  match element with
  | Telemetry _ => true
  | _ => false
  end.

Fixpoint filterNonTelemetryElements (elements : list any) : list any :=
  match elements with
  | [] => []
  | Telemetry t :: rest => Telemetry t :: filterNonTelemetryElements rest
  | _ :: rest => filterNonTelemetryElements rest
  end.

(** The type assertion [rawElement.(CaduceusTelemetry)] over a filtered
    batch. *)
Fixpoint telemetry_of (raw : list any) : list CaduceusTelemetry :=
  match raw with
  | [] => []
  | Telemetry t :: rest => t :: telemetry_of rest
  | _ :: rest => telemetry_of rest
  end.

Definition tonnage_of (ts : list CaduceusTelemetry) : Z :=
  foldl (λ tonnage t, wrap64 (tonnage + RawPayloadSize t)) 0 ts.

(** [process], with [stamp] the text of [time.Now()]; it returns the
    stats value and the entry it logs. *)
Definition process (cp : caduceusProfiler) (stamp : string) (raw : list any)
  : CaduceusStats :=
  let raw := filterNonTelemetryElements raw in
  let n := Z.of_nat (length raw) in
  if 0 <? n then
    let ts := telemetry_of raw in
    let tm := timing ts in
    {| Name := name cp; Time := stamp;
       Tonnage := tonnage_of ts; EventsSent := n;
       ProcessingTimePerc98 := processingPerc98 tm;
       ProcessingTimeAvg := processingAvg tm;
       LatencyPerc98 := latencyPerc98 tm;
       LatencyAvg := latencyAvg tm;
       ResponsePerc98 := responsePerc98 tm;
       ResponseAvg := responseAvg tm |}
  else
    {| Name := name cp; Time := stamp; Tonnage := 0; EventsSent := 0;
       ProcessingTimePerc98 := ""; ProcessingTimeAvg := "";
       LatencyPerc98 := ""; LatencyAvg := "";
       ResponsePerc98 := ""; ResponseAvg := "" |}.

(** [cp.parent.Send(cp.process(data))] with the result dropped, as the
    code drops it: the parent's channel takes the stats if it has room. *)
Definition send_to_parent (p : Chan.chan any) (cs : CaduceusStats)
  : Chan.chan any :=
  match Chan.try_send p (Stats cs) with
  | Some p' => p'
  | None => p
  end.

(** What happens to a profiler: calls of its clients, and the cases the
    [select] of [aggregate] takes. *)
Inductive event : Type :=
| CallSend (inData : any)
| CallClose
| Begin (stamp : string)        (* the goroutine runs up to the loop *)
| SelectTick (stamp : string)   (* [case <-ticker] *)
| SelectData                    (* [case inData := <-cp.inChan] *)
| SelectQuit.                   (* [case <-quit] *)

Definition with_loop (cp : caduceusProfiler) (ring : Ring)
    (c : Chan.chan any) (p : option (Chan.chan any))
    (log : list CaduceusStats) (batch : list any) (st : stage)
  : caduceusProfiler :=
  {| name := name cp; frequency := frequency cp; profilerRing := ring;
     inChan := c; quit := quit cp; parent := p; logger := log;
     data := batch; at_stage := st |}.

Definition aggregate_step (ev : event) (cp : caduceusProfiler)
  : caduceusProfiler :=
  match ev, at_stage cp with
  | CallSend inData, _ => (Send cp inData).1
  | CallClose, _ => Close cp
  | Begin stamp, Spawned =>
      match parent cp with
      | Some p =>
          let cs := process cp stamp (data cp) in
          with_loop cp (profilerRing cp) (inChan cp)
                    (Some (send_to_parent p cs)) (logger cp ++ [cs])
                    (data cp) Looping
      | None =>
          with_loop cp (profilerRing cp) (inChan cp) None (logger cp)
                    (data cp) Looping
      end
  | SelectTick stamp, Looping =>
      match parent cp with
      | Some p =>
          let cs := process cp stamp (data cp) in
          with_loop cp (profilerRing cp) (inChan cp)
                    (Some (send_to_parent p cs)) (logger cp ++ [cs])
                    [] Looping
      | None =>
          with_loop cp (profilerRing cp) (inChan cp) None (logger cp)
                    [] Looping
      end
  | SelectData, Looping =>
      match Chan.try_recv (inChan cp) with
      | Some (inData, c') =>
          match parent cp with
          | Some p =>
              with_loop cp (profilerRing cp) c' (Some p) (logger cp)
                        (data cp ++ [inData]) Looping
          | None =>
              with_loop cp (Add (profilerRing cp) inData) c' None
                        (logger cp) (data cp) Looping
          end
      | None => cp
      end
  | SelectQuit, Looping =>
      if quit cp
      then with_loop cp (profilerRing cp) (inChan cp) (parent cp)
                     (logger cp) (data cp) Returned
      else cp
  | _, _ => cp
  end.

Definition aggregate (evs : list event) (cp : caduceusProfiler)
  : caduceusProfiler :=
  foldl (λ cp ev, aggregate_step ev cp) cp evs.

End Aggregation.

(** The stats values among what a parent's channel holds. *)
Fixpoint stats_of (raw : list any) : list CaduceusStats :=
  match raw with
  | [] => []
  | Stats cs :: rest => cs :: stats_of rest
  | _ :: rest => stats_of rest
  end.

(** A ring for running examples: it keeps the last [size] values. *)
Definition list_ring : ServerRing :=
  {| Ring := nat * list any;
     NewCaduceusRing := λ size, (Z.to_nat size, []);
     Add := λ r x, (r.1, drop (length (r.2 ++ [x]) - r.1) (r.2 ++ [x]));
     Snapshot := λ r, r.2 |}.

Definition blank_format : StatsFormat :=
  {| timing := λ _, {| processingPerc98 := "0s"; processingAvg := "0s";
                       latencyPerc98 := "0s"; latencyAvg := "0s";
                       responsePerc98 := "0s"; responseAvg := "0s" |} |}.

End Profiler.

(** ** webhookHandler.go: the registry adapter *)

Module Registry.

(** *** JSON documents

    A JSON text is identified with the document it denotes, and a string
    with its bytes: the strings of a listener were decoded from JSON or
    are addresses, hence valid UTF-8, which [json.Marshal] and
    [json.Unmarshal] keep byte for byte.  Numbers of the documents at hand
    are integers; [JNumber z] written by [json.Marshal] from an [int64]
    has all the digits of [z], while a number held in a
    [map[string]interface{}] is a [float64], written with the fewest
    digits that still read back as that [float64]. *)
Unset Elimination Schemes.
Inductive JSON : Type :=
| JNull
| JBool (b : bool)
| JNumber (z : Z)
| JString (s : string)
| JArray (elements : list JSON)
| JObject (fields : list (string * JSON)).
Set Elimination Schemes.

(** The [float64] nearest to an integer (ties to even): exact up to
    [2^53], 53 significant bits beyond. *)
Definition float64_of_int (z : Z) : Z :=
  let a := Z.abs z in
  if a <? 2 ^ 53 then z
  else
    let e := Z.log2 a - 52 in
    let q := a / 2 ^ e in
    let r := a mod 2 ^ e in
    let half := 2 ^ (e - 1) in
    let q' := if (half <? r) || ((half =? r) && Z.odd q) then q + 1 else q in
    Z.sgn z * (q' * 2 ^ e).

(** Decoding into [interface{}]: every number becomes a [float64]. *)
Fixpoint as_interface (doc : JSON) : JSON :=
  match doc with
  | JNumber z => JNumber (float64_of_int z)
  | JArray elements => JArray (map as_interface elements)
  | JObject fields =>
      JObject (map (λ kv, let '(k, v) := kv in (k, as_interface v)) fields)
  | _ => doc
  end.

(** *** A [float64] as [json.Marshal] writes it

    [strconv] writes the decimal with the fewest digits among those that
    round to the [float64], the one nearest to it if there are several;
    for an integer below [10^21] that is an integer literal.

    [rounds_to a c]: the integer [c] rounds to the positive
    integer-valued float64 [a].  Below [2^53] neighbouring float64 are at
    most one apart, so no other integer does; from there on [a] is
    [m * 2^e] with [m] of 53 bits, and [c] lies between the midpoints to
    the neighbours of [a], the midpoints included when [m] is even; the
    neighbour below a power of two is half as far.  The comparisons are
    on four times the distances. *)
Definition rounds_to (a c : Z) : bool :=
  if a <? 2 ^ 53 then c =? a
  else
    let u := 2 ^ (Z.log2 a - 52) in
    let m := a / u in
    let below := if m =? 2 ^ 52 then u else 2 * u in
    let above := 2 * u in
    if Z.even m
    then (4 * (a - c) <=? below) && (4 * (c - a) <=? above)
    else (4 * (a - c) <? below) && (4 * (c - a) <? above).

(** The multiples of [10^j] next to [a], for [j] from the largest down:
    the first that rounds to [a] has the fewest digits. *)
Fixpoint shortest_from (j : nat) (a : Z) : Z :=
  match j with
  | O => a
  | S j' =>
      let p := 10 ^ Z.of_nat j in
      let down := a / p * p in
      let up := down + p in
      match rounds_to a down, rounds_to a up with
      | true, true => if a - down <=? up - a then down else up
      | true, false => down
      | false, true => up
      | false, false => shortest_from j' a
      end
  end.

(** The integer that the literal written for the float64 [z] denotes.
    From [10^21] on the literal has an exponent, which no integer field
    decodes; the integer it denotes is far out of [int64] then, so that
    the field refuses it here as well. *)
Definition json_float64 (z : Z) : Z :=
  Z.sgn z * shortest_from (Z.to_nat (Z.log2 (Z.abs z) + 1)) (Z.abs z).

(** *** A map as [json.Marshal] writes it

    The members are written in the order of their keys, compared byte by
    byte.  A list of members stands for the map that assigning them in
    turn builds: of two members with one key the later stays. *)
Fixpoint map_insert (k : string) (v : JSON) (m : list (string * JSON))
  : list (string * JSON) :=
  match m with
  | [] => [(k, v)]
  | (k', v') :: rest =>
      match String.compare k k' with
      | Lt => (k, v) :: m
      | Eq => (k, v) :: rest
      | Gt => (k', v') :: map_insert k v rest
      end
  end.

Definition sorted_members (fields : list (string * JSON))
  : list (string * JSON) :=
  foldl (λ m kv, map_insert kv.1 kv.2 m) [] fields.

(** [json.Marshal] of a value held in an [interface{}]. *)
Fixpoint json_Marshal_interface (v : JSON) : JSON :=
  match v with
  | JNumber z => JNumber (json_float64 (float64_of_int z))
  | JArray elements => JArray (map json_Marshal_interface elements)
  | JObject fields =>
      JObject
        (sorted_members
           (map (λ kv, let '(k, v) := kv in (k, json_Marshal_interface v))
                fields))
  | _ => v
  end.

(** *** Decoding into the fields of a struct

    [json.Unmarshal] goes through the members of an object in the order
    of the document.  A member is decoded into the field whose tag is its
    key, letter case set aside; a member that matches no field is
    skipped.  So of two members for one field the later is decoded over
    what the earlier left. *)
Definition lower_ascii (c : Ascii.ascii) : Ascii.ascii :=
  let n := Ascii.nat_of_ascii c in
  if ((65 <=? n) && (n <=? 90))%nat then Ascii.ascii_of_nat (n + 32) else c.

(** The name a key is matched under: letters in lower case, and the two
    letters outside ASCII that count as [s] and [k], the long s (bytes
    C5 BF) and the Kelvin sign (bytes E2 84 AA). *)
Fixpoint fold_name (s : string) : string :=
  match s with
  | EmptyString => EmptyString
  | String c rest =>
      match Ascii.nat_of_ascii c, rest with
      | 197%nat, String c2 rest2 =>
          if (Ascii.nat_of_ascii c2 =? 191)%nat
          then String (Ascii.ascii_of_nat 115) (fold_name rest2)
          else String c (fold_name rest)
      | 226%nat, String c2 (String c3 rest3) =>
          if ((Ascii.nat_of_ascii c2 =? 132)
              && (Ascii.nat_of_ascii c3 =? 170))%nat
          then String (Ascii.ascii_of_nat 107) (fold_name rest3)
          else String c (fold_name rest)
      | _, _ => String (lower_ascii c) (fold_name rest)
      end
  end.

(** Decoders of the field types of a listener: the value a field holds
    after a member is decoded into it, [None] for a decoding error.
    [null] leaves a string, a number, a time and a struct as they are. *)
Definition into_string (old : string) (v : JSON) : option string :=
  match v with
  | JNull => Some old
  | JString s => Some s
  | _ => None
  end.

Definition into_int64 (old : Z) (v : JSON) : option Z :=
  match v with
  | JNull => Some old
  | JNumber z => if (- 2 ^ 63 <=? z) && (z <? 2 ^ 63) then Some z else None
  | _ => None
  end.

(** An array is decoded element by element into the slots of the
    storage under the slice the field holds, which is extended where the
    array is longer.  A string fills its slot and [null] leaves the slot
    as it is: blank in new storage, else what an earlier member put
    there, also beyond the end of the slice that member left.  So a slice
    is decoded over its elements [old] and the slots [spare] behind
    them; the result is the slice and the slots behind it.  [null] for
    the array sets the slice to [nil], and an empty array to a new empty
    slice. *)
Fixpoint into_slots (storage : list string) (elements : list JSON)
  : option (list string * list string) :=
  match elements with
  | [] => Some ([], storage)
  | e :: rest =>
      '(slots, spare) ← into_slots (tail storage) rest;
      match e with
      | JString s => Some (s :: slots, spare)
      | JNull => Some (hd "" storage :: slots, spare)
      | _ => None
      end
  end.

Definition into_strings (old spare : list string) (v : JSON)
  : option (list string * list string) :=
  match v with
  | JNull => Some ([], [])
  | JArray [] => Some ([], [])
  | JArray elements => into_slots (old ++ spare) elements
  | _ => None
  end.

(** [time.Time] as JSON: the RFC 3339 text of package [time].  An instant
    is counted in nanoseconds from the zero [time.Time]. *)
Class TimeCodec : Type := {
  time_MarshalJSON : N → option string;
  time_UnmarshalJSON : string → option N;
  time_roundtrip :
    ∀ t s, time_MarshalJSON t = Some s → time_UnmarshalJSON s = Some t;
  time_unmarshal_marshals :
    ∀ s t, time_UnmarshalJSON s = Some t → is_Some (time_MarshalJSON t);
  time_zero_marshals : is_Some (time_MarshalJSON 0%N)
}.

Definition into_time `{TimeCodec} (old : N) (v : JSON) : option N :=
  match v with
  | JNull => Some old
  | JString s => time_UnmarshalJSON s
  | _ => None
  end.

(** *** [webhook.W]

    Modelled from the spec: the declaration of [webhook.W] and its JSON
    member names, which live in the webhook library.  The fields are the
    listener record of the data model, named as [GetRegistry] selects
    them ([hook.Config.URL], [hook.Matcher], ...); the member names are
    those of the registration JSON shape. *)
Record Config : Type := {
  URL : string;
  ContentType : string;
  Secret : string
}.

Record Matcher : Type := {
  DeviceId : list string
}.

Record W : Type := {
  config : Config;
  FailureURL : string;
  Events : list string;
  matcher : Matcher;
  Duration : Z;
  Until : N;
  Address : string
}.

(** What the adapter calls in the webhook library: [webhook.NewW], which
    validates a registration payload for the remote address it came
    from, and [W.ID]. *)
Class WebhookLib : Type := {
  NewW : string → string → W + string;
  ID : W → string
}.

Definition strings_json (l : list string) : JSON := JArray (JString <$> l).

(** [json.Marshal(&w)]; [secret] is tagged [omitempty]. *)
Definition json_Marshal_W `{TimeCodec} (w : W) : JSON + string :=
  match time_MarshalJSON (Until w) with
  | None => inr "json: error calling MarshalJSON for type time.Time"
  | Some until =>
      inl (JObject
             [("config",
               JObject ([("url", JString (URL (config w)));
                         ("content_type", JString (ContentType (config w)))]
                        ++ (if decide (Secret (config w) = "") then []
                            else [("secret", JString (Secret (config w)))])));
              ("failure_url", JString (FailureURL w));
              ("events", strings_json (Events w));
              ("matcher",
               JObject [("device_id", strings_json (DeviceId (matcher w)))]);
              ("duration", JNumber (Duration w));
              ("until", JString until);
              ("registered_from_address", JString (Address w))])
  end.

(** [json.Unmarshal(data, &webhook)] into a [map[string]interface{}]. *)
Definition json_Unmarshal_map (data : JSON)
  : list (string * JSON) + string :=
  match as_interface data with
  | JObject fields => inl fields
  | _ => inr "json: cannot unmarshal into Go value of type map[string]interface {}"
  end.

(** [json.Marshal(&item.Data)]. *)
Definition json_Marshal_map (m : list (string * JSON)) : JSON + string :=
  inl (json_Marshal_interface (JObject m)).

(** One member decoded into a [Config], a [Matcher] and a [W]; a slice
    comes with the slots behind it. *)
Definition into_Config_member (st : option Config) (kv : string * JSON)
  : option Config :=
  c ← st;
  let name := fold_name kv.1 in
  if String.eqb name "url" then
    s ← into_string (URL c) kv.2;
    Some {| URL := s; ContentType := ContentType c; Secret := Secret c |}
  else if String.eqb name "content_type" then
    s ← into_string (ContentType c) kv.2;
    Some {| URL := URL c; ContentType := s; Secret := Secret c |}
  else if String.eqb name "secret" then
    s ← into_string (Secret c) kv.2;
    Some {| URL := URL c; ContentType := ContentType c; Secret := s |}
  else Some c.

Definition into_Config (old : Config) (v : JSON) : option Config :=
  match v with
  | JNull => Some old
  | JObject fields => foldl into_Config_member (Some old) fields
  | _ => None
  end.

Definition into_Matcher_member (st : option (Matcher * list string))
    (kv : string * JSON) : option (Matcher * list string) :=
  '(m, spare) ← st;
  if String.eqb (fold_name kv.1) "device_id" then
    '(ids, spare') ← into_strings (DeviceId m) spare kv.2;
    Some ({| DeviceId := ids |}, spare')
  else Some (m, spare).

Definition into_Matcher (old : Matcher) (spare : list string) (v : JSON)
  : option (Matcher * list string) :=
  match v with
  | JNull => Some (old, spare)
  | JObject fields => foldl into_Matcher_member (Some (old, spare)) fields
  | _ => None
  end.

Definition with_config (w : W) (c : Config) : W :=
  {| config := c; FailureURL := FailureURL w; Events := Events w;
     matcher := matcher w; Duration := Duration w; Until := Until w;
     Address := Address w |}.

Definition with_FailureURL (w : W) (s : string) : W :=
  {| config := config w; FailureURL := s; Events := Events w;
     matcher := matcher w; Duration := Duration w; Until := Until w;
     Address := Address w |}.

Definition with_Events (w : W) (l : list string) : W :=
  {| config := config w; FailureURL := FailureURL w; Events := l;
     matcher := matcher w; Duration := Duration w; Until := Until w;
     Address := Address w |}.

Definition with_matcher (w : W) (m : Matcher) : W :=
  {| config := config w; FailureURL := FailureURL w; Events := Events w;
     matcher := m; Duration := Duration w; Until := Until w;
     Address := Address w |}.

Definition with_Duration (w : W) (d : Z) : W :=
  {| config := config w; FailureURL := FailureURL w; Events := Events w;
     matcher := matcher w; Duration := d; Until := Until w;
     Address := Address w |}.

Definition with_Until (w : W) (t : N) : W :=
  {| config := config w; FailureURL := FailureURL w; Events := Events w;
     matcher := matcher w; Duration := Duration w; Until := t;
     Address := Address w |}.

Definition with_Address (w : W) (s : string) : W :=
  {| config := config w; FailureURL := FailureURL w; Events := Events w;
     matcher := matcher w; Duration := Duration w; Until := Until w;
     Address := s |}.

(** The hook while it is decoded: the slots behind [Events] and behind
    [Matcher.DeviceId] go with it. *)
Record Decoding : Type := {
  hook : W;
  spare_Events : list string;
  spare_DeviceId : list string
}.

Definition into_W_member `{TimeCodec} (st : option Decoding)
    (kv : string * JSON) : option Decoding :=
  d ← st;
  let w := hook d in
  let other w' :=
    Some {| hook := w'; spare_Events := spare_Events d;
            spare_DeviceId := spare_DeviceId d |} in
  let name := fold_name kv.1 in
  if String.eqb name "config" then
    c ← into_Config (config w) kv.2; other (with_config w c)
  else if String.eqb name "failure_url" then
    s ← into_string (FailureURL w) kv.2; other (with_FailureURL w s)
  else if String.eqb name "events" then
    '(l, spare) ← into_strings (Events w) (spare_Events d) kv.2;
    Some {| hook := with_Events w l; spare_Events := spare;
            spare_DeviceId := spare_DeviceId d |}
  else if String.eqb name "matcher" then
    '(m, spare) ← into_Matcher (matcher w) (spare_DeviceId d) kv.2;
    Some {| hook := with_matcher w m; spare_Events := spare_Events d;
            spare_DeviceId := spare |}
  else if String.eqb name "duration" then
    n ← into_int64 (Duration w) kv.2; other (with_Duration w n)
  else if String.eqb name "until" then
    t ← into_time (Until w) kv.2; other (with_Until w t)
  else if String.eqb name "registered_from_address" then
    s ← into_string (Address w) kv.2; other (with_Address w s)
  else Some d.

(** [webhook.W{}] *)
Definition zero_W : W :=
  {| config := {| URL := ""; ContentType := ""; Secret := "" |};
     FailureURL := ""; Events := [];
     matcher := {| DeviceId := [] |};
     Duration := 0; Until := 0%N; Address := "" |}.

(** The error of a decoding that failed.  Its text, which would name the
    member and the type, is not followed: [GetRegistry] drops it. *)
Definition json_Unmarshal_error : string :=
  "json: cannot unmarshal into Go value of type webhook.W".

(** [json.Unmarshal(tempBytes, &hook)] on the zero [hook]. *)
Definition json_Unmarshal_W `{TimeCodec} (tempBytes : JSON) : W + string :=
  let zero :=
    {| hook := zero_W; spare_Events := []; spare_DeviceId := [] |} in
  let decoded :=
    match tempBytes with
    | JNull => Some zero
    | JObject fields => foldl into_W_member (Some zero) fields
    | _ => None
    end in
  match decoded with
  | Some st => inl (hook st)
  | None => inr json_Unmarshal_error
  end.

(** *** The listener store

    Modelled from the spec: the store client ([chrysom.Client]) behind
    [GetItems] and [Push], an external service: a map from identifier to
    item, which answers while it is reachable. *)
Record Item : Type := {
  Identifier : string;
  Data : list (string * JSON);
  TTL : Z
}.

Record Client : Type := {
  reachable : bool;
  items : gmap string Item
}.

Definition store_down : string := "store unreachable".

Definition Push (item : Item) (owner : string) (c : Client)
  : Client * (string + string) :=
  if reachable c
  then ({| reachable := true;
           items := <[Identifier item := item]> (items c) |},
        inl (Identifier item))
  else (c, inr store_down).

Definition GetItems (owner : string) (c : Client) : list Item + string :=
  if reachable c then inl (map_to_list (items c)).*2 else inr store_down.

(** *** The handlers *)

Record Registry : Type := {
  hookStore : Client;
  DefaultTTL : Z          (* [config.Config.DefaultTTL] *)
}.

Record Request : Type := {
  Body : string;          (* what [ioutil.ReadAll(req.Body)] returned *)
  RemoteAddr : string
}.

(** One element of the slice [GetRegistry] answers with. *)
Record Listener : Type := {
  l_URL : string;
  l_ContentType : string;
  l_FailureURL : string;
  l_Events : list string;
  l_Matcher : Matcher;
  l_Until : N;
  l_LastRegistration : string
}.

Inductive Payload : Type :=
| Message (msg : string)          (* the document {"message": msg} *)
| Listeners (data : list Listener).

Record Response : Type := {
  code : Z;
  content_type : string;
  payload : Payload
}.

Definition StatusOK : Z := 200.
Definition StatusBadRequest : Z := 400.
Definition StatusInternalServerError : Z := 500.

Definition jsonResponse (code : Z) (msg : string) : Response :=
  {| code := code; content_type := "application/json";
     payload := Message msg |}.

Section Handlers.
Context `{TimeCodec} `{WebhookLib}.

Definition convertItemToWebhook (item : Item) : W + string :=
  match json_Marshal_map (Data item) with
  | inr err => inr err
  | inl tempBytes => json_Unmarshal_W tempBytes
  end.

Definition to_listener (hook : W) : Listener :=
  {| l_URL := URL (config hook);
     l_ContentType := ContentType (config hook);
     l_FailureURL := FailureURL hook;
     l_Events := Events hook;
     l_Matcher := matcher hook;
     l_Until := Until hook;
     l_LastRegistration := Address hook |}.

(** The loop of [GetRegistry]: items that do not convert are skipped. *)
Fixpoint listeners_of (items : list Item) : list Listener :=
  match items with
  | [] => []
  | item :: rest =>
      match convertItemToWebhook item with
      | inr _ => listeners_of rest
      | inl hook => to_listener hook :: listeners_of rest
      end
  end.

(** [json.Marshal(data)] fails when an [Until] has no JSON text. *)
Definition marshals (data : list Listener) : bool :=
  forallb (λ l, bool_decide (is_Some (time_MarshalJSON (l_Until l)))) data.

Definition GetRegistry (r : Registry) : Response :=
  match GetItems "" (hookStore r) with
  | inr err => jsonResponse StatusInternalServerError err
  | inl items =>
      let data := listeners_of items in
      if marshals data
      then {| code := StatusOK; content_type := "application/json";
              payload := Listeners data |}
      else jsonResponse StatusInternalServerError
             "json: error calling MarshalJSON for type time.Time"
  end.

Definition UpdateRegistry (r : Registry) (req : Request)
  : Registry * Response :=
  let payload := Body req in
  match NewW payload (RemoteAddr req) with
  | inr err => (r, jsonResponse StatusBadRequest err)
  | inl w =>
      match json_Marshal_W w with
      | inr err => (r, jsonResponse StatusBadRequest err)
      | inl data =>
          match json_Unmarshal_map data with
          | inr err => (r, jsonResponse StatusBadRequest err)
          | inl webhook =>
              match Push {| Identifier := ID w; Data := webhook;
                            TTL := DefaultTTL r |} "" (hookStore r) with
              | (store, inr err) =>
                  ({| hookStore := store; DefaultTTL := DefaultTTL r |},
                   jsonResponse StatusInternalServerError err)
              | (store, inl _) =>
                  ({| hookStore := store; DefaultTTL := DefaultTTL r |},
                   jsonResponse StatusOK "Success")
              end
          end
      end
  end.

End Handlers.

End Registry.

(** ** The outbound sender

    The tests of [OutboundSender] and of the sender wrapper are part of
    the sources, the two implementation files are not.  The definitions
    of this module and of [Wrapper] follow the specification of the
    dispatch engine sentence by sentence; the tests are replayed on them
    in Part II.  An instant is counted in nanoseconds from the zero
    [time.Time], a duration in nanoseconds. *)

Module Outbound.

(** Modelled from the spec: compiled regular expressions, which the
    matcher takes from package [regexp] ([Compile] and [MatchString]). *)
Class RegexpLib : Type := {
  Regexp : Type;
  Compile : string → option Regexp;
  MatchString : Regexp → string → bool
}.

(** Modelled from the spec: the listener record of the data model, whose
    declaration (webhook.W as the sender tests build it) is not in the
    sources. *)
Record Listener : Type := {
  URL : string;
  ContentType : string;
  Secret : string;
  Events : list string;
  Matchers : gmap string (list string);
  Until : N;
  FailureURL : string;
  Address : string
}.

(** Modelled from the spec: the delivery job that [Queue] produces. *)
Record Job : Type := {
  payload : string;
  contentType : string;
  targetURL : string;
  event : string;
  deviceID : string;
  transactionID : string
}.

(** Modelled from the spec: URL validation (absolute, with a non-empty
    scheme and host), done by package [net/url] for the missing
    constructor.  [after_scheme s] is what follows the first "://". *)
Fixpoint after_scheme (s : string) : option (string * string) :=
  match s with
  | EmptyString => None
  | String c rest =>
      if String.prefix "://" s
      then Some (EmptyString, String.substring 3 (String.length s - 3) s)
      else match after_scheme rest with
           | Some (scheme, tail) => Some (String c scheme, tail)
           | None => None
           end
  end.

Fixpoint host_of (tail : string) : string :=
  match tail with
  | EmptyString => EmptyString
  | String c rest =>
      if Ascii.eqb c (Ascii.ascii_of_nat 47) then EmptyString
      else String c (host_of rest)
  end.

Definition valid_url (s : string) : bool :=
  match after_scheme s with
  | Some (scheme, tail) =>
      negb (String.eqb scheme "") && negb (String.eqb (host_of tail) "")
  | None => false
  end.

Section Sender.
Context `{RegexpLib}.

(** Modelled from the spec: the Matcher component (section 4.1), the
    compiled predicate of a listener. *)
Record Matcher : Type := {
  events : list Regexp;
  device_ids : list Regexp
}.

Definition compile_matcher (l : Listener) : option Matcher :=
  evs ← mapM Compile (Events l);
  ids ← mapM Compile (default [] (Matchers l !! "device_id"));
  Some {| events := evs; device_ids := ids |}.

(** Modelled from the spec: the matcher's contract (section 4.1), whose
    code is not in the sources.  The event must match one of the event
    expressions; with no device-id expression every device is accepted,
    otherwise one must match. *)
Definition Accept (m : Matcher) (event deviceID : string) : bool :=
  existsb (λ re, MatchString re event) (events m)
  && match device_ids m with
     | [] => true
     | ids => existsb (λ re, MatchString re deviceID) ids
     end.

(** An outbound POST to the listener, as the worker builds it. *)
Record Post : Type := {
  post_url : string;
  post_content_type : string;
  post_event : string;
  post_transaction : string;
  post_device : string;
  post_signed_with : option string;   (* the HMAC-SHA1 key, when signed *)
  post_body : string
}.

(** A POST to the failure URL: the document
    [{"text": "Webhook fired cut-off for URL <about> at <at>"}]. *)
Record Notice : Type := {
  notice_url : string;
  notice_about : string;
  notice_at : N;
  notice_signed_with : option string
}.

(** What the overflow policy logs: that no failure URL is configured, or
    the outcome of the notification (the tests expect one line each). *)
Inductive log_entry : Type :=
| NoFailureURL
| CutOffNotification (url : string).

(** Modelled from the spec: the state of an [OutboundSender] (data model,
    section 3), with the failure-URL rate limit kept as the time of the
    last notification (design notes) and, for the HTTP client, the
    requests it was asked to make. *)
Record OutboundSender : Type := {
  listener : Listener;
  matcher : Matcher;
  deliverUntil : N;
  queue : Chan.chan Job;
  numWorkers : nat;
  cutOffPeriod : Z;
  lastCutOff : option N;
  log : list log_entry;
  delivered : list Job;        (* jobs POSTed to the listener, in order *)
  notices : list Notice        (* POSTs to the failure URL, in order *)
}.

(** A non-nil client or logger. *)
Inductive handle : Type :=
| Handle (name : string).

(** Modelled from the spec: the parameters of the missing constructor, as
    section 4.2 lists them and the sender tests set them. *)
Record OutboundSenderFactory : Type := {
  Listener_ : Listener;
  Client : option handle;
  CutOffPeriod : Z;
  NumWorkers : Z;
  QueueSize : Z;
  Logger : option handle
}.

(** Modelled from the spec: [OutboundSenderFactory.New] (section 4.2,
    construction): it validates the URL, requires a client, a positive
    cut-off period and a logger, validates a failure URL that is present,
    requires events and compiles every expression; then the sender starts
    with an empty queue and [deliverUntil] at the listener's [Until]. *)
Definition New (f : OutboundSenderFactory) : OutboundSender + string :=
  let l := Listener_ f in
  if negb (valid_url (URL l)) then inr "Invalid URL"
  else if bool_decide (Client f = None) then inr "nil http.Client"
  else if CutOffPeriod f <=? 0 then inr "Invalid CutOffPeriod"
  else if bool_decide (Logger f = None) then inr "Logger undefined"
  else if negb (String.eqb (FailureURL l) "") && negb (valid_url (FailureURL l))
  then inr "Invalid FailureURL"
  else if bool_decide (Events l = []) then inr "Events must not be empty"
  else
    match compile_matcher l with
    | None => inr "Invalid regular expression"
    | Some m =>
        inl {| listener := l; matcher := m; deliverUntil := Until l;
               queue := Chan.make (Z.to_nat (QueueSize f));
               numWorkers := Z.to_nat (NumWorkers f);
               cutOffPeriod := CutOffPeriod f; lastCutOff := None;
               log := []; delivered := []; notices := [] |}
    end.

Definition with_deliverUntil (t : N) (s : OutboundSender) : OutboundSender :=
  {| listener := listener s; matcher := matcher s; deliverUntil := t;
     queue := queue s; numWorkers := numWorkers s;
     cutOffPeriod := cutOffPeriod s; lastCutOff := lastCutOff s;
     log := log s; delivered := delivered s; notices := notices s |}.

Definition with_queue (q : Chan.chan Job) (s : OutboundSender)
  : OutboundSender :=
  {| listener := listener s; matcher := matcher s;
     deliverUntil := deliverUntil s; queue := q; numWorkers := numWorkers s;
     cutOffPeriod := cutOffPeriod s; lastCutOff := lastCutOff s;
     log := log s; delivered := delivered s; notices := notices s |}.

(** Modelled from the spec: [Extend] (section 4.2). *)
Definition Extend (t : N) (s : OutboundSender) : OutboundSender :=
  if (deliverUntil s <? t)%N then with_deliverUntil t s else s.

Definition key_of (secret : string) : option string :=
  if String.eqb secret "" then None else Some secret.

(** Modelled from the spec: the queue-overflow policy (section 4.2):
    without a failure URL that is logged; with one a notification is
    POSTed and logged, unless one was sent less than [cutOffPeriod] ago. *)
Definition queueOverflow (now : N) (s : OutboundSender) : OutboundSender :=
  let l := listener s in
  let too_soon :=
    match lastCutOff s with
    | Some last => Z.of_N now <? Z.of_N last + cutOffPeriod s
    | None => false
    end in
  if String.eqb (FailureURL l) "" then
    {| listener := l; matcher := matcher s; deliverUntil := deliverUntil s;
       queue := queue s; numWorkers := numWorkers s;
       cutOffPeriod := cutOffPeriod s; lastCutOff := lastCutOff s;
       log := log s ++ [NoFailureURL];
       delivered := delivered s; notices := notices s |}
  else if too_soon then s
  else
    {| listener := l; matcher := matcher s; deliverUntil := deliverUntil s;
       queue := queue s; numWorkers := numWorkers s;
       cutOffPeriod := cutOffPeriod s; lastCutOff := Some now;
       log := log s ++ [CutOffNotification (FailureURL l)];
       delivered := delivered s;
       notices := notices s
                  ++ [{| notice_url := FailureURL l; notice_about := URL l;
                         notice_at := now;
                         notice_signed_with := key_of (Secret l) |}] |}.

(** Modelled from the spec: [Queue] (section 4.2), the three steps of its
    policy in order, at the instant [now]. *)
Definition Queue (now : N) (job : Job) (s : OutboundSender) : OutboundSender :=
  if (deliverUntil s <? now)%N then s
  else if negb (Accept (matcher s) (event job) (deviceID job)) then s
  else
    match Chan.try_send (queue s) job with
    | Some q => with_queue q s
    | None => queueOverflow now s
    end.

(** The request a worker builds for a job. *)
Definition post_for (s : OutboundSender) (job : Job) : Post :=
  let l := listener s in
  {| post_url := URL l;
     post_content_type :=
       if String.eqb (ContentType l) "" then contentType job
       else ContentType l;
     post_event := event job;
     post_transaction := transactionID job;
     post_device := deviceID job;
     post_signed_with := key_of (Secret l);
     post_body := payload job |}.

(** Modelled from the spec: one turn of a worker (section 4.2) at the
    instant [now]: it pops a job, drops it when [deliverUntil] has passed,
    and POSTs it otherwise. *)
Definition work (now : N) (s : OutboundSender) : OutboundSender :=
  match Chan.try_recv (queue s) with
  | None => s
  | Some (job, q) =>
      if (deliverUntil s <? now)%N then with_queue q s
      else
        {| listener := listener s; matcher := matcher s;
           deliverUntil := deliverUntil s; queue := q;
           numWorkers := numWorkers s; cutOffPeriod := cutOffPeriod s;
           lastCutOff := lastCutOff s; log := log s;
           delivered := delivered s ++ [job]; notices := notices s |}
  end.

Definition posts (s : OutboundSender) : list Post :=
  post_for s <$> delivered s.

(** What happens to a sender, in the order it happens. *)
Inductive action : Type :=
| Enqueue (now : N) (job : Job)
| Work (now : N)
| Extended (t : N).

Definition act (a : action) (s : OutboundSender) : OutboundSender :=
  match a with
  | Enqueue now job => Queue now job s
  | Work now => work now s
  | Extended t => Extend t s
  end.

Definition run (acts : list action) (s : OutboundSender) : OutboundSender :=
  foldl (λ s a, act a s) s acts.

(** The job is taken into the queue: not expired, accepted by the matcher,
    and a slot is free. *)
Definition admits (s : OutboundSender) (now : N) (job : Job) : bool :=
  negb (deliverUntil s <? now)%N
  && Accept (matcher s) (event job) (deviceID job)
  && bool_decide (Chan.len (queue s) < Chan.cap (queue s))%nat.

(** The jobs a run takes into the queue, in order. *)
Fixpoint admitted (acts : list action) (s : OutboundSender) : list Job :=
  match acts with
  | [] => []
  | a :: rest =>
      match a with
      | Enqueue now job => if admits s now job then [job] else []
      | _ => []
      end ++ admitted rest (act a s)
  end.

(** The notifications are spaced: each one comes at least [period] after
    every earlier one (oldest first). *)
Fixpoint spaced (period : Z) (ns : list Notice) : Prop :=
  match ns with
  | [] => True
  | n :: later =>
      Forall (λ m, Z.of_N (notice_at n) + period ≤ Z.of_N (notice_at m)) later
      ∧ spaced period later
  end.

(** The notifications made in the window of length [period] from [t]. *)
Definition in_window (t : N) (period : Z) (ns : list Notice) : list Notice :=
  List.filter
    (λ n, (t <=? notice_at n)%N
          && (Z.of_N (notice_at n) <? Z.of_N t + period))
    ns.

End Sender.

(** A small expression library for replaying the tests: [.*] matches
    everything, an expression with an unclosed bracket or parenthesis does
    not compile, anything else matches itself. *)
Inductive pattern : Type :=
| Wildcard
| Literal (s : string).

Fixpoint balance (open close : Ascii.ascii) (s : string) (depth : nat)
  : option nat :=
  match s with
  | EmptyString => Some depth
  | String c rest =>
      if Ascii.eqb c open then balance open close rest (S depth)
      else if Ascii.eqb c close then
        match depth with
        | O => None
        | S d => balance open close rest d
        end
      else balance open close rest depth
  end.

Definition literal_regexps : RegexpLib :=
  {| Regexp := pattern;
     Compile := λ s,
       if String.eqb s ".*" then Some Wildcard
       else if bool_decide
                 (balance (Ascii.ascii_of_nat 91) (Ascii.ascii_of_nat 93) s 0
                  = Some O
                  ∧ balance (Ascii.ascii_of_nat 40) (Ascii.ascii_of_nat 41) s 0
                    = Some O)
       then Some (Literal s) else None;
     MatchString := λ re s,
       match re with
       | Wildcard => true
       | Literal l => String.eqb l s
       end |}.

(** The fixtures of the sender tests; [second] is [time.Second]. *)
Definition second : Z := 1000000000.

Definition test_listener (matcher : gmap string (list string)) : Listener :=
  {| URL := "http://localhost:9999/foo"; ContentType := "application/json";
     Secret := "123456"; Events := ["iot"; "test"]; Matchers := matcher;
     Until := Z.to_N (60 * second); FailureURL := ""; Address := "" |}.

Definition simpleSetup (cutOffPeriod : Z) (matcher : gmap string (list string))
  : OutboundSenderFactory :=
  {| Listener_ := test_listener matcher;
     Client := Some (Handle "client"); CutOffPeriod := cutOffPeriod;
     NumWorkers := 10; QueueSize := 10; Logger := Some (Handle "test") |}.

Definition overflow_factory : OutboundSenderFactory :=
  {| Listener_ :=
       {| URL := "http://localhost:9999/foo";
          ContentType := "application/json"; Secret := "";
          Events := ["iot"; "test"]; Matchers := ∅;
          Until := Z.to_N (30 * second);
          FailureURL := "http://localhost:12345/bar"; Address := "" |};
     Client := Some (Handle "client"); CutOffPeriod := 4 * second;
     NumWorkers := 1; QueueSize := 2; Logger := Some (Handle "test") |}.

Definition simpleJSONRequest (event deviceID transID : string) : Job :=
  {| payload := "Hello, world."; contentType := "application/json";
     targetURL :=
       "http://foo.com/api/v2/notification/device/mac:112233445566/event/iot";
     event := event; deviceID := deviceID; transactionID := transID |}.

(** The sender [New] builds from [overflow_factory]. *)
Definition overflow_sender : @OutboundSender literal_regexps :=
  {| listener := Listener_ overflow_factory;
     matcher := @Build_Matcher literal_regexps
                  [Literal "iot"; Literal "test"] [];
     deliverUntil := Z.to_N (30 * second);
     queue := Chan.make 2; numWorkers := 1;
     cutOffPeriod := 4 * second; lastCutOff := None;
     log := []; delivered := []; notices := [] |}.

End Outbound.

(** ** The sender wrapper *)

Module Wrapper.

(** The delivery job of an inbound request. *)
Definition job_of (req : CaduceusRequest) (event deviceID transID : string)
  : Outbound.Job :=
  {| Outbound.payload := Payload req;
     Outbound.contentType := ContentType req;
     Outbound.targetURL := TargetURL req;
     Outbound.event := event; Outbound.deviceID := deviceID;
     Outbound.transactionID := transID |}.

Import Outbound.

(** Modelled from the spec: the extraction of event and device id from
    the target URL (section 6), by the expression
    [.*/device/(?P<deviceID>[^/]+)/event/(?P<event>[^/]+).*]: on the path
    split at every slash, the last place where a segment [device] that
    follows a slash is followed by a non-empty segment, the segment
    [event] and another non-empty segment.  Without a match both are
    empty. *)
Fixpoint segments (s : string) (current : string) : list string :=
  match s with
  | EmptyString => [current]
  | String c rest =>
      if Ascii.eqb c (Ascii.ascii_of_nat 47)
      then current :: segments rest EmptyString
      else segments rest (current +:+ String c EmptyString)
  end.

Fixpoint last_device_event (segs : list string) : option (string * string) :=
  match segs with
  | [] => None
  | seg :: rest =>
      match last_device_event rest with
      | Some found => Some found
      | None =>
          match seg, rest with
          | "device", deviceID :: "event" :: event :: _ =>
              if String.eqb deviceID "" || String.eqb event "" then None
              else Some (event, deviceID)
          | _, _ => None
          end
      end
  end.

Definition event_and_device (targetURL : string) : string * string :=
  match segments targetURL EmptyString with
  | _ :: after_first_slash =>
      default ("", "") (last_device_event after_first_slash)
  | [] => ("", "")
  end.

(** Modelled from the spec: the parameters of the missing wrapper
    constructor (section 4.3), as the wrapper tests set them. *)
Record SenderWrapperFactory : Type := {
  NumWorkersPerSender : Z;
  QueueSizePerSender : Z;
  swf_CutOffPeriod : Z;
  Linger : Z;
  swf_Client : option handle;
  swf_Logger : option handle
}.

Section WithRegexps.
Context `{RegexpLib}.

(** Modelled from the spec: the dispatch set and the shared parameters of
    the missing [SenderWrapper]; [retired] keeps the senders that were
    replaced or evicted. *)
Record SenderWrapper : Type := {
  senders : gmap string OutboundSender;
  retired : list OutboundSender;
  factory : SenderWrapperFactory
}.

(** Modelled from the spec: [SenderWrapperFactory.New] (section 4.3):
    the four parameters must be strictly positive. *)
Definition New (swf : SenderWrapperFactory) : SenderWrapper + string :=
  if NumWorkersPerSender swf <=? 0 then inr "NumWorkersPerSender must be positive."
  else if QueueSizePerSender swf <=? 0 then inr "QueueSizePerSender must be positive."
  else if swf_CutOffPeriod swf <=? 0 then inr "CutOffPeriod must be positive."
  else if Linger swf <=? 0 then inr "Linger must be positive."
  else inl {| senders := ∅; retired := []; factory := swf |}.

Definition factory_for (sw : SenderWrapper) (l : Listener)
  : OutboundSenderFactory :=
  {| Listener_ := l;
     Client := swf_Client (factory sw);
     CutOffPeriod := swf_CutOffPeriod (factory sw);
     NumWorkers := NumWorkersPerSender (factory sw);
     QueueSize := QueueSizePerSender (factory sw);
     Logger := swf_Logger (factory sw) |}.

(** No field other than [Until] changed (events, matchers, secret,
    content type, failure URL). *)
Definition same_subscription (old new : Listener) : bool :=
  bool_decide (Events old = Events new)
  && bool_decide (Matchers old = Matchers new)
  && String.eqb (Secret old) (Secret new)
  && String.eqb (ContentType old) (ContentType new)
  && String.eqb (FailureURL old) (FailureURL new).

(** Modelled from the spec: the reconciliation of one listener of an
    [Update] snapshot (section 4.3).  A known URL has its sender extended,
    and replaced by a new sender when the subscription changed; an unknown
    URL gets a new sender.  A listener whose sender cannot be constructed
    is ignored. *)
Definition reconcile (sw : SenderWrapper) (l : Listener) : SenderWrapper :=
  match senders sw !! URL l with
  | Some s =>
      let extended := Outbound.Extend (Until l) s in
      if same_subscription (listener s) l
      then {| senders := <[URL l := extended]> (senders sw);
              retired := retired sw; factory := factory sw |}
      else
        match Outbound.New (factory_for sw l) with
        | inl fresh =>
            {| senders := <[URL l := fresh]> (senders sw);
               retired := retired sw ++ [extended]; factory := factory sw |}
        | inr _ =>
            {| senders := <[URL l := extended]> (senders sw);
               retired := retired sw; factory := factory sw |}
        end
  | None =>
      match Outbound.New (factory_for sw l) with
      | inl fresh =>
          {| senders := <[URL l := fresh]> (senders sw);
             retired := retired sw; factory := factory sw |}
      | inr _ => sw
      end
  end.

(** Modelled from the spec: [SenderWrapper.Update] (section 4.3), the
    snapshot reconciled listener by listener; senders whose URL is not in
    the snapshot stay. *)
Definition Update (list : list Listener) (sw : SenderWrapper) : SenderWrapper :=
  foldl reconcile sw list.

(** Modelled from the spec: [SenderWrapper.Queue] (section 4.3): event
    and device id come from the target URL, and every sender of the
    dispatch set is offered the job. *)
Definition Queue (now : N) (req : CaduceusRequest) (transID : string)
    (sw : SenderWrapper) : SenderWrapper :=
  let '(event, deviceID) := event_and_device (TargetURL req) in
  let job := job_of req event deviceID transID in
  {| senders := Outbound.Queue now job <$> senders sw;
     retired := retired sw; factory := factory sw |}.

(** Every worker of every sender takes a turn. *)
Definition work_all (now : N) (sw : SenderWrapper) : SenderWrapper :=
  {| senders := Outbound.work now <$> senders sw;
     retired := retired sw; factory := factory sw |}.

(** Modelled from the spec: the reaper (section 4.3), which evicts the
    senders whose [deliverUntil + Linger] has passed. *)
Definition reap (now : N) (sw : SenderWrapper) : SenderWrapper :=
  let expired (s : OutboundSender) : Prop :=
    Z.of_N (deliverUntil s) + Linger (factory sw) < Z.of_N now in
  {| senders := filter (λ kv, ¬ expired kv.2) (senders sw);
     retired := retired sw
                ++ (map_to_list (filter (λ kv, expired kv.2) (senders sw))).*2;
     factory := factory sw |}.

(** The number of POSTs made to listeners so far (the counter of the
    test transport). *)
Definition posts_made (sw : SenderWrapper) : nat :=
  sum_list ((λ s, length (delivered s)) <$> (map_to_list (senders sw)).*2)
  + sum_list ((λ s, length (delivered s)) <$> retired sw).

End WithRegexps.

End Wrapper.

(** ** Runs of the worker pool

    What happens to a pool after [New]: clients call [Send], and workers
    come to the receive of [for f := range jobs], in the order the
    scheduler picked. *)
Inductive pool_event (F : Type) : Type :=
| PoolSend (inFunc : F)
| PoolReceive.
Arguments PoolSend {F} _.
Arguments PoolReceive {F}.

Definition pool_step {F} (wp : WorkerPool F) (ev : pool_event F)
  : WorkerPool F :=
  match ev with
  | PoolSend inFunc => (Send wp inFunc).1
  | PoolReceive => receive wp
  end.

Definition pool_run {F} (evs : list (pool_event F)) (wp : WorkerPool F)
  : WorkerPool F :=
  foldl pool_step wp evs.

(** The functions handed to [Send] during a run, and those among them for
    which [Send] returned [nil]. *)
Fixpoint sent {F} (evs : list (pool_event F)) : list F :=
  match evs with
  | [] => []
  | PoolSend inFunc :: rest => inFunc :: sent rest
  | PoolReceive :: rest => sent rest
  end.

Fixpoint accepted {F} (evs : list (pool_event F)) (wp : WorkerPool F)
  : list F :=
  match evs with
  | [] => []
  | PoolSend inFunc :: rest =>
      match (Send wp inFunc).2 with
      | None => inFunc :: accepted rest (Send wp inFunc).1
      | Some _ => accepted rest (Send wp inFunc).1
      end
  | PoolReceive :: rest => accepted rest (receive wp)
  end.

(** ** The document of a stored listener

    What [convertItemToWebhook] decodes for an item that [UpdateRegistry]
    wrote: the members of the listener in the order of their names, the
    [Duration] as the float64 of the map is written. *)
Definition stored_document (w : Registry.W) (until : string)
  : Registry.JSON :=
  Registry.JObject
    [("config",
      Registry.JObject
        ([("content_type",
           Registry.JString (Registry.ContentType (Registry.config w)))]
         ++ (if decide (Registry.Secret (Registry.config w) = "") then []
             else [("secret",
                    Registry.JString (Registry.Secret (Registry.config w)))])
         ++ [("url", Registry.JString (Registry.URL (Registry.config w)))]));
     ("duration",
      Registry.JNumber
        (Registry.json_float64
           (Registry.float64_of_int (Registry.Duration w))));
     ("events", Registry.strings_json (Registry.Events w));
     ("failure_url", Registry.JString (Registry.FailureURL w));
     ("matcher",
      Registry.JObject
        [("device_id",
          Registry.strings_json (Registry.DeviceId (Registry.matcher w)))]);
     ("registered_from_address", Registry.JString (Registry.Address w));
     ("until", Registry.JString until)].

(** ** Runs of a profiler *)

Section ProfilerRuns.
Context `{Profiler.ServerRing} `{Profiler.StatsFormat}.

(** The values for which [Send] returned [nil] during a run, in order,
    and all the values [Send] was called with. *)
Fixpoint received (evs : list Profiler.event)
    (cp : Profiler.caduceusProfiler) : list Profiler.any :=
  match evs with
  | [] => []
  | Profiler.CallSend inData :: rest =>
      match (Profiler.Send cp inData).2 with
      | None => inData :: received rest (Profiler.Send cp inData).1
      | Some _ => received rest (Profiler.Send cp inData).1
      end
  | ev :: rest => received rest (Profiler.aggregate_step ev cp)
  end.

Fixpoint offered (evs : list Profiler.event) : list Profiler.any :=
  match evs with
  | [] => []
  | Profiler.CallSend inData :: rest => inData :: offered rest
  | _ :: rest => offered rest
  end.

(** What a relaying profiler keeps true from one step to the next. *)
Definition relays (cp : Profiler.caduceusProfiler)
    (p : Chan.chan Profiler.any) : Prop :=
  Profiler.parent cp = Some p
  ∧ (Profiler.at_stage cp = Profiler.Spawned → Profiler.data cp = []).

End ProfilerRuns.

(** How many values of a batch are telemetry, and how many events the
    logged stats report in all. *)
Definition telemetry_count (raw : list Profiler.any) : Z :=
  Z.of_nat (length (Profiler.filterNonTelemetryElements raw)).

Definition events_logged (log : list Profiler.CaduceusStats) : Z :=
  foldr (λ cs total, Profiler.EventsSent cs + total) 0 log.

(** ** The timing statistics of [process]

    The numbers behind the six duration strings: the three series of
    nanosecond counts, their sums, and the 98th percentile picked after
    [sort.Sort] at the index [get98th] computes in float64 arithmetic.
    An instant of a [CaduceusTelemetry] is counted in nanoseconds; a
    [float64] is a [spec_float] of 53 bits (binary64). *)

Module Stats.

Definition minDuration : Z := - 2 ^ 63.
Definition maxDuration : Z := 2 ^ 63 - 1.

(** [t.Sub(u).Nanoseconds()]: the difference, held at the largest or the
    smallest [Duration] when it does not fit. *)
Definition Sub (t u : Z) : Z :=
  if t - u <? minDuration then minDuration
  else if maxDuration <? t - u then maxDuration
  else t - u.

(** [type int64Array []int64] and its [sort.Interface]; an index out of
    range panics ([None]). *)
Abbreviation int64Array := (list Z) (only parsing).

Definition Len (a : int64Array) : Z := Z.of_nat (length a).

Definition Swap (a : int64Array) (i j : nat) : option int64Array :=
  x ← a !! i; y ← a !! j; Some (<[i := y]> (<[j := x]> a)).

Definition Less (a : int64Array) (i j : nat) : option bool :=
  x ← a !! i; y ← a !! j; Some (bool_decide (x < y)).

(** What [sort.Sort] asks of its result: no element is [Less] than one
    before it. *)
Definition sorted_by_Less (a : int64Array) : Prop :=
  ∀ i j, (i < j < length a)%nat → Less a j i = Some false.

(** [sort.Sort(int64Array(l))]: the ascending arrangement of [l]. *)
Definition sort_Sort (a : int64Array) : int64Array := merge_sort Z.le a.

(** *** float64 *)

Definition float64 : Type := SpecFloat.spec_float.

(** [float64(n)] for an [int]. *)
Definition float64_of_int (n : Z) : float64 :=
  SpecFloat.binary_normalize 53 1024 n 0 false.

(** The constants [0.98] and [1] as float64: [0.98] is
    [8827055269646172 / 2^53], the nearest float64. *)
Definition const_0_98 : float64 :=
  SpecFloat.S754_finite false 8827055269646172 (-53).

Definition const_1 : float64 :=
  SpecFloat.S754_finite false 4503599627370496 (-52).

(** [math.Ceil]: zeros, infinities and NaN are returned as they are; a
    negative fraction above -1 gives the negative zero. *)
Definition math_Ceil (x : float64) : float64 :=
  match x with
  | SpecFloat.S754_finite s m e =>
      if 0 <=? e then x
      else
        let c := - ((- SpecFloat.cond_Zopp s (Z.pos m)) / 2 ^ (- e)) in
        SpecFloat.binary_normalize 53 1024 c 0 s
  | _ => x
  end.

(** [int64(x)]: the fraction is discarded; what a value that is not
    finite or does not fit gives is left to the implementation ([None]). *)
Definition int64_of_float64 (x : float64) : option Z :=
  match x with
  | SpecFloat.S754_zero _ => Some 0
  | SpecFloat.S754_finite s m e =>
      let z :=
        SpecFloat.cond_Zopp s
          (if 0 <=? e then Z.pos m * 2 ^ e else Z.pos m / 2 ^ (- e)) in
      if (- 2 ^ 63 <=? z) && (z <? 2 ^ 63) then Some z else None
  | _ => None
  end.

(** [int64(math.Ceil(float64(n)*0.98) - 1)] *)
Definition index98 (n : Z) : option Z :=
  int64_of_float64
    (SpecFloat.SFsub 53 1024
       (math_Ceil (SpecFloat.SFmul 53 1024 (float64_of_int n) const_0_98))
       const_1).

Definition get98th (list : int64Array) : option Z := index98 (Len list).

(** [a[i]] for an [int64] index: a negative index or one past the end
    panics ([None]). *)
Definition at_index (a : int64Array) (i : option Z) : option Z :=
  i ← i; if i <? 0 then None else a !! Z.to_nat i.

(** [sorted[get98th(sorted)]] *)
Definition perc98 (series : int64Array) : option Z :=
  at_index (sort_Sort series) (get98th (sort_Sort series)).

(** The running sum of an [int64] series. *)
Definition total (series : int64Array) : Z :=
  foldl (λ sum x, wrap64 (sum + x)) 0 series.

(** [total / int64(n)]: Go's division truncates towards zero. *)
Definition average (series : int64Array) : Z :=
  Z.quot (total series) (Len series).

Definition latency (ts : list Profiler.CaduceusTelemetry) : int64Array :=
  (λ t, Sub (Profiler.TimeSent t) (Profiler.TimeReceived t)) <$> ts.

Definition processingTime (ts : list Profiler.CaduceusTelemetry)
  : int64Array :=
  (λ t, Sub (Profiler.TimeOutboundAccepted t) (Profiler.TimeReceived t))
    <$> ts.

Definition responseTime (ts : list Profiler.CaduceusTelemetry)
  : int64Array :=
  (λ t, Sub (Profiler.TimeResponded t) (Profiler.TimeSent t)) <$> ts.

(** The six strings of a non-empty batch, with [String] for
    [time.Duration.String]; [None] when an index expression panics. *)
Definition timing_of (String : Z → string)
    (ts : list Profiler.CaduceusTelemetry) : option Profiler.TimingSummary :=
  processing98 ← perc98 (processingTime ts);
  latency98 ← perc98 (latency ts);
  response98 ← perc98 (responseTime ts);
  Some {| Profiler.processingPerc98 := String processing98;
          Profiler.processingAvg := String (average (processingTime ts));
          Profiler.latencyPerc98 := String latency98;
          Profiler.latencyAvg := String (average (latency ts));
          Profiler.responsePerc98 := String response98;
          Profiler.responseAvg := String (average (responseTime ts)) |}.

(** *** What the percentile is measured against *)

(** The index in exact arithmetic: [ceil(98 n / 100) - 1]. *)
Definition exact98 (n : Z) : Z := (49 * n + 49) / 50 - 1.

(** The largest batch for which the float64 index is shown to be the
    exact one. *)
Definition largest_batch : Z := 2 ^ 47 - 1.

(** The sum of a series in the integers. *)
Definition exact_sum (series : int64Array) : Z := foldr Z.add 0 series.

(** How many samples of a series are at most, or below, a value. *)
Definition count_le (v : Z) (series : int64Array) : Z :=
  Z.of_nat (length (filter (λ x, x ≤ v) series)).

Definition count_lt (v : Z) (series : int64Array) : Z :=
  Z.of_nat (length (filter (λ x, x < v) series)).

End Stats.

(** ** Runs of the intake

    Requests arrive one after another, each on a response of its own,
    and between them workers come to their receive. *)
Inductive intake_event : Type :=
| Arrives (request : Intake.Request) (now1 now2 : Z)
| WorkerReceives.

Definition intake_step (sh : Intake.ServerHandler) (ev : intake_event)
  : Intake.ServerHandler :=
  match ev with
  | Arrives request now1 now2 =>
      (Intake.ServeHTTP sh Intake.NewRecorder request now1 now2).1
  | WorkerReceives =>
      {| Intake.logger := Intake.logger sh;
         Intake.caduceusHealth := Intake.caduceusHealth sh;
         Intake.workerPool := receive (Intake.workerPool sh) |}
  end.

Definition intake_run (evs : list intake_event) (sh : Intake.ServerHandler)
  : Intake.ServerHandler :=
  foldl intake_step sh evs.

(** Whether the handler called [WriteHeader(202)] on a response. *)
Definition accepted_call (c : Intake.call) : bool :=
  match c with
  | Intake.CallWriteHeader code => code =? Intake.StatusAccepted
  | Intake.CallWrite _ => false
  end.

(** How many requests of a run the handler answered with
    [WriteHeader(202)]. *)
Fixpoint answered_accepted (evs : list intake_event)
    (sh : Intake.ServerHandler) : Z :=
  match evs with
  | [] => 0
  | ev :: rest =>
      match ev with
      | Arrives request now1 now2 =>
          if existsb accepted_call
               (Intake.calls
                  (Intake.ServeHTTP sh Intake.NewRecorder request now1 now2).2)
          then 1 else 0
      | WorkerReceives => 0
      end + answered_accepted rest (intake_step sh ev)
  end.

(** The four payload-size counters together. *)
Definition payload_total (ch : CaduceusHealth) : Z :=
  health.count (Monitor ch) PayloadsOverZero
  + health.count (Monitor ch) PayloadsOverHundred
  + health.count (Monitor ch) PayloadsOverThousand
  + health.count (Monitor ch) PayloadsOverTenThousand.

(** The payload counters are not negative and their total is at most
    [bound]. *)
Definition counters_below (bound : Z) (ch : CaduceusHealth) : Prop :=
  Forall (λ stat, 0 ≤ health.count (Monitor ch) stat) payload_stats
  ∧ payload_total ch ≤ bound.

(* ===================================================================== *)
(** * Part II: properties                                                 *)
(* ===================================================================== *)

(** ** Payload-size buckets *)

Lemma count_apply_same stats stat value :
  health.count (health.apply (health.Inc stat value) stats) stat
  = wrap64 (health.count stats stat + value).
Proof. unfold health.count at 1. cbn. by rewrite lookup_insert_eq. Qed.

Lemma lookup_apply_other stats stat value other :
  other ≠ stat →
  health.apply (health.Inc stat value) stats !! other = stats !! other.
Proof. intros Hne. cbn. by rewrite lookup_insert_ne. Qed.

(** One branch of [IncrementBucket]: the stat it sends, the range facts
    by arithmetic or by comparing the stat names, the rest of the map by
    [lookup_apply_other]. *)
Ltac bucket_case stat :=
  exists stat; cbn [SendEvent Monitor]; rewrite count_apply_same;
  split; [unfold payload_stats; rewrite !elem_of_cons; tauto |];
  repeat split; try (intros; first [lia | discriminate]);
  intros s Hs; by apply lookup_apply_other.

(** C9. Every call [IncrementBucket inSize] adds one (in Go's [int]
    arithmetic) to exactly one of the four payload-size stats and leaves
    every other stat as it was; the stat is [PayloadsOverZero] below 100,
    [PayloadsOverHundred] from 100 below 1000, [PayloadsOverThousand]
    from 1000 below 10000, and [PayloadsOverTenThousand] from 10000 on. *)
Theorem IncrementBucket_one_bucket (ch : CaduceusHealth) (inSize : Z) :
  ∃ b : health.Stat,
    b ∈ payload_stats
    ∧ (b = PayloadsOverZero ↔ inSize < 100)
    ∧ (b = PayloadsOverHundred ↔ 100 ≤ inSize < 1000)
    ∧ (b = PayloadsOverThousand ↔ 1000 ≤ inSize < 10000)
    ∧ (b = PayloadsOverTenThousand ↔ 10000 ≤ inSize)
    ∧ health.count (Monitor (IncrementBucket inSize ch)) b
      = wrap64 (health.count (Monitor ch) b + 1)
    ∧ ∀ s : health.Stat,
        s ≠ b → Monitor (IncrementBucket inSize ch) !! s = Monitor ch !! s.
Proof.
  unfold IncrementBucket.
  destruct (Z.ltb_spec inSize 100) as [H1|H1];
    [| destruct (Z.ltb_spec inSize 1000) as [H2|H2];
       [| destruct (Z.ltb_spec inSize 10000) as [H3|H3]]].
  - bucket_case PayloadsOverZero.
  - bucket_case PayloadsOverHundred.
  - bucket_case PayloadsOverThousand.
  - bucket_case PayloadsOverTenThousand.
Qed.

(** ** The worker pool *)

Lemma try_send_free {A} (c : Chan.chan A) (x : A) :
  (Chan.len c < Chan.cap c)%nat →
  Chan.try_send c x = Some (Chan.Make (Chan.cap c) (Chan.buf c ++ [x])).
Proof.
  intros Hfree. unfold Chan.try_send, Chan.send.
  destruct (decide (Chan.len c < Chan.cap c)%nat); [done | lia].
Qed.

Lemma try_send_full {A} (c : Chan.chan A) (x : A) :
  (Chan.cap c ≤ Chan.len c)%nat → Chan.try_send c x = None.
Proof.
  intros Hfull. unfold Chan.try_send, Chan.send.
  destruct (decide (Chan.len c < Chan.cap c)%nat); [lia | done].
Qed.

Lemma try_send_bounded {A} (c c' : Chan.chan A) (x : A) :
  Chan.try_send c x = Some c' →
  Chan.cap c' = Chan.cap c ∧ (Chan.len c' ≤ Chan.cap c')%nat.
Proof.
  unfold Chan.try_send, Chan.send.
  destruct (decide (Chan.len c < Chan.cap c)%nat) as [Hlt|]; [|done].
  intros [= <-]. split; [done |].
  unfold Chan.len in *. cbn. rewrite length_app. cbn. lia.
Qed.

Lemma Send_well_formed {F : Type} (wp : WorkerPool F) (inFunc : F) :
  well_formed wp → well_formed (Send wp inFunc).1.
Proof.
  unfold well_formed, Send. intros Hwf.
  destruct (waiting wp) as [|parked] eqn:Hw.
  - destruct (Chan.try_send _ _); cbn; rewrite ?Hw; auto.
  - destruct Hwf as [|Hbuf]; [done |]. cbn. by right.
Qed.

Lemma receive_well_formed {F : Type} (wp : WorkerPool F) :
  well_formed wp → well_formed (receive wp).
Proof.
  unfold well_formed, receive, Chan.try_recv. intros Hwf.
  destruct (busy wp); [done |].
  destruct (Chan.buf (jobs wp)) as [|f rest] eqn:Hbuf; cbn.
  - by right.
  - destruct Hwf as [Hw|]; [by left | done].
Qed.

Lemma New_well_formed {F : Type} (wpf : WorkerPoolFactory) (wp : WorkerPool F) :
  WorkerPoolFactory_New wpf = Some wp → well_formed wp.
Proof.
  unfold WorkerPoolFactory_New. destruct (_ <? _); [done |].
  intros [= <-]. by left.
Qed.

(** C8. On every pool ([well_formed]: workers park only at an empty
    buffer, which [New], [Send] and the workers keep true) [Send] returns
    at once with a pool and a result; it has no blocking outcome.  When
    the job channel has a free slot (or, never being full otherwise, a
    worker is waiting at the receive), [Send] returns [nil] and the
    function is in the channel behind the jobs already there, or with the
    waiting worker.  When the channel is full, [Send] returns the
    "pool full" error and leaves the pool as it was. *)
Theorem Send_nonblocking {F : Type} (wp : WorkerPool F) (inFunc : F) :
  well_formed wp →
  (∃ wp' err, Send wp inFunc = (wp', err))
  ∧ ((Chan.len (jobs wp) < Chan.cap (jobs wp))%nat → full wp = false)
  ∧ (full wp = false →
       (Send wp inFunc).2 = None
       ∧ (Chan.buf (jobs (Send wp inFunc).1) = Chan.buf (jobs wp) ++ [inFunc]
          ∧ taken (Send wp inFunc).1 = taken wp
          ∨ Chan.buf (jobs (Send wp inFunc).1) = Chan.buf (jobs wp)
            ∧ taken (Send wp inFunc).1 = taken wp ++ [inFunc]))
  ∧ (full wp = true →
       Send wp inFunc = (wp, Some pool_full) ∧ pool_full ≠ "")
  ∧ well_formed (Send wp inFunc).1.
Proof.
  intros Hwf.
  split; [by destruct (Send wp inFunc) as [wp' err]; exists wp', err |].
  split; [| split; [| split; [| by apply Send_well_formed]]].
  - intros Hfree. unfold full.
    destruct (Nat.eqb_spec (Chan.cap (jobs wp)) 0); [lia |].
    apply Nat.leb_gt. lia.
  - unfold full, Send.
    destruct (Nat.eqb_spec (Chan.cap (jobs wp)) 0) as [Hcap|Hcap].
    + intros Hw%Nat.eqb_neq. destruct (waiting wp); [done |]. cbn. auto.
    + intros Hfree%Nat.leb_gt. destruct (waiting wp); [| cbn; auto].
      rewrite try_send_free by done. cbn. auto.
  - unfold full, Send.
    destruct (Nat.eqb_spec (Chan.cap (jobs wp)) 0) as [Hcap|Hcap].
    + intros ->%Nat.eqb_eq. by rewrite try_send_full by lia.
    + intros Hfull%Nat.leb_le.
      destruct Hwf as [->|Hbuf].
      * by rewrite try_send_full.
      * unfold Chan.len in Hfull. rewrite Hbuf in Hfull. cbn in Hfull. lia.
Qed.

Lemma Send_nonblocking_witness :
  (Send Intake.test_pool
        (Intake.HandleRequestJob
           {| Payload := "Test message."; ContentType := "text/plain";
              TargetURL := "/"; Timestamps :=
                {| TimeReceived := 1; TimeAccepted := 2;
                   TimeProcessingStart := 0; TimeProcessingEnd := 0 |} |})).2
  = None.
Proof.
  exact (proj1 (proj1 (proj2 (proj2 (Send_nonblocking Intake.test_pool _
                                       (or_introl eq_refl)))) eq_refl)).
Defined.

(** A pool without a buffer ([QueueSize] 0, one worker): a [Send] before
    the worker is at its receive is refused; once the worker is parked a
    [Send] hands it the function; the next one is refused again. *)
Example Send_without_buffer :
  match @WorkerPoolFactory_New string
          {| wpf_NumWorkers := 1; wpf_QueueSize := 0 |} with
  | Some wp =>
      (Send wp "f").2 = Some pool_full
      ∧ (Send (receive wp) "f").2 = None
      ∧ taken (Send (receive wp) "f").1 = ["f"]
      ∧ (Send (Send (receive wp) "f").1 "g").2 = Some pool_full
  | None => False
  end.
Proof. by vm_compute. Qed.

(** ** The intake handler *)

Section IntakeProperties.
Import Intake.

(** The greeting [ServeHTTP] writes before anything else. *)
Definition greeting : string := "Heyo whaddup!" +:+ LF.

(** Once a status is committed, no later call changes it. *)
Lemma WriteHeader_committed code rw c :
  status rw = Some c → status (WriteHeader code rw) = Some c.
Proof. intros H. unfold WriteHeader. cbn. by rewrite H. Qed.

Lemma Write_committed data rw c :
  status rw = Some c → status (Write data rw) = Some c.
Proof. intros H. unfold Write. cbn. by rewrite H. Qed.

Lemma Write_fresh data rw :
  status rw = None → status (Write data rw) = Some 200.
Proof. intros H. unfold Write. cbn. by rewrite H. Qed.

(** On a response nothing was written to, the greeting commits status 200
    for every request: no later [WriteHeader] of the handler takes effect. *)
Lemma ServeHTTP_status_of_greeting sh response request now1 now2 :
  status response = None →
  status (ServeHTTP sh response request now1 now2).2 = Some 200.
Proof.
  intros Hfresh. unfold ServeHTTP.
  pose proof (Write_fresh greeting response Hfresh) as Hg.
  fold greeting. generalize dependent (Write greeting response).
  intros greeted Hg.
  destruct (Body request) as [myPayload|err]; cbn [snd].
  - destruct (Header request !! "Content-Type") as [[|v [|v' value]]|];
      repeat case_decide;
      repeat match goal with
        | |- context [Send ?wp ?f] => destruct (Send wp f) as [? [?|]]
        end;
      cbn [snd];
      repeat first [apply Write_committed with (c := 200)
                   | apply WriteHeader_committed with (c := 200)];
      exact Hg.
  - by apply Write_committed, WriteHeader_committed.
Qed.

(** C2. The POST of [TestServeHTTP] (body "Test message.", one
    Content-Type value, a pool with a free slot) is queued, yet the
    response carries status 200 and the greeting in front of
    "Request placed on to queue."; with the pool full the response again
    carries status 200, not 408: the [WriteHeader] calls for 202 and 408
    come after the greeting committed the status. *)
Theorem ServeHTTP_accepted_post_response :
  let accepted := ServeHTTP test_handler NewRecorder (post "Test message.") 1 2 in
  let refused := ServeHTTP accepted.1 NewRecorder (post "Test message.") 3 4 in
  Chan.len (jobs (workerPool accepted.1)) = 1%nat
  ∧ status accepted.2 = Some 200
  ∧ body accepted.2 = greeting +:+ "Request placed on to queue." +:+ LF
  ∧ CallWriteHeader StatusAccepted ∈ calls accepted.2
  ∧ workerPool refused.1 = workerPool accepted.1
  ∧ status refused.2 = Some 200
  ∧ body refused.2 = greeting +:+ "Unable to handle request at this time." +:+ LF
  ∧ CallWriteHeader StatusRequestTimeout ∈ calls refused.2.
Proof.
  cbv zeta.
  repeat split; try (vm_compute; reflexivity).
  - apply list_elem_of_In. vm_compute. auto 10.
  - apply list_elem_of_In. vm_compute. auto 10.
Qed.

(** C3, as stated, fails: a POST whose body is empty and whose single
    Content-Type is [text/plain] is handed to the pool with its empty
    payload; the handler never calls [WriteHeader(400)] for it, and the
    response status is not 400. *)
Lemma ServeHTTP_empty_body_is_queued :
  let r := ServeHTTP test_handler NewRecorder (post "") 1 2 in
  Chan.buf (jobs (workerPool r.1))
  = [HandleRequestJob
       {| Payload := ""; ContentType := "text/plain";
          TargetURL := "/api/v1/run";
          Timestamps := {| TimeReceived := 1; TimeAccepted := 2;
                           TimeProcessingStart := 0;
                           TimeProcessingEnd := 0 |} |}]
  ∧ Chan.buf (jobs (workerPool test_handler)) = []
  ∧ (CallWriteHeader StatusBadRequest ∉ calls r.2)
  ∧ status r.2 ≠ Some StatusBadRequest.
Proof.
  cbv zeta. split; [by vm_compute |]. split; [by vm_compute |]. split.
  - intros Hin. apply list_elem_of_In in Hin. vm_compute in Hin.
    intuition discriminate.
  - by vm_compute.
Qed.

(** C3, amended. When reading the body fails, the handler submits nothing
    to the pool and, after the greeting, calls [WriteHeader(400)] and
    writes the reason.  A body that is read without error is never
    rejected for being empty: with one non-empty Content-Type value the
    empty payload is sent to the pool like any other. *)
Theorem ServeHTTP_unreadable_body_not_submitted
    sh response request now1 now2 :
  (∀ err, Body request = ReadErr err →
     let r := ServeHTTP sh response request now1 now2 in
     workerPool r.1 = workerPool sh
     ∧ calls r.2
       = calls response
         ++ [CallWrite greeting; CallWriteHeader StatusBadRequest;
             CallWrite ("Unable to retrieve the request body: " +:+ err
                        +:+ "." +:+ LF)])
  ∧ (∀ contentType, Body request = ReadOk "" →
       Header request !! "Content-Type" = Some [contentType] →
       contentType ≠ "" →
       let r := ServeHTTP sh response request now1 now2 in
       workerPool r.1
       = (Send (workerPool sh)
               (HandleRequestJob
                  {| Payload := ""; ContentType := contentType;
                     TargetURL := URL request;
                     Timestamps :=
                       {| TimeReceived := now1; TimeAccepted := now2;
                          TimeProcessingStart := 0;
                          TimeProcessingEnd := 0 |} |})).1).
Proof.
  split.
  - intros err Hbody. cbv zeta. unfold ServeHTTP. rewrite Hbody.
    cbn. split; [done |]. by rewrite <- !app_assoc.
  - intros contentType Hbody Hct Hne. cbv zeta. unfold ServeHTTP.
    rewrite Hbody, Hct. cbn [fst snd].
    destruct (decide (contentType = "")) as [|_]; [done |].
    cbn [TimeReceived TimeProcessingStart TimeProcessingEnd URL].
    by destruct (Send _ _) as [wp [e|]].
Qed.

Lemma ServeHTTP_unreadable_body_not_submitted_witness :
  workerPool (ServeHTTP test_handler NewRecorder broken_post 1 2).1
  = workerPool test_handler
  ∧ Chan.len (jobs (workerPool
                      (ServeHTTP test_handler NewRecorder (post "") 1 2).1))
    = 1%nat.
Proof.
  pose proof (ServeHTTP_unreadable_body_not_submitted
                test_handler NewRecorder broken_post 1 2) as [Herr _].
  pose proof (ServeHTTP_unreadable_body_not_submitted
                test_handler NewRecorder (post "") 1 2) as [_ Hempty].
  split.
  - exact (proj1 (Herr "unexpected EOF" eq_refl)).
  - rewrite (Hempty "text/plain" eq_refl eq_refl ltac:(discriminate)).
    reflexivity.
Defined.

End IntakeProperties.

(** ** The profiler *)

Section ProfilerProperties.
Context `{Profiler.ServerRing} `{Profiler.StatsFormat}.
Import Profiler.

Lemma Send_keeps_ring_and_parent (cp : caduceusProfiler) (inData : any) :
  profilerRing (Send cp inData).1 = profilerRing cp
  ∧ parent (Send cp inData).1 = parent cp.
Proof. unfold Send. by destruct (Chan.try_send _ _). Qed.

(** A profiler that has a parent keeps having one, whatever happens. *)
Lemma aggregate_step_keeps_parent (ev : event) (cp : caduceusProfiler) :
  is_Some (parent cp) → is_Some (parent (aggregate_step ev cp)).
Proof.
  intros [p Hp]. unfold aggregate_step.
  destruct ev, (at_stage cp); cbn; rewrite ?Hp; cbn; eauto;
    try (rewrite (proj2 (Send_keeps_ring_and_parent cp inData)); eauto).
  - destruct (Chan.try_recv (inChan cp)) as [[inData c']|]; cbn; eauto.
  - destruct (quit cp); cbn; eauto.
Qed.

(** With a parent, no event writes the ring. *)
Lemma aggregate_step_keeps_ring (ev : event) (cp : caduceusProfiler) :
  is_Some (parent cp) →
  profilerRing (aggregate_step ev cp) = profilerRing cp.
Proof.
  intros [p Hp]. unfold aggregate_step.
  destruct ev, (at_stage cp); cbn; rewrite ?Hp; cbn; try done;
    try apply Send_keeps_ring_and_parent.
  - by destruct (Chan.try_recv (inChan cp)) as [[inData c']|].
  - by destruct (quit cp).
Qed.

Lemma aggregate_keeps_ring (evs : list event) (cp : caduceusProfiler) :
  is_Some (parent cp) →
  profilerRing (aggregate evs cp) = profilerRing cp.
Proof.
  revert cp. induction evs as [|ev evs IH]; intros cp Hp; [done |].
  unfold aggregate in *. cbn [foldl].
  rewrite IH by (by apply aggregate_step_keeps_parent).
  by apply aggregate_step_keeps_ring.
Qed.

(** C10. A profiler built with a parent never writes its ring: after any
    calls and any cases of the loop, [Report] is the snapshot of the ring
    [NewCaduceusRing] made.  [Send] only puts a value into the input
    channel.  Inside the loop a profiler with a parent appends each value
    it receives from that channel to its batch.  At each tick it makes
    one stats value of the batch, with its own name, the time of the
    tick, the number of telemetry values of the batch, their tonnage and
    their timing (blank for a batch without telemetry), logs it, and
    sends it to the parent without waiting: the parent's channel holds
    it as its newest value if it had room, and is as it was if it was
    full; the batch is empty after the tick.  A profiler without a
    parent instead adds each value it receives to the ring that [Report]
    reads, and keeps no batch. *)
Theorem profiler_ring_written_only_without_parent :
  (∀ spf nm cp evs,
     New spf nm = inl cp → is_Some (Parent spf) →
     Report (aggregate evs cp) = Snapshot (NewCaduceusRing (Duration spf)))
  ∧ (∀ cp inData,
       data (Send cp inData).1 = data cp
       ∧ Report (Send cp inData).1 = Report cp
       ∧ ((Chan.len (inChan cp) < Chan.cap (inChan cp))%nat →
          Chan.buf (inChan (Send cp inData).1)
          = Chan.buf (inChan cp) ++ [inData]))
  ∧ (∀ cp p inData c',
       parent cp = Some p → at_stage cp = Looping →
       Chan.try_recv (inChan cp) = Some (inData, c') →
       data (aggregate_step SelectData cp) = data cp ++ [inData]
       ∧ parent (aggregate_step SelectData cp) = Some p
       ∧ Report (aggregate_step SelectData cp) = Report cp)
  ∧ (∀ cp p stamp,
       parent cp = Some p → at_stage cp = Looping →
       ∃ cs p',
         parent (aggregate_step (SelectTick stamp) cp) = Some p'
         ∧ Chan.cap p' = Chan.cap p
         ∧ ((Chan.len p < Chan.cap p)%nat →
            Chan.buf p' = Chan.buf p ++ [Stats cs])
         ∧ ((Chan.cap p ≤ Chan.len p)%nat → p' = p)
         ∧ logger (aggregate_step (SelectTick stamp) cp) = logger cp ++ [cs]
         ∧ Name cs = name cp
         ∧ Time cs = stamp
         ∧ EventsSent cs
           = Z.of_nat (length (filterNonTelemetryElements (data cp)))
         ∧ Tonnage cs
           = tonnage_of (telemetry_of (filterNonTelemetryElements (data cp)))
         ∧ (filterNonTelemetryElements (data cp) ≠ [] →
            let tm :=
              timing (telemetry_of (filterNonTelemetryElements (data cp))) in
            ProcessingTimePerc98 cs = processingPerc98 tm
            ∧ ProcessingTimeAvg cs = processingAvg tm
            ∧ LatencyPerc98 cs = latencyPerc98 tm
            ∧ LatencyAvg cs = latencyAvg tm
            ∧ ResponsePerc98 cs = responsePerc98 tm
            ∧ ResponseAvg cs = responseAvg tm)
         ∧ (filterNonTelemetryElements (data cp) = [] →
            ProcessingTimePerc98 cs = "" ∧ ProcessingTimeAvg cs = ""
            ∧ LatencyPerc98 cs = "" ∧ LatencyAvg cs = ""
            ∧ ResponsePerc98 cs = "" ∧ ResponseAvg cs = "")
         ∧ data (aggregate_step (SelectTick stamp) cp) = []
         ∧ Report (aggregate_step (SelectTick stamp) cp) = Report cp)
  ∧ (∀ cp inData c',
       parent cp = None → at_stage cp = Looping →
       Chan.try_recv (inChan cp) = Some (inData, c') →
       Report (aggregate_step SelectData cp)
       = Snapshot (Add (profilerRing cp) inData)
       ∧ data (aggregate_step SelectData cp) = data cp).
Proof.
  split; [| split; [| split; [| split]]].
  - intros spf nm cp evs Hnew Hparent. unfold New in Hnew.
    destruct (_ || _); [done |]. injection Hnew as <-.
    unfold Report. by rewrite aggregate_keeps_ring.
  - intros cp inData. unfold Report, Send. split; [| split].
    + by destruct (Chan.try_send _ _).
    + by destruct (Chan.try_send _ _).
    + intros Hfree. by rewrite try_send_free.
  - intros cp p inData c' Hp Hloop Hrecv.
    unfold Report, aggregate_step. by rewrite Hloop, Hrecv, Hp.
  - intros cp p stamp Hp Hloop.
    exists (process cp stamp (data cp)),
      (send_to_parent p (process cp stamp (data cp))).
    unfold Report, aggregate_step. rewrite Hloop, Hp. cbn.
    split; [done |].
    split; [| split; [| split]].
    + unfold send_to_parent, Chan.try_send, Chan.send.
      by destruct (decide (Chan.len p < Chan.cap p)%nat).
    + intros Hroom. unfold send_to_parent, Chan.try_send, Chan.send.
      by destruct (decide (Chan.len p < Chan.cap p)%nat).
    + intros Hfull. unfold send_to_parent, Chan.try_send, Chan.send.
      destruct (decide (Chan.len p < Chan.cap p)%nat); [lia | done].
    + split; [done |]. unfold process.
      destruct (filterNonTelemetryElements (data cp)) as [|x raw] eqn:Hraw.
      * cbn. by repeat split.
      * assert (Hn : (0 <? Z.of_nat (length (x :: raw))) = true)
          by (apply Z.ltb_lt; cbn [length]; lia).
        rewrite Hn. cbn -[Z.of_nat length telemetry_of tonnage_of].
        by repeat split.
  - intros cp inData c' Hp Hloop Hrecv.
    unfold Report, aggregate_step. by rewrite Hloop, Hrecv, Hp.
Qed.

End ProfilerProperties.

(** A child profiler relaying to a parent: two values arrive, one of them
    telemetry; the tick forwards one stats value counting one event, the
    batch is emptied and the child's own report stays empty.  The same
    traffic without a parent ends in the ring. *)
Example profiler_relays_batch :
  let telemetry :=
    Profiler.Telemetry
      {| Profiler.RawPayloadSize := 13; Profiler.TimeReceived := 0;
         Profiler.TimeOutboundAccepted := 1; Profiler.TimeSent := 2;
         Profiler.TimeResponded := 3 |} in
  let traffic :=
    [Profiler.Begin "t0"; Profiler.CallSend (Profiler.Other "note");
     Profiler.CallSend telemetry; Profiler.SelectData; Profiler.SelectData;
     Profiler.SelectTick "t1"] in
  let run parent :=
    match @Profiler.New Profiler.list_ring
            {| Profiler.Frequency := 10; Profiler.Duration := 6;
               Profiler.QueueSize := 100; Profiler.Parent := parent |}
            "child" with
    | inl cp =>
        Some (@Profiler.aggregate Profiler.list_ring Profiler.blank_format
                traffic cp)
    | inr _ => None
    end in
  (Profiler.Report <$> run (Some (Chan.make 4%nat)) = Some [])
  ∧ (Profiler.data <$> run (Some (Chan.make 4%nat)) = Some [])
  ∧ ((λ cp, (λ p, Profiler.EventsSent <$>
                    Profiler.stats_of (Chan.buf p))
              <$> Profiler.parent cp)
       <$> run (Some (Chan.make 4%nat)) = Some (Some [0; 1]))
  ∧ (Profiler.Report <$> run None = Some [Profiler.Other "note"; telemetry]).
Proof. cbv zeta. repeat split; vm_compute; reflexivity. Qed.

(** ** The registry adapter *)

Section RegistryProperties.
Import Registry.

Lemma as_interface_strings (l : list string) :
  map as_interface (JString <$> l) = JString <$> l.
Proof. induction l as [|s l IH]; [done |]. cbn. by f_equal. Qed.

Lemma json_Marshal_interface_strings (l : list string) :
  map json_Marshal_interface (JString <$> l) = JString <$> l.
Proof. induction l as [|s l IH]; [done |]. cbn. by f_equal. Qed.

Lemma into_slots_strings (l : list string) :
  into_slots [] (JString <$> l) = Some (l, []).
Proof. induction l as [|s l IH]; [done |]. cbn. cbn in IH. by rewrite IH. Qed.

Lemma into_strings_json (l : list string) :
  into_strings [] [] (strings_json l) = Some (l, []).
Proof.
  destruct l as [|s l]; [done |]. apply (into_slots_strings (s :: l)).
Qed.

Lemma into_int64_in_range (old z : Z) :
  - 2 ^ 63 ≤ z < 2 ^ 63 → into_int64 old (JNumber z) = Some z.
Proof.
  intros [Hlo Hhi]. unfold into_int64.
  destruct (Z.leb_spec (- 2 ^ 63) z); [| lia].
  destruct (Z.ltb_spec z (2 ^ 63)); [done | lia].
Qed.

Lemma into_int64_out_of_range (old z : Z) :
  ¬ (- 2 ^ 63 ≤ z < 2 ^ 63) → into_int64 old (JNumber z) = None.
Proof.
  intros Hout. unfold into_int64.
  destruct (Z.leb_spec (- 2 ^ 63) z); [| done].
  destruct (Z.ltb_spec z (2 ^ 63)); [lia | done].
Qed.

Lemma float64_of_int_exact (z : Z) :
  Z.abs z < 2 ^ 53 → float64_of_int z = z.
Proof.
  intros Hz. unfold float64_of_int.
  destruct (Z.ltb_spec (Z.abs z) (2 ^ 53)); [done | lia].
Qed.

(** A float64 is the float64 nearest to itself. *)
Lemma float64_of_int_idemp (z : Z) :
  float64_of_int (float64_of_int z) = float64_of_int z.
Proof.
  destruct (Z.lt_ge_cases (Z.abs z) (2 ^ 53)) as [Hsmall|Hbig].
  { by rewrite !(float64_of_int_exact z). }
  assert (Hval : float64_of_int z
                 = Z.sgn z
                   * ((let e := Z.log2 (Z.abs z) - 52 in
                       let q := Z.abs z / 2 ^ e in
                       let r := Z.abs z mod 2 ^ e in
                       let half := 2 ^ (e - 1) in
                       if (half <? r) || ((half =? r) && Z.odd q)
                       then q + 1 else q)
                      * 2 ^ (Z.log2 (Z.abs z) - 52))).
  { unfold float64_of_int.
    by destruct (Z.ltb_spec (Z.abs z) (2 ^ 53)); [lia |]. }
  rewrite Hval. clear Hval. cbv zeta.
  set (e := Z.log2 (Z.abs z) - 52).
  assert (He : 1 ≤ e).
  { assert (53 ≤ Z.log2 (Z.abs z)) by (apply Z.log2_le_pow2; lia).
    subst e. lia. }
  assert (Hpow : 2 ≤ 2 ^ e)
    by (change 2 with (2 ^ 1) at 1; apply Z.pow_le_mono_r; lia).
  assert (Hq : 2 ^ 52 ≤ Z.abs z / 2 ^ e < 2 ^ 53).
  { pose proof (Z.log2_spec (Z.abs z) ltac:(lia)) as [Hlo Hhi].
    replace (Z.log2 (Z.abs z)) with (52 + e) in Hlo by (subst e; lia).
    replace (Z.succ (Z.log2 (Z.abs z))) with (53 + e) in Hhi by (subst e; lia).
    rewrite Z.pow_add_r in Hlo, Hhi by lia. split.
    - apply Z.div_le_lower_bound; lia.
    - apply Z.div_lt_upper_bound; lia. }
  set (q := Z.abs z / 2 ^ e) in *.
  match goal with
  | |- context [Z.sgn z * (?rounded * 2 ^ e)] => set (q' := rounded)
  end.
  assert (Hq' : 2 ^ 52 ≤ q' ≤ 2 ^ 53) by (subst q'; case_match; lia).
  assert (Hz : Z.sgn z = 1 ∨ Z.sgn z = -1).
  { destruct (Z.lt_trichotomy z 0) as [?|[->|?]];
      [right; by apply Z.sgn_neg | done | left; by apply Z.sgn_pos]. }
  assert (Hpos : 0 < q' * 2 ^ e) by nia.
  assert (Habs : Z.abs (Z.sgn z * (q' * 2 ^ e)) = q' * 2 ^ e).
  { destruct Hz as [-> | ->]; lia. }
  assert (Hsgn : Z.sgn (Z.sgn z * (q' * 2 ^ e)) = Z.sgn z).
  { destruct Hz as [-> | ->];
      [rewrite Z.sgn_pos | rewrite Z.sgn_neg]; lia. }
  unfold float64_of_int. rewrite Habs, Hsgn.
  destruct (Z.ltb_spec (q' * 2 ^ e) (2 ^ 53)); [nia |].
  destruct (decide (q' = 2 ^ 53)) as [Htop|Hbelow].
  - assert (Hlog : Z.log2 (q' * 2 ^ e) = 53 + e).
    { rewrite Htop, <- Z.pow_add_r by lia. apply Z.log2_pow2. lia. }
    rewrite Hlog. replace (53 + e - 52) with (e + 1) by lia.
    rewrite Htop, <- Z.pow_add_r by lia.
    replace (53 + e) with (52 + (e + 1)) by lia.
    rewrite (Z.pow_add_r 2 52 (e + 1)) by lia.
    rewrite Z.div_mul, Z.mod_mul by lia.
    replace (e + 1 - 1) with e by lia.
    destruct (Z.ltb_spec (2 ^ e) 0); [lia |].
    destruct (Z.eqb_spec (2 ^ e) 0); [lia |]. done.
  - assert (Hlog : Z.log2 (q' * 2 ^ e) = 52 + e).
    { apply Z.log2_unique; [lia |].
      rewrite Z.pow_add_r by lia.
      replace (Z.succ (52 + e)) with (53 + e) by lia.
      rewrite Z.pow_add_r by lia. nia. }
    rewrite Hlog. replace (52 + e - 52) with e by lia.
    rewrite Z.div_mul, Z.mod_mul by lia.
    assert (0 < 2 ^ (e - 1)) by (apply Z.pow_pos_nonneg; lia).
    destruct (Z.ltb_spec (2 ^ (e - 1)) 0); [lia |].
    destruct (Z.eqb_spec (2 ^ (e - 1)) 0); [lia |]. done.
Qed.

(** An integer below [2^53] is written with all its digits. *)
Lemma shortest_from_exact (j : nat) (a : Z) :
  0 ≤ a < 2 ^ 53 → shortest_from j a = a.
Proof.
  intros Ha. induction j as [|j IH]; [done |].
  cbn [shortest_from]. cbv zeta.
  set (p := 10 ^ Z.of_nat (S j)).
  assert (Hp : 0 < p) by (subst p; apply Z.pow_pos_nonneg; lia).
  pose proof (Z.mul_div_le a p Hp) as Hdown.
  pose proof (Z.mod_pos_bound a p Hp) as Hmod.
  pose proof (Z.div_mod a p ltac:(lia)) as Hdiv.
  unfold rounds_to.
  destruct (Z.ltb_spec a (2 ^ 53)); [| lia].
  destruct (Z.eqb_spec (a / p * p) a) as [Heq|Hne];
    destruct (Z.eqb_spec (a / p * p + p) a); try lia; done.
Qed.

Lemma json_float64_exact (z : Z) :
  Z.abs z < 2 ^ 53 → json_float64 z = z.
Proof.
  intros Hz. unfold json_float64.
  rewrite shortest_from_exact by lia.
  destruct (Z.abs_spec z) as [[? ->]|[? ->]]; destruct (decide (z = 0)) as [->|];
    rewrite ?Z.sgn_pos, ?Z.sgn_neg by lia; cbn; lia.
Qed.

Lemma rounds_to_refl (a : Z) : 0 ≤ a → rounds_to a a = true.
Proof.
  intros Ha. unfold rounds_to.
  destruct (Z.ltb_spec a (2 ^ 53)); [by apply Z.eqb_eq |].
  assert (53 ≤ Z.log2 a) by (apply Z.log2_le_pow2; lia).
  assert (0 < 2 ^ (Z.log2 a - 52)) by (apply Z.pow_pos_nonneg; lia).
  rewrite !Z.sub_diag.
  destruct (Z.even _), (_ =? 2 ^ 52); apply andb_true_intro; split;
    first [apply Z.leb_le | apply Z.ltb_lt]; lia.
Qed.

Lemma shortest_from_rounds (j : nat) (a : Z) :
  0 ≤ a → rounds_to a (shortest_from j a) = true.
Proof.
  intros Ha. induction j as [|j IH]; [by apply rounds_to_refl |].
  cbn [shortest_from]. cbv zeta.
  destruct (rounds_to a (a / _ * _)) eqn:Hdown,
    (rounds_to a (a / _ * _ + _)) eqn:Hup; try done.
  by case_match.
Qed.

(** A decimal that rounds to a float64 below [2^63] is within 512 of
    it. *)
Lemma rounds_to_near (a c : Z) :
  0 ≤ a < 2 ^ 63 → rounds_to a c = true → Z.abs (c - a) ≤ 512.
Proof.
  intros Ha. unfold rounds_to.
  destruct (Z.ltb_spec a (2 ^ 53)); [intros ?%Z.eqb_eq; lia |].
  assert (Hlog : 53 ≤ Z.log2 a ≤ 62).
  { split; [apply Z.log2_le_pow2; lia |].
    assert (Z.log2 a < 63); [apply Z.log2_lt_pow2; lia | lia]. }
  assert (Hu : 0 < 2 ^ (Z.log2 a - 52) ≤ 2 ^ 10).
  { split; [apply Z.pow_pos_nonneg; lia |].
    apply Z.pow_le_mono_r; lia. }
  set (u := 2 ^ (Z.log2 a - 52)) in *.
  change (2 ^ 10) with 1024 in Hu.
  destruct (Z.even _), (_ =? 2 ^ 52);
    intros [Hlo Hhi]%andb_prop;
    first [apply Z.leb_le in Hlo | apply Z.ltb_lt in Hlo];
    first [apply Z.leb_le in Hhi | apply Z.ltb_lt in Hhi]; lia.
Qed.

Lemma json_float64_near (z : Z) :
  Z.abs z < 2 ^ 63 → Z.abs (json_float64 z - z) ≤ 512.
Proof.
  intros Hz. unfold json_float64.
  pose proof (rounds_to_near (Z.abs z) _ ltac:(lia)
                (shortest_from_rounds
                   (Z.to_nat (Z.log2 (Z.abs z) + 1)) (Z.abs z) ltac:(lia)))
    as Hnear.
  destruct (Z.lt_trichotomy z 0) as [Hneg|[->|Hpos]].
  - rewrite Z.sgn_neg by done. lia.
  - done.
  - rewrite Z.sgn_pos by done. lia.
Qed.

(** The float64 of an [int64]: [2^63] in magnitude from [2^63 - 512] on,
    and at most [2^63 - 1024] below. *)
Lemma float64_of_int_below (d : Z) :
  Z.abs d < 2 ^ 63 - 512 → Z.abs (float64_of_int d) ≤ 2 ^ 63 - 1024.
Proof.
  intros Hd. unfold float64_of_int.
  destruct (Z.ltb_spec (Z.abs d) (2 ^ 53)); [lia |].
  assert (Hlog : 53 ≤ Z.log2 (Z.abs d) ≤ 62).
  { split; [apply Z.log2_le_pow2; lia |].
    assert (Z.log2 (Z.abs d) < 63); [apply Z.log2_lt_pow2; lia | lia]. }
  set (e := Z.log2 (Z.abs d) - 52).
  assert (He : 1 ≤ e ≤ 10) by (subst e; lia).
  assert (Hpow : 0 < 2 ^ e) by (apply Z.pow_pos_nonneg; lia).
  pose proof (Z.log2_spec (Z.abs d) ltac:(lia)) as [Hlo Hhi].
  replace (Z.log2 (Z.abs d)) with (52 + e) in Hlo by (subst e; lia).
  replace (Z.succ (Z.log2 (Z.abs d))) with (53 + e) in Hhi
    by (subst e; lia).
  rewrite Z.pow_add_r in Hlo, Hhi by lia.
  pose proof (Z.div_mod (Z.abs d) (2 ^ e) ltac:(lia)) as Hdiv.
  pose proof (Z.mod_pos_bound (Z.abs d) (2 ^ e) Hpow) as Hmod.
  set (q := Z.abs d / 2 ^ e) in *. set (r := Z.abs d mod 2 ^ e) in *.
  assert (Hq : 2 ^ 52 ≤ q < 2 ^ 53) by nia.
  cbv zeta.
  match goal with
  | |- context [Z.sgn d * (?rounded * 2 ^ e)] => set (q' := rounded)
  end.
  assert (Hbound : 0 ≤ q' * 2 ^ e ≤ 2 ^ 63 - 1024).
  { destruct (decide (e = 10)) as [He10|Hsmall].
    - assert (Hhalf : 2 ^ (e - 1) = 512) by (by rewrite He10).
      assert (Hunit : 2 ^ e = 1024) by (by rewrite He10).
      subst q'. rewrite Hhalf. rewrite Hunit in *.
      destruct (Z.ltb_spec 512 r), (Z.eqb_spec 512 r); cbn [orb andb];
        try lia.
      destruct (Z.odd q) eqn:Hodd; [| lia].
      destruct (decide (q = 2 ^ 53 - 1)); lia.
    - assert (2 ^ e ≤ 2 ^ 9) by (apply Z.pow_le_mono_r; lia).
      assert (q' ≤ 2 ^ 53) by (subst q'; case_match; lia).
      assert (0 ≤ q') by (subst q'; case_match; lia).
      change (2 ^ 9) with 512 in *. nia. }
  destruct (Z.lt_trichotomy d 0) as [Hneg|[->|Hpos]].
  - rewrite Z.sgn_neg by done. lia.
  - lia.
  - rewrite Z.sgn_pos by done. lia.
Qed.

Lemma float64_of_int_top (d : Z) :
  2 ^ 63 - 512 ≤ Z.abs d ≤ 2 ^ 63 → float64_of_int d = Z.sgn d * 2 ^ 63.
Proof.
  intros Hd. unfold float64_of_int.
  destruct (Z.ltb_spec (Z.abs d) (2 ^ 53)); [lia |]. f_equal.
  destruct (decide (Z.abs d = 2 ^ 63)) as [->|Hbelow]; [by vm_compute |].
  assert (Hlog : Z.log2 (Z.abs d) = 62) by (apply Z.log2_unique; lia).
  rewrite Hlog. change (2 ^ (62 - 52)) with 1024.
  change (2 ^ (62 - 52 - 1)) with 512.
  pose proof (Z.div_mod (Z.abs d) 1024 ltac:(lia)) as Hdiv.
  pose proof (Z.mod_pos_bound (Z.abs d) 1024 ltac:(lia)) as Hmod.
  set (q := Z.abs d / 1024) in *. set (r := Z.abs d mod 1024) in *.
  assert (Hq : q = 2 ^ 53 - 1) by lia.
  assert (Hodd : Z.odd q = true) by (by rewrite Hq).
  rewrite Hodd.
  destruct (Z.ltb_spec 512 r), (Z.eqb_spec 512 r); cbn [orb andb]; lia.
Qed.

(** Which [int64] are still an [int64] after they went through the
    float64 of a map and its JSON text. *)
Lemma json_float64_int64 (d : Z) :
  - 2 ^ 63 ≤ d < 2 ^ 63 →
  - 2 ^ 63 ≤ json_float64 (float64_of_int d) < 2 ^ 63
  ↔ - 2 ^ 63 + 512 < d < 2 ^ 63 - 512.
Proof.
  intros Hd. split.
  - intros Hrange.
    destruct (Z.lt_ge_cases (Z.abs d) (2 ^ 63 - 512)) as [|Htop]; [lia |].
    rewrite float64_of_int_top in Hrange by lia.
    destruct (Z.lt_trichotomy d 0) as [Hneg|[->|Hpos]].
    + rewrite Z.sgn_neg in Hrange by done.
      replace (json_float64 (-1 * 2 ^ 63)) with (-9223372036854776000)
        in Hrange by (by vm_compute).
      lia.
    + lia.
    + rewrite Z.sgn_pos in Hrange by done.
      replace (json_float64 (1 * 2 ^ 63)) with 9223372036854776000
        in Hrange by (by vm_compute).
      lia.
  - intros Hinner.
    pose proof (float64_of_int_below d ltac:(lia)) as Hf.
    pose proof (json_float64_near (float64_of_int d) ltac:(lia)) as Hnear.
    lia.
Qed.

Context `{TimeCodec} `{WebhookLib}.

Lemma sorted_members_listener (c f e m d u a : JSON) :
  sorted_members
    [("config", c); ("failure_url", f); ("events", e); ("matcher", m);
     ("duration", d); ("until", u); ("registered_from_address", a)]
  = [("config", c); ("duration", d); ("events", e); ("failure_url", f);
     ("matcher", m); ("registered_from_address", a); ("until", u)].
Proof. reflexivity. Qed.

Lemma sorted_members_config (u c : JSON) (s : list (string * JSON)) :
  s = [] ∨ (∃ v, s = [("secret", v)]) →
  sorted_members ([("url", u); ("content_type", c)] ++ s)
  = [("content_type", c)] ++ s ++ [("url", u)].
Proof. by intros [->|[v ->]]. Qed.

Lemma json_Marshal_map_stored (w : W) data webhook :
  json_Marshal_W w = inl data →
  json_Unmarshal_map data = inl webhook →
  ∃ until,
    time_MarshalJSON (Until w) = Some until
    ∧ json_Marshal_map webhook = inl (stored_document w until).
Proof.
  intros Hmarshal Hmap.
  destruct w as [[url content_type secret] failure_url events [device_id]
                   duration until_t address].
  unfold json_Marshal_W in Hmarshal. cbn in *.
  destruct (time_MarshalJSON until_t) as [until|] eqn:Huntil; [|done].
  injection Hmarshal as <-. exists until. split; [done |].
  unfold json_Unmarshal_map in Hmap. cbn in Hmap.
  rewrite !as_interface_strings in Hmap.
  injection Hmap as <-.
  unfold json_Marshal_map, stored_document, strings_json. f_equal.
  cbn [json_Marshal_interface map].
  rewrite !json_Marshal_interface_strings, float64_of_int_idemp.
  rewrite sorted_members_listener. cbn [config ContentType Secret URL].
  do 3 f_equal.
  replace (map _ (map _ (if decide (secret = "") then _ else _)))
    with (if decide (secret = "") then []
          else [("secret", JString secret)])
    by (by destruct (decide (secret = ""))).
  f_equal.
  apply (sorted_members_config _ _
           (if decide (secret = "") then []
            else [("secret", JString secret)])).
  destruct (decide (secret = "")); eauto.
Qed.

(** A member is decoded into the field its name selects. *)
Lemma into_W_member_config (w : W) (se sd : list string) (v : JSON) :
  into_W_member
    (Some {| hook := w; spare_Events := se; spare_DeviceId := sd |})
    ("config", v)
  = c ← into_Config (config w) v;
    Some {| hook := with_config w c;
            spare_Events := se; spare_DeviceId := sd |}.
Proof. reflexivity. Qed.

Lemma into_W_member_duration (w : W) (se sd : list string) (v : JSON) :
  into_W_member
    (Some {| hook := w; spare_Events := se; spare_DeviceId := sd |})
    ("duration", v)
  = n ← into_int64 (Duration w) v;
    Some {| hook := with_Duration w n;
            spare_Events := se; spare_DeviceId := sd |}.
Proof. reflexivity. Qed.

Lemma into_W_member_events (w : W) (se sd : list string) (v : JSON) :
  into_W_member
    (Some {| hook := w; spare_Events := se; spare_DeviceId := sd |})
    ("events", v)
  = '(l, spare) ← into_strings (Events w) se v;
    Some {| hook := with_Events w l;
            spare_Events := spare; spare_DeviceId := sd |}.
Proof. reflexivity. Qed.

Lemma into_W_member_failure_url (w : W) (se sd : list string) (v : JSON) :
  into_W_member
    (Some {| hook := w; spare_Events := se; spare_DeviceId := sd |})
    ("failure_url", v)
  = s ← into_string (FailureURL w) v;
    Some {| hook := with_FailureURL w s;
            spare_Events := se; spare_DeviceId := sd |}.
Proof. reflexivity. Qed.

Lemma into_W_member_matcher (w : W) (se sd : list string) (v : JSON) :
  into_W_member
    (Some {| hook := w; spare_Events := se; spare_DeviceId := sd |})
    ("matcher", v)
  = '(m, spare) ← into_Matcher (matcher w) sd v;
    Some {| hook := with_matcher w m;
            spare_Events := se; spare_DeviceId := spare |}.
Proof. reflexivity. Qed.

Lemma into_W_member_address (w : W) (se sd : list string) (v : JSON) :
  into_W_member
    (Some {| hook := w; spare_Events := se; spare_DeviceId := sd |})
    ("registered_from_address", v)
  = s ← into_string (Address w) v;
    Some {| hook := with_Address w s;
            spare_Events := se; spare_DeviceId := sd |}.
Proof. reflexivity. Qed.

Lemma into_W_member_until (w : W) (se sd : list string) (v : JSON) :
  into_W_member
    (Some {| hook := w; spare_Events := se; spare_DeviceId := sd |})
    ("until", v)
  = t ← into_time (Until w) v;
    Some {| hook := with_Until w t;
            spare_Events := se; spare_DeviceId := sd |}.
Proof. reflexivity. Qed.

Lemma into_W_member_None (kv : string * JSON) :
  into_W_member None kv = None.
Proof. reflexivity. Qed.

Lemma into_Config_stored (url content_type secret : string) :
  into_Config {| URL := ""; ContentType := ""; Secret := "" |}
    (JObject ([("content_type", JString content_type)]
              ++ (if decide (secret = "") then []
                  else [("secret", JString secret)])
              ++ [("url", JString url)]))
  = Some {| URL := url; ContentType := content_type; Secret := secret |}.
Proof. by destruct (decide (secret = "")) as [->|]. Qed.

Lemma into_Matcher_stored (device_id : list string) :
  into_Matcher {| DeviceId := [] |} []
    (JObject [("device_id", strings_json device_id)])
  = Some ({| DeviceId := device_id |}, []).
Proof.
  change (into_Matcher {| DeviceId := [] |} []
            (JObject [("device_id", strings_json device_id)]))
    with ('(ids, spare) ← into_strings [] [] (strings_json device_id);
          Some ({| DeviceId := ids |}, spare)).
  by rewrite into_strings_json.
Qed.

Lemma json_Unmarshal_W_stored (w : W) (until : string) :
  time_MarshalJSON (Until w) = Some until →
  json_Unmarshal_W (stored_document w until)
  = match into_int64 0 (JNumber (json_float64 (float64_of_int (Duration w))))
    with
    | Some d => inl (with_Duration w d)
    | None => inr json_Unmarshal_error
    end.
Proof.
  intros Huntil.
  destruct w as [[url content_type secret] failure_url events [device_id]
                   duration until_t address].
  cbn [Until Duration] in *.
  unfold json_Unmarshal_W, stored_document.
  cbn [foldl config ContentType Secret URL Duration Events FailureURL
       matcher DeviceId Address].
  unfold zero_W.
  rewrite into_W_member_config. cbn [config].
  rewrite into_Config_stored. cbn [mbind option_bind].
  rewrite into_W_member_duration. cbn [Duration with_config].
  destruct (into_int64 0 _) as [d|] eqn:Hd; cbn [mbind option_bind].
  2: { by rewrite !into_W_member_None. }
  rewrite into_W_member_events. cbn [Events with_Duration].
  rewrite into_strings_json. cbn [mbind option_bind].
  rewrite into_W_member_failure_url.
  cbn [FailureURL with_Events into_string mbind option_bind].
  rewrite into_W_member_matcher. cbn [matcher with_FailureURL].
  rewrite into_Matcher_stored. cbn [mbind option_bind].
  rewrite into_W_member_address.
  cbn [Address with_matcher into_string mbind option_bind].
  rewrite into_W_member_until. cbn [Until with_Address into_time].
  rewrite (time_roundtrip _ _ Huntil). reflexivity.
Qed.

(** What the store holds for a listener decodes to the listener with
    its [Duration] as the float64 of the map is written, if that is still
    an [int64], and does not decode otherwise. *)
Lemma convertItemToWebhook_stored (w : W) data webhook id ttl :
  json_Marshal_W w = inl data →
  json_Unmarshal_map data = inl webhook →
  convertItemToWebhook {| Identifier := id; Data := webhook; TTL := ttl |}
  = match into_int64 0 (JNumber (json_float64 (float64_of_int (Duration w))))
    with
    | Some d => inl (with_Duration w d)
    | None => inr json_Unmarshal_error
    end.
Proof.
  intros Hmarshal Hmap.
  destruct (json_Marshal_map_stored w data webhook Hmarshal Hmap)
    as (until & Huntil & Hdoc).
  unfold convertItemToWebhook. cbn [Data]. rewrite Hdoc.
  apply (json_Unmarshal_W_stored w until Huntil).
Qed.






End RegistryProperties.

Section RegistryRoundTrip.
Import Registry.
Context `{TimeCodec} `{WebhookLib}.

Lemma UpdateRegistry_stored (r : Registry) (req : Request) (w : W) :
  NewW (Body req) (RemoteAddr req) = inl w →
  code (UpdateRegistry r req).2 = StatusOK →
  ∃ data webhook,
    json_Marshal_W w = inl data
    ∧ json_Unmarshal_map data = inl webhook
    ∧ items (hookStore (UpdateRegistry r req).1) !! ID w
      = Some {| Identifier := ID w; Data := webhook; TTL := DefaultTTL r |}.
Proof.
  intros Hnew Hcode. unfold UpdateRegistry in *. rewrite Hnew in *.
  destruct (json_Marshal_W w) as [data|err] eqn:Hmarshal;
    [| by vm_compute in Hcode].
  destruct (json_Unmarshal_map data) as [webhook|err] eqn:Hmap;
    [| by vm_compute in Hcode].
  exists data, webhook. split; [done |]. split; [done |].
  unfold Push in *.
  destruct (reachable (hookStore r)); [| by vm_compute in Hcode].
  cbn. by rewrite lookup_insert_eq.
Qed.


End RegistryRoundTrip.

(** *** A run of the adapter

    A time codec that writes an instant in decimal, and a webhook library
    that accepts every non-empty payload as the URL of a listener for
    [iot] events, with the Duration it is set up for. *)
Lemma decimal_roundtrip (t : N) (s : string) :
  Some (NilEmpty.string_of_uint (N.to_uint t)) = Some s →
  N.of_uint <$> NilEmpty.uint_of_string s = Some t.
Proof.
  intros [= <-]. rewrite NilEmpty.usu. cbn. f_equal.
  apply DecimalN.Unsigned.of_to.
Qed.

Definition decimal_time : Registry.TimeCodec :=
  {| Registry.time_MarshalJSON :=
       λ t, Some (NilEmpty.string_of_uint (N.to_uint t));
     Registry.time_UnmarshalJSON :=
       λ s, N.of_uint <$> NilEmpty.uint_of_string s;
     Registry.time_roundtrip := decimal_roundtrip;
     Registry.time_unmarshal_marshals := λ s t _, ex_intro _ _ eq_refl;
     Registry.time_zero_marshals := ex_intro _ _ eq_refl |}.

Definition lasting_hook (duration : Z) (url address : string)
  : Registry.W :=
  {| Registry.config :=
       {| Registry.URL := url; Registry.ContentType := "application/json";
          Registry.Secret := "" |};
     Registry.FailureURL := "";
     Registry.Events := ["iot"];
     Registry.matcher := {| Registry.DeviceId := [".*"] |};
     Registry.Duration := duration;
     Registry.Until := 1000%N;
     Registry.Address := address |}.

Definition lasting_webhooks (duration : Z) : Registry.WebhookLib :=
  {| Registry.NewW := λ payload ip,
       if decide (payload = "") then inr "invalid Config URL"
       else inl (lasting_hook duration payload ip);
     Registry.ID := λ w, Registry.URL (Registry.config w) |}.

(** Five minutes, in nanoseconds. *)
Definition sample_hook : string → string → Registry.W :=
  lasting_hook 300000000000.

Definition sample_webhooks : Registry.WebhookLib :=
  lasting_webhooks 300000000000.

Definition sample_registry : Registry.Registry :=
  {| Registry.hookStore :=
       {| Registry.reachable := true; Registry.items := ∅ |};
     Registry.DefaultTTL := 300 |}.

Definition sample_registration : Registry.Request :=
  {| Registry.Body := "http://localhost:9999/foo";
     Registry.RemoteAddr := "10.0.0.7" |}.



(** The float64 a map holds for an integer: exact up to [2^53], rounded
    to even beyond; and the integer its JSON text denotes: the float64
    itself up to [2^53], the decimal of fewest digits beyond, which is
    out of [int64] at both ends. *)
Example float64_of_int_rounds :
  Registry.float64_of_int (2 ^ 53 + 1) = 2 ^ 53
  ∧ Registry.float64_of_int (2 ^ 53 + 3) = 2 ^ 53 + 4
  ∧ Registry.float64_of_int (- (2 ^ 53 + 3)) = - (2 ^ 53 + 4)
  ∧ Registry.float64_of_int 300000000000 = 300000000000
  ∧ Registry.float64_of_int (2 ^ 63 - 1) = 2 ^ 63
  ∧ Registry.json_float64 300000000000 = 300000000000
  ∧ Registry.json_float64 (2 ^ 53) = 9007199254740992
  ∧ Registry.json_float64 (2 ^ 60) = 1152921504606847000
  ∧ Registry.json_float64 (2 ^ 63 - 1024) = 9223372036854775000
  ∧ Registry.json_float64 (2 ^ 63) = 9223372036854776000
  ∧ Registry.json_float64 (- 2 ^ 63) = - 9223372036854776000
  ∧ Registry.into_int64 0
      (Registry.JNumber
         (Registry.json_float64 (Registry.float64_of_int (- 2 ^ 63))))
    = None.
Proof. by vm_compute. Qed.

(** The sample registration is listed by the next [GetRegistry].  An
    item of the store with two spellings of a member decodes to the one
    that comes later in the order of the names, and a [null] in an array
    leaves in its slot what an earlier spelling put there. *)
Example sample_registration_listed :
  let stored :=
    (@Registry.UpdateRegistry decimal_time sample_webhooks
       sample_registry sample_registration).1 in
  let spelled :=
    {| Registry.Identifier := "spelled";
       Registry.Data :=
         [("config",
           Registry.JObject
             [("Url", Registry.JString "http://mixed");
              ("URL", Registry.JString "http://upper")]);
          ("EVENTS",
           Registry.JArray
             [Registry.JString "a"; Registry.JString "b";
              Registry.JString "c"]);
          ("Events", Registry.JArray [Registry.JString "x"]);
          ("events", Registry.JArray [Registry.JNull; Registry.JNull])];
       Registry.TTL := 300 |} in
  Registry.payload (@Registry.GetRegistry decimal_time stored)
  = Registry.Listeners
      [{| Registry.l_URL := "http://localhost:9999/foo";
          Registry.l_ContentType := "application/json";
          Registry.l_FailureURL := "";
          Registry.l_Events := ["iot"];
          Registry.l_Matcher := {| Registry.DeviceId := [".*"] |};
          Registry.l_Until := 1000%N;
          Registry.l_LastRegistration := "10.0.0.7" |}]
  ∧ @Registry.convertItemToWebhook decimal_time spelled
    = inl {| Registry.config :=
               {| Registry.URL := "http://mixed";
                  Registry.ContentType := ""; Registry.Secret := "" |};
             Registry.FailureURL := "";
             Registry.Events := ["x"; "b"];
             Registry.matcher := {| Registry.DeviceId := [] |};
             Registry.Duration := 0;
             Registry.Until := 0%N;
             Registry.Address := "" |}.
Proof. by vm_compute. Qed.

(** ** The outbound sender *)

Section SenderProperties.
Import Outbound.
Context `{RegexpLib}.

Lemma Extend_deliverUntil (t : N) (s : OutboundSender) :
  deliverUntil (Extend t s) = N.max (deliverUntil s) t.
Proof.
  unfold Extend. destruct (N.ltb_spec (deliverUntil s) t); cbn; lia.
Qed.

Lemma Extend_all_deliverUntil (ts : list N) (s : OutboundSender) :
  (deliverUntil s ≤ deliverUntil (foldl (λ s t, Extend t s) s ts))%N.
Proof.
  revert s. induction ts as [|t ts IH]; intros s; cbn; [lia |].
  etransitivity; [| apply IH]. rewrite Extend_deliverUntil. lia.
Qed.

(** C6. [Extend t] sets [deliverUntil] to [t], and nothing else, when [t]
    is later than [deliverUntil]; otherwise it leaves the sender as it is,
    in particular at the zero time; so [deliverUntil] never decreases
    along any sequence of [Extend] calls. *)
Theorem Extend_only_forward (s : OutboundSender) (t : N) :
  ((deliverUntil s < t)%N → Extend t s = with_deliverUntil t s
                             ∧ deliverUntil (Extend t s) = t)
  ∧ ((t ≤ deliverUntil s)%N → Extend t s = s)
  ∧ Extend 0 s = s
  ∧ (∀ ts : list N,
       (deliverUntil s ≤ deliverUntil (foldl (λ s t, Extend t s) s ts))%N).
Proof.
  split; [| split; [| split]].
  - intros Hlater. unfold Extend.
    destruct (N.ltb_spec (deliverUntil s) t); [done | lia].
  - intros Hnot. unfold Extend.
    destruct (N.ltb_spec (deliverUntil s) t); [lia | done].
  - unfold Extend. destruct (N.ltb_spec (deliverUntil s) 0); [lia | done].
  - intros ts. apply Extend_all_deliverUntil.
Qed.

(** *** Dispatch *)

Lemma queueOverflow_keeps_jobs (now : N) (s : OutboundSender) :
  queue (queueOverflow now s) = queue s
  ∧ delivered (queueOverflow now s) = delivered s
  ∧ deliverUntil (queueOverflow now s) = deliverUntil s
  ∧ matcher (queueOverflow now s) = matcher s.
Proof. unfold queueOverflow. by repeat case_match. Qed.

(** What [Queue] does to the queue: the job is appended when the sender
    admits it, and nothing changes otherwise; a POST is never made. *)
Lemma Queue_admits (now : N) (job : Job) (s : OutboundSender) :
  Chan.buf (queue (Queue now job s))
  = (if admits s now job then Chan.buf (queue s) ++ [job]
     else Chan.buf (queue s))
  ∧ delivered (Queue now job s) = delivered s.
Proof.
  unfold Queue, admits.
  destruct (deliverUntil s <? now)%N; [done |].
  destruct (Accept (matcher s) (event job) (deviceID job)); [| done].
  cbn [negb andb].
  destruct (decide (Chan.len (queue s) < Chan.cap (queue s))%nat) as [Hfree|Hfull].
  - rewrite (try_send_free _ _ Hfree), bool_decide_eq_true_2 by done. done.
  - rewrite try_send_full, bool_decide_eq_false_2 by (done || lia).
    destruct (queueOverflow_keeps_jobs now s) as (-> & -> & _). done.
Qed.

(** A worker's turn moves the oldest queued job to the POSTs, or drops it
    when [deliverUntil] has passed. *)
Lemma work_head (now : N) (job : Job) (rest : list Job) (s : OutboundSender) :
  Chan.buf (queue s) = job :: rest →
  Chan.buf (queue (work now s)) = rest
  ∧ delivered (work now s)
    = (if (deliverUntil s <? now)%N then delivered s
       else delivered s ++ [job]).
Proof.
  intros Hbuf. unfold work, Chan.try_recv. rewrite Hbuf.
  by destruct (deliverUntil s <? now)%N.
Qed.

Lemma work_idle (now : N) (s : OutboundSender) :
  Chan.buf (queue s) = [] → work now s = s.
Proof. intros Hbuf. unfold work, Chan.try_recv. by rewrite Hbuf. Qed.

(** Jobs POSTed or still queued after an action were POSTed or queued
    before it, or admitted by it; their order is kept. *)
Lemma act_in_flight (a : action) (s : OutboundSender) :
  delivered (act a s) ++ Chan.buf (queue (act a s))
  `sublist_of`
  (delivered s ++ Chan.buf (queue s))
  ++ match a with
     | Enqueue now job => if admits s now job then [job] else []
     | _ => []
     end.
Proof.
  destruct a as [now job|now|t]; cbn [act].
  - destruct (Queue_admits now job s) as [-> ->].
    destruct (admits s now job); by rewrite ?app_nil_r, ?app_assoc.
  - rewrite app_nil_r.
    destruct (Chan.buf (queue s)) as [|job rest] eqn:Hbuf.
    + by rewrite (work_idle _ _ Hbuf), Hbuf.
    + destruct (work_head now job rest s Hbuf) as [-> ->].
      destruct (deliverUntil s <? now)%N.
      * apply sublist_app; [done |]. by apply sublist_cons.
      * by rewrite <- app_assoc.
  - rewrite app_nil_r. unfold Extend.
    by destruct (deliverUntil s <? t)%N.
Qed.

Lemma run_in_flight (acts : list action) (s : OutboundSender) :
  delivered (run acts s) ++ Chan.buf (queue (run acts s))
  `sublist_of` (delivered s ++ Chan.buf (queue s)) ++ admitted acts s.
Proof.
  revert s. induction acts as [|a acts IH]; intros s.
  - cbn. by rewrite app_nil_r.
  - unfold run in *. cbn [foldl admitted].
    etransitivity; [apply IH |].
    rewrite (app_assoc _ _ (admitted acts (act a s))).
    apply sublist_app; [apply act_in_flight | done].
Qed.

End SenderProperties.

Section Dispatch.
Import Outbound.
Context `{RegexpLib}.

Lemma admits_spec (s : OutboundSender) (now : N) (job : Job) :
  admits s now job = true
  ↔ Accept (matcher s) (event job) (deviceID job) = true
    ∧ (now ≤ deliverUntil s)%N
    ∧ (Chan.len (queue s) < Chan.cap (queue s))%nat.
Proof.
  unfold admits. rewrite !andb_true_iff, negb_true_iff, N.ltb_ge.
  rewrite bool_decide_eq_true. tauto.
Qed.

(** C1, amended. [Queue] puts a job on the listener's queue exactly when
    the matcher accepts its event and device, the instant of the call is
    not after [deliverUntil], and the queue has a free slot; otherwise the
    job is dropped, and [Queue] itself never POSTs.  A worker POSTs the
    oldest queued job unless [deliverUntil] has passed when it takes it.
    Along any run, the jobs POSTed or still queued are, in order, among
    those in flight before and those admitted: no dropped job is POSTed. *)
Theorem Queue_dispatches_admitted_jobs (s : OutboundSender) :
  (∀ now job,
     (admits s now job = true
      ↔ Accept (matcher s) (event job) (deviceID job) = true
        ∧ (now ≤ deliverUntil s)%N
        ∧ (Chan.len (queue s) < Chan.cap (queue s))%nat)
     ∧ Chan.buf (queue (Queue now job s))
       = (if admits s now job then Chan.buf (queue s) ++ [job]
          else Chan.buf (queue s))
     ∧ delivered (Queue now job s) = delivered s)
  ∧ (∀ now job rest,
       Chan.buf (queue s) = job :: rest →
       Chan.buf (queue (work now s)) = rest
       ∧ delivered (work now s)
         = (if (deliverUntil s <? now)%N then delivered s
            else delivered s ++ [job]))
  ∧ (∀ acts,
       delivered (run acts s) ++ Chan.buf (queue (run acts s))
       `sublist_of`
       (delivered s ++ Chan.buf (queue s)) ++ admitted acts s).
Proof.
  split; [| split].
  - intros now job. split; [apply admits_spec | apply Queue_admits].
  - intros now job rest. apply work_head.
  - intros acts. apply run_in_flight.
Qed.

(** *** The failure-URL rate limit *)

Lemma spaced_snoc (period : Z) (ns : list Notice) (n : Notice) :
  spaced period ns →
  Forall (λ m, Z.of_N (notice_at m) + period ≤ Z.of_N (notice_at n)) ns →
  spaced period (ns ++ [n]).
Proof.
  induction ns as [|m ns IH]; intros Hsp Hall; cbn; [by split |].
  destruct Hsp as [Hlater Hsp]. apply Forall_cons in Hall as [Hm Hall].
  split; [| by apply IH].
  apply Forall_app. split; [done |]. by apply Forall_singleton.
Qed.

Lemma in_window_later (t : N) (period : Z) (n : Notice) (ns : list Notice) :
  (t ≤ notice_at n)%N →
  Forall (λ m, Z.of_N (notice_at n) + period ≤ Z.of_N (notice_at m)) ns →
  in_window t period ns = [].
Proof.
  intros Ht Hall. unfold in_window.
  induction ns as [|m ns IH]; [done |].
  apply Forall_cons in Hall as [Hm Hall]. cbn.
  destruct (Z.ltb_spec (Z.of_N (notice_at m)) (Z.of_N t + period)); [lia |].
  rewrite andb_false_r. by apply IH.
Qed.

Lemma spaced_window (t : N) (period : Z) (ns : list Notice) :
  spaced period ns → (length (in_window t period ns) ≤ 1)%nat.
Proof.
  induction ns as [|n ns IH]; intros Hsp; cbn; [lia |].
  destruct Hsp as [Hlater Hsp].
  destruct (N.leb_spec t (notice_at n)) as [Ht|Ht]; cbn [andb].
  - destruct (_ <? _); [| by apply IH].
    cbn. fold (in_window t period ns).
    rewrite (in_window_later t period n ns Ht Hlater). cbn. lia.
  - by apply IH.
Qed.

(** The rate limit as an invariant of the sender: the notifications are
    spaced by the cut-off period, and none is later than [lastCutOff]. *)
Definition rate_limited (s : OutboundSender) : Prop :=
  0 < cutOffPeriod s
  ∧ spaced (cutOffPeriod s) (notices s)
  ∧ match lastCutOff s with
    | None => notices s = []
    | Some last => Forall (λ n, (notice_at n ≤ last)%N) (notices s)
    end.

Lemma queueOverflow_rate_limited (now : N) (s : OutboundSender) :
  rate_limited s → rate_limited (queueOverflow now s).
Proof.
  intros (Hpos & Hsp & Hlast). unfold queueOverflow.
  destruct (String.eqb _ _); [done |].
  destruct (lastCutOff s) as [last|] eqn:Hl.
  - destruct (Z.ltb_spec (Z.of_N now) (Z.of_N last + cutOffPeriod s))
      as [Hsoon|Hdue].
    + unfold rate_limited. by rewrite Hl.
    + unfold rate_limited. cbn. split; [done |]. split.
      * apply spaced_snoc; [done |].
        eapply Forall_impl; [exact Hlast |]. cbn. intros n Hn. lia.
      * apply Forall_app. split; [| by apply Forall_singleton].
        eapply Forall_impl; [exact Hlast |]. cbn. intros n Hn. lia.
  - unfold rate_limited. cbn. rewrite Hlast. cbn.
    split; [done |]. split; [by split |]. by apply Forall_singleton.
Qed.

Lemma act_rate_limited (a : action) (s : OutboundSender) :
  rate_limited s → rate_limited (act a s).
Proof.
  intros Hs. destruct a as [now job|now|t]; cbn [act].
  - unfold Queue. repeat case_match; try done.
    by apply queueOverflow_rate_limited.
  - unfold work. by repeat case_match.
  - unfold Extend. by case_match.
Qed.

Lemma run_rate_limited (acts : list action) (s : OutboundSender) :
  rate_limited s → rate_limited (run acts s).
Proof.
  revert s. induction acts as [|a acts IH]; intros s Hs; [done |].
  unfold run in *. cbn [foldl]. by apply IH, act_rate_limited.
Qed.

Lemma act_keeps_cutOffPeriod (a : action) (s : OutboundSender) :
  cutOffPeriod (act a s) = cutOffPeriod s.
Proof.
  destruct a as [now job|now|t]; cbn [act].
  - unfold Queue, queueOverflow. by repeat case_match.
  - unfold work. by repeat case_match.
  - unfold Extend. by case_match.
Qed.

Lemma run_keeps_cutOffPeriod (acts : list action) (s : OutboundSender) :
  cutOffPeriod (run acts s) = cutOffPeriod s.
Proof.
  revert s. induction acts as [|a acts IH]; intros s; [done |].
  unfold run in *. cbn [foldl]. by rewrite IH, act_keeps_cutOffPeriod.
Qed.

Lemma New_rate_limited (f : OutboundSenderFactory) (s : OutboundSender) :
  New f = inl s → rate_limited s ∧ cutOffPeriod s = CutOffPeriod f.
Proof.
  unfold New. intros Hnew.
  repeat case_match; simplify_eq. unfold rate_limited. cbn.
  split; [| done]. split; [lia | done].
Qed.

(** C4. For a sender that [New] built, whatever is queued, worked and
    extended afterwards and at whatever instants: among the POSTs to the
    failure URL at most one falls into any window of length
    [CutOffPeriod] (from [t] up to, not including, [t + CutOffPeriod]).
    The limit withholds nothing else: an overflow posts its notification
    when none was posted yet, or when the last one is at least
    [CutOffPeriod] old. *)
Theorem failure_notifications_rate_limited
    (f : OutboundSenderFactory) (s : OutboundSender) (acts : list action) :
  New f = inl s →
  (∀ t : N,
     (length (in_window t (CutOffPeriod f) (notices (run acts s))) ≤ 1)%nat)
  ∧ (∀ now : N,
       FailureURL (listener (run acts s)) ≠ "" →
       match lastCutOff (run acts s) with
       | Some last => Z.of_N last + CutOffPeriod f ≤ Z.of_N now
       | None => True
       end →
       notices (queueOverflow now (run acts s))
       = notices (run acts s)
         ++ [{| notice_url := FailureURL (listener (run acts s));
                notice_about := URL (listener (run acts s));
                notice_at := now;
                notice_signed_with :=
                  key_of (Secret (listener (run acts s))) |}]).
Proof.
  intros Hnew. destruct (New_rate_limited f s Hnew) as [Hinv Hperiod].
  split.
  - intros t. rewrite <- Hperiod, <- (run_keeps_cutOffPeriod acts s).
    apply spaced_window. by apply run_rate_limited.
  - intros now Hurl Hdue. unfold queueOverflow.
    rewrite run_keeps_cutOffPeriod, Hperiod.
    apply String.eqb_neq in Hurl. rewrite Hurl.
    destruct (lastCutOff (run acts s)) as [last|]; [| done].
    destruct (Z.ltb_spec (Z.of_N now) (Z.of_N last + CutOffPeriod f));
      [lia | done].
Qed.

End Dispatch.

(** *** The sender tests, replayed *)

Section Replay.
Import Outbound.

(** The sender of a factory after the given actions, when [New] succeeds. *)
Definition replay (f : OutboundSenderFactory) (acts : list action)
  : option (@OutboundSender literal_regexps) :=
  match @New literal_regexps f with
  | inl obs => Some (@run literal_regexps acts obs)
  | inr _ => None
  end.

Definition device_ids (ids : list string) : gmap string (list string) :=
  {[ "device_id" := ids ]}.

(** TestSimpleJSON: of [iot], [test] and [no-match], two are POSTed. *)
Example TestSimpleJSON :
  (λ obs, length (delivered obs))
  <$> replay (simpleSetup second ∅)
        [Enqueue 0 (simpleJSONRequest "iot" "mac:112233445566" "1234");
         Enqueue 0 (simpleJSONRequest "test" "mac:112233445566" "1234");
         Enqueue 0 (simpleJSONRequest "no-match" "mac:112233445566" "1234");
         Work 1; Work 1; Work 1]
  = Some 2%nat.
Proof. by vm_compute. Qed.

(** TestSimpleJSONWithMatchers and TestSimpleJSONWithWildcardMatchers. *)
Example TestSimpleJSONWithMatchers :
  let jobs :=
    [Enqueue 0 (simpleJSONRequest "iot" "mac:112233445565" "1234");
     Enqueue 0 (simpleJSONRequest "test" "mac:112233445566" "1234");
     Enqueue 0 (simpleJSONRequest "iot" "mac:112233445560" "1234");
     Enqueue 0 (simpleJSONRequest "test" "mac:112233445560" "1234");
     Work 1; Work 1; Work 1; Work 1] in
  (λ obs, length (delivered obs))
  <$> replay (simpleSetup second
                (device_ids ["mac:112233445566"; "mac:112233445565"])) jobs
  = Some 2%nat
  ∧ (λ obs, length (delivered obs))
    <$> replay (simpleSetup second (device_ids ["mac:112233445566"; ".*"]))
          jobs
    = Some 4%nat.
Proof. by vm_compute. Qed.

(** TestInvalidMatchRegex, TestInvalidCutOffPeriod, TestInvalidEventRegex,
    TestInvalidUrl, TestInvalidClient, TestInvalidLogger, TestFailureURL
    and TestInvalidEvents: no sender is built. *)
Example TestInvalidFactories :
  let base := simpleSetup second ∅ in
  let l := Listener_ base in
  let with_listener l' :=
    {| Listener_ := l'; Client := Client base;
       CutOffPeriod := CutOffPeriod base; NumWorkers := NumWorkers base;
       QueueSize := QueueSize base; Logger := Logger base |} in
  let relisten url events failure :=
    with_listener
      {| URL := url; ContentType := ContentType l; Secret := Secret l;
         Events := events; Matchers := Matchers l; Until := Until l;
         FailureURL := failure; Address := Address l |} in
  Forall (λ f, replay f [] = None)
    [simpleSetup second (device_ids ["[[:112233445566"]);
     simpleSetup 0 ∅;
     relisten "http://localhost:9999/foo" ["[[:123"] "";
     relisten "invalid" ["iot"] "";
     relisten "" ["iot"] "";
     {| Listener_ := l; Client := None; CutOffPeriod := second;
        NumWorkers := 10; QueueSize := 10; Logger := Logger base |};
     {| Listener_ := l; Client := Client base; CutOffPeriod := second;
        NumWorkers := 10; QueueSize := 10; Logger := None |};
     relisten "http://localhost:9999/foo" ["iot"] "invalid";
     relisten "http://localhost:9999/foo" [] "";
     relisten "http://localhost:9999/foo" ["iot(.*"] ""]
  ∧ is_Some (replay base []).
Proof. cbv zeta. split; [repeat constructor | by eexists]. Qed.

(** TestExtend: the zero time changes nothing, ten seconds more do. *)
Example TestExtend :
  let now := Until (Listener_ (simpleSetup second ∅)) in
  deliverUntil <$> replay (simpleSetup second ∅) [] = Some now
  ∧ deliverUntil <$> replay (simpleSetup second ∅) [Extended 0] = Some now
  ∧ deliverUntil
    <$> replay (simpleSetup second ∅)
          [Extended 0; Extended (now + Z.to_N (10 * second))]
    = Some (now + Z.to_N (10 * second))%N.
Proof. by vm_compute. Qed.

(** TestOverflow: a queue of two and one worker.  Two jobs are queued and
    the worker takes the first; of three more, one fits and two overflow;
    one notification goes to the failure URL and the log has one line. *)
Example TestOverflow :
  let job := simpleJSONRequest "iot" "mac:112233445565" in
  (λ obs, (log obs, transactionID <$> delivered obs,
           transactionID <$> Chan.buf (queue obs)))
  <$> replay overflow_factory
        [Enqueue 0 (job "01234"); Enqueue 0 (job "01235"); Work 1;
         Enqueue (Z.to_N second) (job "01236");
         Enqueue (Z.to_N second) (job "01237");
         Enqueue (Z.to_N second) (job "01238")]
  = Some ([CutOffNotification "http://localhost:12345/bar"],
          ["01234"], ["01235"; "01236"]).
Proof. by vm_compute. Qed.

End Replay.

(** C1, as stated, fails on a full queue: with the queue of two of
    [TestOverflow] filled, a third [iot] job arrives before [deliverUntil]
    and is accepted by the matcher, yet it is never POSTed, however long
    the worker goes on. *)
Lemma Queue_full_drops_accepted_job :
  let job := Outbound.simpleJSONRequest "iot" "mac:112233445565" in
  match replay Outbound.overflow_factory
          [Outbound.Enqueue 0 (job "01234");
           Outbound.Enqueue 0 (job "01235")] with
  | Some full =>
      let final :=
        Outbound.run
          [Outbound.Enqueue 1 (job "01236"); Outbound.Work 2;
           Outbound.Work 2; Outbound.Work 2] full in
      ¬ (job "01236" ∈ Outbound.delivered final
         ↔ Outbound.Accept (Outbound.matcher full)
             (Outbound.event (job "01236"))
             (Outbound.deviceID (job "01236")) = true
           ∧ (1 ≤ Outbound.deliverUntil full)%N)
  | None => False
  end.
Proof.
  vm_compute replay. cbv zeta. intros [_ Hposted].
  assert (Hin : Outbound.simpleJSONRequest "iot" "mac:112233445565" "01236"
                ∈ [Outbound.simpleJSONRequest "iot" "mac:112233445565" "01234";
                   Outbound.simpleJSONRequest "iot" "mac:112233445565" "01235"]).
  { apply Hposted. split; [by vm_compute | by vm_compute]. }
  rewrite !elem_of_cons in Hin.
  destruct Hin as [Hin|[Hin|Hin]]; [discriminate Hin.. | by inversion Hin].
Qed.

Lemma failure_notifications_rate_limited_witness :
  (length
     (Outbound.in_window 0 (4 * Outbound.second)
        (Outbound.notices
           (Outbound.run
              [Outbound.Enqueue 0
                 (Outbound.simpleJSONRequest "iot" "mac:112233445565" "01234");
               Outbound.Enqueue 0
                 (Outbound.simpleJSONRequest "iot" "mac:112233445565" "01235");
               Outbound.Enqueue 1
                 (Outbound.simpleJSONRequest "iot" "mac:112233445565" "01236");
               Outbound.Enqueue 2
                 (Outbound.simpleJSONRequest "iot" "mac:112233445565" "01237")]
              Outbound.overflow_sender))) ≤ 1)%nat.
Proof.
  exact (proj1 (@failure_notifications_rate_limited Outbound.literal_regexps
                  Outbound.overflow_factory Outbound.overflow_sender _
                  eq_refl) 0%N).
Defined.

(** *** Construction *)

Section Construction.
Import Outbound.
Context `{RegexpLib}.

Lemma valid_url_empty : valid_url "" = false.
Proof. reflexivity. Qed.

Lemma compile_matcher_Some (l : Listener) (m : Matcher) :
  compile_matcher l = Some m →
  Forall (λ e, is_Some (Compile e)) (Events l)
  ∧ Forall (λ d, is_Some (Compile d))
      (default [] (Matchers l !! "device_id")).
Proof.
  unfold compile_matcher. intros Hm.
  apply bind_Some in Hm as (evs & Hevs & Hm).
  apply bind_Some in Hm as (ids & Hids & _).
  split; apply (mapM_is_Some_1 Compile); eauto.
Qed.

(** What a factory satisfies when [New] builds a sender from it. *)
Lemma New_inl_valid (f : OutboundSenderFactory) (s : OutboundSender) :
  New f = inl s →
  valid_url (URL (Listener_ f)) = true
  ∧ Client f ≠ None
  ∧ 0 < CutOffPeriod f
  ∧ Logger f ≠ None
  ∧ (FailureURL (Listener_ f) = "" ∨ valid_url (FailureURL (Listener_ f)) = true)
  ∧ Events (Listener_ f) ≠ []
  ∧ Forall (λ e, is_Some (Compile e)) (Events (Listener_ f))
  ∧ Forall (λ d, is_Some (Compile d))
      (default [] (Matchers (Listener_ f) !! "device_id")).
Proof.
  unfold New. intros Hnew.
  destruct (valid_url (URL (Listener_ f))) eqn:Hurl; [| done]. cbn in Hnew.
  destruct (bool_decide (Client f = None)) eqn:Hclient; [done |].
  destruct (Z.leb_spec (CutOffPeriod f) 0) as [|Hperiod]; [done |].
  destruct (bool_decide (Logger f = None)) eqn:Hlogger; [done |].
  destruct (negb (String.eqb (FailureURL (Listener_ f)) "")
            && negb (valid_url (FailureURL (Listener_ f)))) eqn:Hfailure;
    [done |].
  destruct (bool_decide (Events (Listener_ f) = [])) eqn:Hevents; [done |].
  destruct (compile_matcher (Listener_ f)) as [m|] eqn:Hm; [| done].
  apply bool_decide_eq_false in Hclient, Hlogger, Hevents.
  apply andb_false_iff in Hfailure.
  rewrite !negb_false_iff, String.eqb_eq in Hfailure.
  destruct (compile_matcher_Some _ _ Hm) as [Hevs Hids].
  by repeat split.
Qed.

Lemma reconcile_factory (sw : Wrapper.SenderWrapper) (l : Listener) :
  Wrapper.factory (Wrapper.reconcile sw l) = Wrapper.factory sw.
Proof. unfold Wrapper.reconcile. by repeat case_match. Qed.

Lemma reconcile_absent (sw : Wrapper.SenderWrapper) (l : Listener) (u : string) :
  Wrapper.senders sw !! u = None →
  (URL l = u → ∃ err, New (Wrapper.factory_for sw l) = inr err) →
  Wrapper.senders (Wrapper.reconcile sw l) !! u = None.
Proof.
  intros Hnone Hfails. unfold Wrapper.reconcile.
  destruct (decide (URL l = u)) as [Heq|Hne].
  - destruct (Hfails Heq) as [err Herr]. rewrite Heq, Hnone, Herr. done.
  - repeat case_match; cbn; by rewrite ?lookup_insert_ne.
Qed.

Lemma Update_absent (sw : Wrapper.SenderWrapper) (ls : list Listener) (u : string) :
  Wrapper.senders sw !! u = None →
  (∀ l, l ∈ ls → URL l = u →
        ∃ err, New (Wrapper.factory_for sw l) = inr err) →
  Wrapper.senders (Wrapper.Update ls sw) !! u = None.
Proof.
  revert sw. induction ls as [|l ls IH]; intros sw Hnone Hfails; [done |].
  unfold Wrapper.Update in *. cbn [foldl]. apply IH.
  - apply reconcile_absent; [done |]. intros Hu.
    apply Hfails; [apply elem_of_cons; by left | done].
  - intros l' Hl' Hu. unfold Wrapper.factory_for.
    rewrite reconcile_factory.
    apply Hfails; [apply elem_of_cons; by right | done].
Qed.

Lemma New_needs_handles (f : OutboundSenderFactory) :
  Client f = None ∨ Logger f = None → ∃ err, New f = inr err.
Proof.
  intros Hnil. destruct (New f) as [s|err] eqn:Hnew; [| by exists err].
  destruct (New_inl_valid f s Hnew) as (_ & Hclient & _ & Hlogger & _).
  by destruct Hnil.
Qed.

(** C5. [OutboundSenderFactory.New] returns no sender and an error when
    an events or device_id expression does not compile, the URL is missing
    or not a valid absolute URL, a failure URL is given and invalid, the
    client or the logger is nil, or [CutOffPeriod] is zero;
    [SenderWrapperFactory.New] returns no wrapper and an error when
    [Linger] or [CutOffPeriod] is zero; [Update] puts no sender into the
    dispatch set under a URL whose listeners all fail construction; and a
    wrapper whose client or logger is nil never gets a sender at all. *)
Theorem construction_rejects_bad_configuration :
  (∀ f : OutboundSenderFactory,
     (∃ e, e ∈ Events (Listener_ f) ∧ Compile e = None)
     ∨ (∃ ids d, Matchers (Listener_ f) !! "device_id" = Some ids
                 ∧ d ∈ ids ∧ Compile d = None)
     ∨ URL (Listener_ f) = ""
     ∨ valid_url (URL (Listener_ f)) = false
     ∨ (FailureURL (Listener_ f) ≠ ""
        ∧ valid_url (FailureURL (Listener_ f)) = false)
     ∨ Client f = None
     ∨ Logger f = None
     ∨ CutOffPeriod f = 0 →
     ∃ err, New f = inr err ∧ err ≠ "")
  ∧ (∀ swf : Wrapper.SenderWrapperFactory,
       Wrapper.Linger swf = 0 ∨ Wrapper.swf_CutOffPeriod swf = 0 →
       ∃ err, Wrapper.New swf = inr err ∧ err ≠ "")
  ∧ (∀ (sw : Wrapper.SenderWrapper) (ls : list Listener) (u : string),
       Wrapper.senders sw !! u = None →
       (∀ l, l ∈ ls → URL l = u →
             ∃ err, New (Wrapper.factory_for sw l) = inr err) →
       Wrapper.senders (Wrapper.Update ls sw) !! u = None)
  ∧ (∀ (sw : Wrapper.SenderWrapper) (ls : list Listener),
       Wrapper.swf_Client (Wrapper.factory sw) = None
       ∨ Wrapper.swf_Logger (Wrapper.factory sw) = None →
       Wrapper.senders sw = ∅ →
       Wrapper.senders (Wrapper.Update ls sw) = ∅).
Proof.
  split; [| split; [| split]].
  - intros f Hbad.
    destruct (New f) as [s|err] eqn:Hnew.
    + exfalso.
      destruct (New_inl_valid f s Hnew)
        as (Hurl & Hclient & Hperiod & Hlogger & Hfailure & _ & Hevs & Hids).
      destruct Hbad as [(e & He & Hc)|[(ids & d & Hm & Hd & Hc)|
        [Hu|[Hu|[[Hf Hv]|[Hc|[Hl|Hp]]]]]]].
      * rewrite Forall_forall in Hevs. destruct (Hevs e He) as [re Hre].
        congruence.
      * rewrite Hm in Hids. cbn in Hids. rewrite Forall_forall in Hids.
        destruct (Hids d Hd) as [re Hre]. congruence.
      * rewrite Hu, valid_url_empty in Hurl. done.
      * congruence.
      * destruct Hfailure; congruence.
      * done.
      * done.
      * lia.
    + exists err. split; [done |]. unfold New in Hnew.
      repeat case_match; by simplify_eq.
  - intros swf Hzero. unfold Wrapper.New.
    repeat case_match; eauto; exfalso;
      repeat match goal with
        | Hle : (_ <=? _) = false |- _ => apply Z.leb_gt in Hle
        end; lia.
  - apply Update_absent.
  - intros sw ls Hnil Hempty. apply map_eq. intros u.
    rewrite lookup_empty. apply Update_absent.
    + by rewrite Hempty, lookup_empty.
    + intros l _ _. by apply New_needs_handles.
Qed.

End Construction.

(** TestInvalidLinger: a wrapper factory without linger builds nothing;
    the same factory with a linger of one second does. *)
Lemma construction_rejects_bad_configuration_witness :
  (∃ err, @Outbound.New Outbound.literal_regexps
            (Outbound.simpleSetup 0 ∅) = inr err ∧ err ≠ "")
  ∧ (∃ err,
       @Wrapper.New Outbound.literal_regexps
         {| Wrapper.NumWorkersPerSender := 10;
            Wrapper.QueueSizePerSender := 10;
            Wrapper.swf_CutOffPeriod := 30 * Outbound.second;
            Wrapper.Linger := 0;
            Wrapper.swf_Client := None;
            Wrapper.swf_Logger := Some (Outbound.Handle "test") |}
       = inr err ∧ err ≠ "").
Proof.
  pose proof (@construction_rejects_bad_configuration
                Outbound.literal_regexps) as (Hsender & Hwrapper & _ & _).
  split.
  - apply Hsender. do 7 right. reflexivity.
  - apply Hwrapper. left. reflexivity.
Defined.

(** *** The wrapper test, replayed *)

Definition sw_request (event : string) : CaduceusRequest :=
  {| Payload := "Hello, world."; ContentType := "application/json";
     TargetURL :=
       "http://foo.com/api/v2/notification/device/mac:112233445566/event/"
       +:+ event;
     Timestamps := {| TimeReceived := 0; TimeAccepted := 0;
                      TimeProcessingStart := 0; TimeProcessingEnd := 0 |} |}.

Section WrapperReplay.
Import Outbound.

Definition sw_listener (url : string) (until : Z) (events : list string)
  : Listener :=
  {| URL := url; ContentType := "application/json"; Secret := "";
     Events := events; Matchers := ∅; Until := Z.to_N until;
     FailureURL := ""; Address := "" |}.

Definition sw_factory (linger : Z) : Wrapper.SenderWrapperFactory :=
  {| Wrapper.NumWorkersPerSender := 10; Wrapper.QueueSizePerSender := 10;
     Wrapper.swf_CutOffPeriod := 30 * second; Wrapper.Linger := linger;
     Wrapper.swf_Client := Some (Handle "client");
     Wrapper.swf_Logger := Some (Handle "test") |}.

(** One step of the test: the wrapper is offered a request and the
    workers run, or it is given a snapshot. *)
Inductive sw_step : Type :=
| Offer (now : Z) (req : CaduceusRequest)
| Snapshot (list : list Listener).

Definition sw_run (steps : list sw_step)
    (sw : @Wrapper.SenderWrapper literal_regexps)
  : @Wrapper.SenderWrapper literal_regexps :=
  foldl (λ sw step,
           match step with
           | Offer now req =>
               Wrapper.work_all (Z.to_N now)
                 (Wrapper.Queue (Z.to_N now) req "1234" sw)
           | Snapshot list => Wrapper.Update list sw
           end) sw steps.

Example event_and_device_of_path :
  Wrapper.event_and_device (TargetURL (sw_request "iot"))
  = ("iot", "mac:112233445566")
  ∧ Wrapper.event_and_device "/foo/device/x/event/iot" = ("iot", "x")
  ∧ Wrapper.event_and_device "device/x/event/iot" = ("", "")
  ∧ Wrapper.event_and_device "/device/x/event/" = ("", "")
  ∧ Wrapper.event_and_device "/device/x/event/a/device/y/event/b/c"
    = ("b", "y").
Proof. by vm_compute. Qed.

(** TestInvalidLinger and TestSwSimple: no POST without listeners; two
    for an [iot] event and two listeners; one more for a [test] event;
    none once [bar] has expired; one more for [iot] after [foo] was
    registered again. *)
Example TestSwSimple :
  @Wrapper.New literal_regexps (sw_factory 0)
  = inr "Linger must be positive."
  ∧ match @Wrapper.New literal_regexps (sw_factory second) with
    | inr _ => False
    | inl sw =>
        let counts steps := Wrapper.posts_made (sw_run steps sw) in
        let none :=
          [Offer 0 (sw_request "iot"); Offer 0 (sw_request "iot");
           Offer 0 (sw_request "iot")] in
        let two :=
          none
          ++ [Snapshot
                [sw_listener "http://localhost:9999/foo" (6 * second) ["iot"];
                 sw_listener "http://localhost:9999/bar" (3 * second)
                   ["iot"; "test"]];
              Offer 0 (sw_request "iot")] in
        let three := two ++ [Offer second (sw_request "test")] in
        let expired := three ++ [Offer (4 * second) (sw_request "test")] in
        let four :=
          expired
          ++ [Snapshot
                [sw_listener "http://localhost:9999/foo" (9 * second) ["iot"]];
              Offer (5 * second) (sw_request "iot")] in
        counts none = 0%nat ∧ counts two = 2%nat ∧ counts three = 3%nat
        ∧ counts expired = 3%nat ∧ counts four = 4%nat
    end.
Proof. by vm_compute. Qed.

End WrapperReplay.

(** ** Further properties of the sources *)

Section MoreOfTheSources.

(** X2. [filterNonTelemetryElements] returns the telemetry values of
    its input, each as often as the input has it and in the order of the
    input: it is the filter of the list by the type assertion, and its
    output is what the telemetry read off the input is, wrapped again.
    So it has the telemetry values of the input and no others, is a
    sublist of the input, goes through a concatenation part by part, and
    changes nothing when applied again. *)
Theorem filterNonTelemetryElements_telemetry_only
    (elements : list Profiler.any) :
  Profiler.filterNonTelemetryElements elements
  = List.filter Profiler.isCaduceusTelemetry elements
  ∧ Profiler.filterNonTelemetryElements elements
    = Profiler.Telemetry <$> Profiler.telemetry_of elements
  ∧ (∀ x, x ∈ Profiler.filterNonTelemetryElements elements
          ↔ x ∈ elements ∧ ∃ t, x = Profiler.Telemetry t)
  ∧ Profiler.filterNonTelemetryElements elements `sublist_of` elements
  ∧ (∀ more,
       Profiler.filterNonTelemetryElements (elements ++ more)
       = Profiler.filterNonTelemetryElements elements
         ++ Profiler.filterNonTelemetryElements more)
  ∧ Profiler.filterNonTelemetryElements
      (Profiler.filterNonTelemetryElements elements)
    = Profiler.filterNonTelemetryElements elements.
Proof.
  induction elements
    as [|e elements (IHfilter & IHof & IHin & IHsub & IHapp & IHidem)].
  - do 2 (split; [done |]). split; [| by split].
    intros x. split; [by inversion 1 |]. intros [Hx _]. by inversion Hx.
  - destruct e as [t|cs|tag];
      cbn [Profiler.filterNonTelemetryElements Profiler.telemetry_of
           List.filter Profiler.isCaduceusTelemetry fmap list_fmap app].
    + split; [by f_equal |]. split; [by f_equal |].
      split; [| split; [by apply sublist_skip |
                        split; [intros more; by rewrite IHapp
                               | by f_equal]]].
      intros x. rewrite !elem_of_cons, IHin. split.
      * intros [->|[Hx Ht]]; eauto.
      * intros [[->|Hx] Ht]; auto.
    + split; [done |]. split; [done |].
      split; [| split; [by apply sublist_cons | by split]].
      intros x. rewrite elem_of_cons, IHin. split.
      * intros [Hx Ht]. auto.
      * intros [[->|Hx] [t Ht]]; [discriminate | eauto].
    + split; [done |]. split; [done |].
      split; [| split; [by apply sublist_cons | by split]].
      intros x. rewrite elem_of_cons, IHin. split.
      * intros [Hx Ht]. auto.
      * intros [[->|Hx] [t Ht]]; [discriminate | eauto].
Qed.

(** Sending [fs] to a pool that holds [queued] fills the free slots in
    order and drops the rest. *)
Lemma Send_all_buf {F : Type} (n w : nat) (fs queued got : list F) :
  (length queued ≤ n)%nat →
  jobs (foldl (λ wp f, (Send wp f).1)
          {| jobs := Chan.Make n queued; waiting := 0; busy := w;
             taken := got |} fs)
  = Chan.Make n (take n (queued ++ fs))
  ∧ waiting (foldl (λ wp f, (Send wp f).1)
               {| jobs := Chan.Make n queued; waiting := 0; busy := w;
                  taken := got |} fs) = 0%nat.
Proof.
  revert queued. induction fs as [|f fs IH]; intros queued Hlen; cbn [foldl].
  - cbn. by rewrite app_nil_r, take_ge.
  - destruct (decide (length queued < n)%nat) as [Hfree|Hfull].
    + unfold Send at 2 4. cbn [waiting jobs].
      rewrite try_send_free by done. cbn [fst].
      cbn [Chan.cap Chan.buf busy taken].
      destruct (IH (queued ++ [f])) as [-> ->];
        [rewrite length_app; cbn; lia |].
      by rewrite <- app_assoc.
    + unfold Send at 2 4. cbn [waiting jobs].
      rewrite try_send_full by (unfold Chan.len; cbn; lia).
      cbn [fst]. destruct (IH queued Hlen) as [-> ->].
      by rewrite !take_app_le by lia.
Qed.

(** X3. Sent one after another to a pool that [WorkerPoolFactory.New]
    made, with no worker taking a job in between, exactly the first
    [QueueSize] functions are queued, in order, and once that many were
    sent every further [Send] returns the "pool full" error. *)
Theorem Send_fills_queue_then_refuses {F : Type}
    (wpf : WorkerPoolFactory) (wp : WorkerPool F) (fs : list F) :
  WorkerPoolFactory_New wpf = Some wp →
  Chan.buf (jobs (foldl (λ wp f, (Send wp f).1) wp fs))
  = take (Z.to_nat (wpf_QueueSize wpf)) fs
  ∧ ((Z.to_nat (wpf_QueueSize wpf) ≤ length fs)%nat →
     ∀ f, (Send (foldl (λ wp f, (Send wp f).1) wp fs) f).2
          = Some pool_full).
Proof.
  intros Hnew. unfold WorkerPoolFactory_New in Hnew.
  destruct (wpf_QueueSize wpf <? 0); [done |]. injection Hnew as <-.
  unfold Chan.make.
  pose proof (Send_all_buf (Z.to_nat (wpf_QueueSize wpf))
                (Z.to_nat (wpf_NumWorkers wpf)) fs [] []
                ltac:(cbn; lia)) as Hjobs.
  cbn [app] in Hjobs. revert Hjobs.
  generalize (foldl (λ wp f, (@Send F wp f).1)
                {| jobs := Chan.Make (Z.to_nat (wpf_QueueSize wpf)) [];
                   waiting := 0;
                   busy := Z.to_nat (wpf_NumWorkers wpf);
                   taken := [] |} fs).
  intros wp' [Hjobs Hwaiting]. split; [by rewrite Hjobs |].
  intros Hmany f. unfold Send. rewrite Hwaiting, try_send_full; [done |].
  rewrite Hjobs. unfold Chan.len. cbn. rewrite length_take. lia.
Qed.

Lemma Send_fills_queue_then_refuses_witness :
  Chan.buf (jobs (foldl (λ wp f, (Send wp f).1) Intake.test_pool
                    [Intake.HandleRequestJob (sw_request "a");
                     Intake.HandleRequestJob (sw_request "b")]))
  = [Intake.HandleRequestJob (sw_request "a")].
Proof.
  exact (proj1 (Send_fills_queue_then_refuses
                  {| wpf_NumWorkers := 1; wpf_QueueSize := 1 |}
                  Intake.test_pool
                  [Intake.HandleRequestJob (sw_request "a");
                   Intake.HandleRequestJob (sw_request "b")] eq_refl)).
Defined.

(** X4. When the body of a request was read but its Content-Type header
    is missing or does not hold exactly one value, [ServeHTTP] calls
    [WriteHeader(400)] and leaves the pool and the health counters as
    they were. *)
Theorem ServeHTTP_content_type_required
    (sh : Intake.ServerHandler) (response : Intake.ResponseWriter)
    (request : Intake.Request) (now1 now2 : Z) (data : string) :
  Intake.Body request = Intake.ReadOk data →
  (∀ v, Intake.Header request !! "Content-Type" ≠ Some [v]) →
  Intake.workerPool (Intake.ServeHTTP sh response request now1 now2).1
  = Intake.workerPool sh
  ∧ Intake.caduceusHealth (Intake.ServeHTTP sh response request now1 now2).1
    = Intake.caduceusHealth sh
  ∧ Intake.CallWriteHeader Intake.StatusBadRequest
    ∈ Intake.calls (Intake.ServeHTTP sh response request now1 now2).2.
Proof.
  intros Hbody Hct. unfold Intake.ServeHTTP. rewrite Hbody.
  destruct (Intake.Header request !! "Content-Type")
    as [[|v [|v' value]]|] eqn:Hheader; cbn;
    try (by destruct (Hct v));
    (case_decide; [| done]); cbn;
    (split; [done |]; split; [done |]);
    rewrite !elem_of_app, !elem_of_cons; tauto.
Qed.

Lemma ServeHTTP_content_type_required_witness :
  Intake.workerPool
    (Intake.ServeHTTP Intake.test_handler Intake.NewRecorder
       {| Intake.Body := Intake.ReadOk "Test message.";
          Intake.Header := ∅; Intake.URL := "/api/v1/run" |} 1 2).1
  = Intake.test_pool.
Proof.
  exact (proj1 (ServeHTTP_content_type_required
                  Intake.test_handler Intake.NewRecorder
                  {| Intake.Body := Intake.ReadOk "Test message.";
                     Intake.Header := ∅; Intake.URL := "/api/v1/run" |}
                  1 2 "Test message." eq_refl
                  ltac:(intros v Hv; cbn in Hv; rewrite lookup_empty in Hv;
                        discriminate Hv))).
Defined.

End MoreOfTheSources.

(** ** Runs of the worker pool *)

Section PoolRuns.
Context {F : Type}.

(** What one step keeps true of a pool, and what it does to it. *)
Lemma pool_step_invariant (ev : pool_event F) (wp : WorkerPool F) :
  well_formed wp →
  (Chan.len (jobs wp) ≤ Chan.cap (jobs wp))%nat →
  well_formed (pool_step wp ev)
  ∧ Chan.cap (jobs (pool_step wp ev)) = Chan.cap (jobs wp)
  ∧ (Chan.len (jobs (pool_step wp ev)) ≤ Chan.cap (jobs wp))%nat
  ∧ (waiting (pool_step wp ev) + busy (pool_step wp ev)
     = waiting wp + busy wp)%nat
  ∧ taken (pool_step wp ev) ++ Chan.buf (jobs (pool_step wp ev))
    = taken wp ++ Chan.buf (jobs wp) ++ accepted [ev] wp
  ∧ ((waiting wp + busy wp = 0)%nat → taken (pool_step wp ev) = taken wp).
Proof.
  intros Hwf Hlen. destruct ev as [inFunc|]; cbn [pool_step accepted].
  - split; [by apply Send_well_formed |].
    unfold Send. destruct (waiting wp) as [|parked] eqn:Hw.
    + destruct (Chan.try_send (jobs wp) inFunc) as [c'|] eqn:Hsend;
        cbn [fst snd jobs waiting busy taken].
      * destruct (try_send_bounded _ _ _ Hsend) as [Hcap Hlen'].
        rewrite Hcap in Hlen'. repeat split; try done.
        unfold Chan.try_send, Chan.send in Hsend. case_decide; [|done].
        by injection Hsend as <-.
      * rewrite Hw, !app_nil_r. by repeat split.
    + cbn [fst snd jobs waiting busy taken].
      destruct Hwf as [Hwf|Hbuf]; [lia |]. rewrite Hbuf.
      rewrite app_nil_r. cbn [app].
      repeat split; try done; lia.
  - split; [by apply receive_well_formed |].
    unfold receive, Chan.try_recv.
    destruct (busy wp) as [|b] eqn:Hb;
      [rewrite Hb, !app_nil_r; by repeat split |].
    destruct (Chan.buf (jobs wp)) as [|f rest] eqn:Hbuf;
      cbn [jobs waiting busy taken Chan.cap Chan.buf].
    + rewrite Hbuf, !app_nil_r. repeat split; try done; lia.
    + unfold Chan.len in *. rewrite Hbuf in Hlen. cbn in *.
      rewrite <- !app_assoc, app_nil_r. cbn. repeat split; try done; lia.
Qed.

Lemma accepted_cons (ev : pool_event F) (evs : list (pool_event F))
    (wp : WorkerPool F) :
  accepted (ev :: evs) wp = accepted [ev] wp ++ accepted evs (pool_step wp ev).
Proof. destruct ev as [inFunc|]; cbn; [| done]. by destruct (Send wp inFunc).2. Qed.

(** What a run keeps true of a pool, and what it has done to it. *)
Lemma pool_run_invariant (evs : list (pool_event F)) (wp : WorkerPool F) :
  well_formed wp →
  (Chan.len (jobs wp) ≤ Chan.cap (jobs wp))%nat →
  well_formed (pool_run evs wp)
  ∧ Chan.cap (jobs (pool_run evs wp)) = Chan.cap (jobs wp)
  ∧ (Chan.len (jobs (pool_run evs wp)) ≤ Chan.cap (jobs wp))%nat
  ∧ (waiting (pool_run evs wp) + busy (pool_run evs wp)
     = waiting wp + busy wp)%nat
  ∧ taken (pool_run evs wp) ++ Chan.buf (jobs (pool_run evs wp))
    = taken wp ++ Chan.buf (jobs wp) ++ accepted evs wp
  ∧ ((waiting wp + busy wp = 0)%nat → taken (pool_run evs wp) = taken wp).
Proof.
  revert wp. induction evs as [|ev evs IH]; intros wp Hwf Hlen.
  - cbn. by rewrite app_nil_r.
  - destruct (pool_step_invariant ev wp Hwf Hlen)
      as (S1 & S2 & S3 & S4 & S5 & S6).
    destruct (IH (pool_step wp ev) S1) as (R1 & R2 & R3 & R4 & R5 & R6);
      [by rewrite S2 |].
    unfold pool_run in *. cbn [foldl]. rewrite accepted_cons.
    rewrite R2, R4, R5, S2, S4 in *.
    split; [done |]. split; [done |]. split; [done |]. split; [done |].
    split.
    + rewrite (assoc_L (++) (taken (pool_step wp ev))), S5.
      by rewrite <- !app_assoc.
    + intros Hnone. rewrite R6 by done. by apply S6.
Qed.

Lemma accepted_sublist (evs : list (pool_event F)) (wp : WorkerPool F) :
  accepted evs wp `sublist_of` sent evs.
Proof.
  revert wp. induction evs as [|[inFunc|] evs IH]; intros wp; cbn.
  - done.
  - destruct (Send wp inFunc).2; [apply sublist_cons | apply sublist_skip];
      apply IH.
  - apply IH.
Qed.

(** X8. On a pool that [WorkerPoolFactory.New] made, whatever the order
    in which clients call [Send] and workers come to their receive: the
    functions the workers received, followed by those still queued, are
    exactly the functions for which [Send] returned [nil], each once and
    in the order they were sent; a refused function is never run.  The
    queue never holds more than [QueueSize] functions, the number of
    workers stays [NumWorkers], and a pool without workers runs nothing. *)
Theorem pool_run_delivers_in_order
    (wpf : WorkerPoolFactory) (wp : WorkerPool F)
    (evs : list (pool_event F)) :
  WorkerPoolFactory_New wpf = Some wp →
  taken (pool_run evs wp) ++ Chan.buf (jobs (pool_run evs wp))
  = accepted evs wp
  ∧ accepted evs wp `sublist_of` sent evs
  ∧ (Chan.len (jobs (pool_run evs wp)) ≤ Z.to_nat (wpf_QueueSize wpf))%nat
  ∧ (waiting (pool_run evs wp) + busy (pool_run evs wp)
     = Z.to_nat (wpf_NumWorkers wpf))%nat
  ∧ (wpf_NumWorkers wpf ≤ 0 → taken (pool_run evs wp) = []).
Proof.
  intros Hnew. pose proof (New_well_formed wpf wp Hnew) as Hwf.
  unfold WorkerPoolFactory_New in Hnew.
  destruct (wpf_QueueSize wpf <? 0); [done |]. injection Hnew as <-.
  match goal with
  | Hwf : well_formed ?wp |- _ =>
      destruct (pool_run_invariant evs wp Hwf) as (_ & _ & H3 & H4 & H5 & H6);
        [cbn; lia |]
  end.
  cbn in H3, H4, H5, H6.
  split; [exact H5 |]. split; [apply accepted_sublist |].
  split; [exact H3 |]. split; [exact H4 |].
  intros Hnone. apply H6. lia.
Qed.

End PoolRuns.

Lemma pool_run_delivers_in_order_witness :
  taken (pool_run [PoolSend "f"; PoolSend "g"; PoolReceive; PoolSend "h";
                   PoolReceive; PoolReceive]
           {| jobs := Chan.make 1; waiting := 0; busy := 1; taken := [] |})
  = ["f"; "h"].
Proof.
  pose proof (pool_run_delivers_in_order
                {| wpf_NumWorkers := 1; wpf_QueueSize := 1 |}
                {| jobs := Chan.make 1; waiting := 0; busy := 1;
                   taken := [] |}
                [PoolSend "f"; PoolSend "g"; PoolReceive; PoolSend "h";
                 PoolReceive; PoolReceive] eq_refl) as (Hrun & _).
  vm_compute in Hrun. vm_compute. exact Hrun.
Defined.

(** ** More of the intake handler *)

Section MoreOfServeHTTP.
Import Intake.

(** X9. A request whose body was read and whose Content-Type header holds
    one non-empty value is turned into one job that carries the body, the
    content type and the URL as they came, stamped with the two clock
    readings.  With room in the pool the job goes behind those already
    accepted, the counter of the bucket of the body's length goes up by
    one, and the handler calls [WriteHeader(202)]; with the pool full
    nothing is queued, no counter moves, and the handler calls
    [WriteHeader(408)]. *)
Theorem ServeHTTP_queues_or_refuses
    (sh : ServerHandler) (response : ResponseWriter) (request : Request)
    (now1 now2 : Z) (data contentType : string) :
  Body request = ReadOk data →
  Header request !! "Content-Type" = Some [contentType] →
  contentType ≠ "" →
  well_formed (workerPool sh) →
  let job :=
    HandleRequestJob
      {| Payload := data; ContentType := contentType;
         TargetURL := URL request;
         Timestamps := {| TimeReceived := now1; TimeAccepted := now2;
                          TimeProcessingStart := 0;
                          TimeProcessingEnd := 0 |} |} in
  let r := ServeHTTP sh response request now1 now2 in
  (full (workerPool sh) = false →
     taken (workerPool r.1) ++ Chan.buf (jobs (workerPool r.1))
     = taken (workerPool sh) ++ Chan.buf (jobs (workerPool sh)) ++ [job]
     ∧ caduceusHealth r.1
       = IncrementBucket (Z.of_nat (String.length data)) (caduceusHealth sh)
     ∧ calls r.2
       = calls response
         ++ [CallWrite greeting; CallWriteHeader StatusAccepted;
             CallWrite ("Request placed on to queue." +:+ LF)])
  ∧ (full (workerPool sh) = true →
       workerPool r.1 = workerPool sh
       ∧ caduceusHealth r.1 = caduceusHealth sh
       ∧ calls r.2
         = calls response
           ++ [CallWrite greeting; CallWriteHeader StatusRequestTimeout;
               CallWrite ("Unable to handle request at this time." +:+ LF)]).
Proof.
  intros Hbody Hct Hne Hwf. cbv zeta. unfold ServeHTTP.
  rewrite Hbody, Hct. cbn [fst snd].
  destruct (decide (contentType = "")) as [|_]; [done |].
  cbn [TimeReceived TimeProcessingStart TimeProcessingEnd URL].
  set (job := HandleRequestJob _).
  cbn [workerPool Info caduceusHealth logger].
  unfold full, Send.
  destruct (waiting (workerPool sh)) as [|parked] eqn:Hw.
  - destruct (decide (Chan.len (jobs (workerPool sh))
                      < Chan.cap (jobs (workerPool sh)))%nat) as [Hfree|Hfull].
    + rewrite try_send_free by done.
      cbn [fst snd workerPool caduceusHealth jobs taken Chan.buf calls
           Write WriteHeader].
      split; [| intros Hfl; destruct (Nat.eqb_spec (Chan.cap (jobs (workerPool sh))) 0);
                [lia | apply Nat.leb_le in Hfl; lia]].
      intros _. split; [done |]. split; [done |]. by rewrite <- !app_assoc.
    + rewrite try_send_full by lia.
      cbn [fst snd workerPool caduceusHealth jobs taken Chan.buf calls
           Write WriteHeader].
      split.
      * intros Hfl. destruct (Nat.eqb_spec (Chan.cap (jobs (workerPool sh))) 0);
          [done | apply Nat.leb_gt in Hfl; lia].
      * intros _. split; [by destruct sh |]. split; [done |].
        by rewrite <- !app_assoc.
  - destruct Hwf as [Hwf|Hempty]; [lia |].
    cbn [fst snd workerPool caduceusHealth jobs taken Chan.buf calls
         Write WriteHeader].
    split.
    + intros _. rewrite Hempty, app_nil_r. cbn [app].
      split; [done |]. split; [done |]. by rewrite <- !app_assoc.
    + intros Hfl. destruct (Nat.eqb_spec (Chan.cap (jobs (workerPool sh))) 0);
        [done |].
      apply Nat.leb_le in Hfl. unfold Chan.len in Hfl.
      rewrite Hempty in Hfl. cbn in Hfl. lia.
Qed.

Lemma ServeHTTP_queues_or_refuses_witness :
  caduceusHealth (ServeHTTP test_handler NewRecorder (post "Test message.") 1 2).1
  = IncrementBucket 13 (caduceusHealth test_handler).
Proof.
  exact (proj1 (proj2 (proj1 (ServeHTTP_queues_or_refuses
                  test_handler NewRecorder (post "Test message.") 1 2
                  "Test message." "text/plain" eq_refl eq_refl
                  ltac:(discriminate) (or_introl eq_refl)) eq_refl))).
Defined.

(** X10. Whatever the request and the state of the handler, [ServeHTTP]
    logs its one line and writes the greeting before anything else, which
    commits status 200 on a response nothing was written to: the one
    [WriteHeader] it may call afterwards, with 202, 400 or 408, never
    becomes the status.  After the greeting it makes either no call or a
    [WriteHeader] followed by one [Write].  A request whose single
    Content-Type value is the empty string is dropped without a word:
    nothing is queued or counted, and nothing follows the greeting. *)
Theorem ServeHTTP_always_greets
    (sh : ServerHandler) (response : ResponseWriter) (request : Request)
    (now1 now2 : Z) :
  let r := ServeHTTP sh response request now1 now2 in
  logger r.1 = logger sh ++ ["Someone is saying hello!"]
  ∧ (status response = None → status r.2 = Some 200)
  ∧ (calls r.2 = calls response ++ [CallWrite greeting]
     ∨ ∃ code msg,
         calls r.2
         = calls response
           ++ [CallWrite greeting; CallWriteHeader code; CallWrite msg]
         ∧ (code = StatusAccepted ∨ code = StatusBadRequest
            ∨ code = StatusRequestTimeout))
  ∧ (∀ data, Body request = ReadOk data →
       Header request !! "Content-Type" = Some [""] →
       workerPool r.1 = workerPool sh
       ∧ caduceusHealth r.1 = caduceusHealth sh
       ∧ calls r.2 = calls response ++ [CallWrite greeting]).
Proof.
  cbv zeta. split; [| split; [| split]].
  - unfold ServeHTTP.
    destruct (Body request) as [myPayload|err]; [| done].
    destruct (Header request !! "Content-Type") as [[|v [|v' value]]|];
      cbn [fst snd]; repeat case_decide; try done;
      by destruct (Send _ _) as [? [?|]].
  - apply ServeHTTP_status_of_greeting.
  - unfold ServeHTTP. fold greeting.
    destruct (Body request) as [myPayload|err].
    + destruct (Header request !! "Content-Type") as [[|v [|v' value]]|];
        cbn [fst snd]; repeat case_decide; try congruence;
        try destruct (Send _ _) as [? [?|]];
        cbn [fst snd calls Write WriteHeader];
        rewrite <- ?app_assoc; cbn [app]; eauto 10.
    + cbn. rewrite <- !app_assoc. cbn [app]. eauto 10.
  - intros data Hbody Hct. unfold ServeHTTP. by rewrite Hbody, Hct.
Qed.

End MoreOfServeHTTP.

(** ** More of the registry adapter *)

Section MoreOfTheRegistry.
Import Registry.
Context `{TimeCodec} `{WebhookLib}.

(** X12. Converting the item [UpdateRegistry] stored for a listener
    gives the listener back with its [Duration] read through the float64
    the map of the store holds and the text [json.Marshal] writes for
    it: for a [Duration] strictly between [-2^63 + 512] and [2^63 - 512]
    the conversion succeeds, every other field is as it was, and the
    [Duration] is within 512 of the float64 nearest to it; for any other
    [Duration] the conversion fails.  So the listener comes back field
    for field exactly when that text denotes its [Duration], as it does
    for every [Duration] below [2^53] in magnitude. *)
Theorem convertItemToWebhook_inverts_store
    (r : Registry) (req : Request) (w : W) :
  NewW (Body req) (RemoteAddr req) = inl w →
  code (UpdateRegistry r req).2 = StatusOK →
  - 2 ^ 63 ≤ Duration w < 2 ^ 63 →
  ∃ item,
    items (hookStore (UpdateRegistry r req).1) !! ID w = Some item
    ∧ (- 2 ^ 63 + 512 < Duration w < 2 ^ 63 - 512 →
       convertItemToWebhook item
       = inl (with_Duration w
                (json_float64 (float64_of_int (Duration w))))
       ∧ Z.abs (json_float64 (float64_of_int (Duration w))
                - float64_of_int (Duration w)) ≤ 512)
    ∧ (¬ (- 2 ^ 63 + 512 < Duration w < 2 ^ 63 - 512) →
       ∃ err, convertItemToWebhook item = inr err)
    ∧ (convertItemToWebhook item = inl w
       ↔ json_float64 (float64_of_int (Duration w)) = Duration w)
    ∧ (Z.abs (Duration w) < 2 ^ 53 → convertItemToWebhook item = inl w).
Proof.
  intros Hnew Hcode Hrange.
  destruct (UpdateRegistry_stored r req w Hnew Hcode)
    as (data & webhook & Hmarshal & Hmap & Hitem).
  eexists. split; [exact Hitem |].
  rewrite (convertItemToWebhook_stored w data webhook _ _ Hmarshal Hmap).
  pose proof (json_float64_int64 (Duration w) Hrange) as Hint64.
  assert (Hsame : with_Duration w (Duration w) = w) by (by destruct w).
  split; [| split; [| split]].
  - intros Hinner. rewrite into_int64_in_range by (by apply Hint64).
    split; [done |].
    apply json_float64_near.
    pose proof (float64_of_int_below (Duration w) ltac:(lia)). lia.
  - intros Houter. rewrite into_int64_out_of_range; [by eexists |].
    by rewrite Hint64.
  - split.
    + destruct (into_int64 0 _) as [d|] eqn:Hd; [| done].
      intros [= Hw]. apply (f_equal Duration) in Hw. cbn in Hw.
      unfold into_int64 in Hd. case_match; by simplify_eq.
    + intros Htext. rewrite Htext, into_int64_in_range by done.
      by rewrite Hsame.
  - intros Hsmall.
    rewrite float64_of_int_exact, json_float64_exact by done.
    rewrite into_int64_in_range by done. by rewrite Hsame.
Qed.

End MoreOfTheRegistry.

Lemma convertItemToWebhook_inverts_store_witness :
  ∃ item,
    Registry.items
      (Registry.hookStore
         (@Registry.UpdateRegistry decimal_time (lasting_webhooks (2 ^ 60))
            sample_registry sample_registration).1)
      !! "http://localhost:9999/foo" = Some item
    ∧ (- 2 ^ 63 + 512 < 2 ^ 60 < 2 ^ 63 - 512 →
       @Registry.convertItemToWebhook decimal_time item
       = inl (Registry.with_Duration
                (lasting_hook (2 ^ 60) "http://localhost:9999/foo"
                   "10.0.0.7")
                (Registry.json_float64 (Registry.float64_of_int (2 ^ 60))))
       ∧ Z.abs (Registry.json_float64 (Registry.float64_of_int (2 ^ 60))
                - Registry.float64_of_int (2 ^ 60)) ≤ 512)
    ∧ (¬ (- 2 ^ 63 + 512 < 2 ^ 60 < 2 ^ 63 - 512) →
       ∃ err, @Registry.convertItemToWebhook decimal_time item = inr err)
    ∧ (@Registry.convertItemToWebhook decimal_time item
       = inl (lasting_hook (2 ^ 60) "http://localhost:9999/foo" "10.0.0.7")
       ↔ Registry.json_float64 (Registry.float64_of_int (2 ^ 60)) = 2 ^ 60)
    ∧ (Z.abs (2 ^ 60) < 2 ^ 53 →
       @Registry.convertItemToWebhook decimal_time item
       = inl (lasting_hook (2 ^ 60) "http://localhost:9999/foo"
                "10.0.0.7")).
Proof.
  apply (@convertItemToWebhook_inverts_store decimal_time
           (lasting_webhooks (2 ^ 60))
           sample_registry sample_registration
           (lasting_hook (2 ^ 60) "http://localhost:9999/foo" "10.0.0.7")).
  - reflexivity.
  - reflexivity.
  - cbn [lasting_hook Registry.Duration]. lia.
Defined.

(** A Duration of [2^60] nanoseconds comes back from the store as
    [1152921504606847000], one of [-2^63] not at all. *)
Example stored_duration_comes_back_rounded :
  let converted duration :=
    item ← Registry.items
             (Registry.hookStore
                (@Registry.UpdateRegistry decimal_time
                   (lasting_webhooks duration)
                   sample_registry sample_registration).1)
             !! "http://localhost:9999/foo";
    Some (@Registry.convertItemToWebhook decimal_time item) in
  converted (2 ^ 60)
  = Some (inl (lasting_hook 1152921504606847000
                 "http://localhost:9999/foo" "10.0.0.7"))
  ∧ converted 300000000000
    = Some (inl (sample_hook "http://localhost:9999/foo" "10.0.0.7"))
  ∧ (∃ err, converted (- 2 ^ 63) = Some (inr err)).
Proof.
  cbv zeta. split; [by vm_compute |]. split; [by vm_compute |].
  eexists. by vm_compute.
Qed.

(** ** Runs of a profiler *)

Section ProfilerRunProperties.
Context `{Profiler.ServerRing} `{Profiler.StatsFormat}.
Import Profiler.

Lemma received_cons (ev : event) (evs : list event) (cp : caduceusProfiler) :
  received (ev :: evs) cp = received [ev] cp ++ received evs (aggregate_step ev cp).
Proof.
  destruct ev; cbn [received]; try done.
  unfold aggregate_step. by destruct (Send cp inData).2.
Qed.

Lemma Send_received (cp : caduceusProfiler) (inData : any) :
  Chan.buf (inChan (Send cp inData).1)
  = Chan.buf (inChan cp) ++ received [CallSend inData] cp
  ∧ Chan.cap (inChan (Send cp inData).1) = Chan.cap (inChan cp)
  ∧ ((Chan.len (inChan cp) ≤ Chan.cap (inChan cp))%nat →
     (Chan.len (inChan (Send cp inData).1) ≤ Chan.cap (inChan cp))%nat)
  ∧ logger (Send cp inData).1 = logger cp
  ∧ data (Send cp inData).1 = data cp
  ∧ at_stage (Send cp inData).1 = at_stage cp
  ∧ quit (Send cp inData).1 = quit cp
  ∧ name (Send cp inData).1 = name cp.
Proof.
  cbn [received]. unfold Send.
  destruct (Chan.try_send (inChan cp) inData) as [c'|] eqn:Hsend; cbn.
  - destruct (try_send_bounded _ _ _ Hsend) as [Hcap Hlen].
    rewrite Hcap in Hlen. repeat split; try done.
    unfold Chan.try_send, Chan.send in Hsend. case_decide; [| done].
    by injection Hsend as <-.
  - rewrite app_nil_r. by repeat split.
Qed.

(** One step of a profiler without a parent. *)
Lemma aggregate_step_orphan (ev : event) (cp : caduceusProfiler) :
  parent cp = None →
  ∃ got,
    profilerRing (aggregate_step ev cp) = foldl Add (profilerRing cp) got
    ∧ got ++ Chan.buf (inChan (aggregate_step ev cp))
      = Chan.buf (inChan cp) ++ received [ev] cp
    ∧ parent (aggregate_step ev cp) = None
    ∧ logger (aggregate_step ev cp) = logger cp
    ∧ (data cp = [] → data (aggregate_step ev cp) = [])
    ∧ Chan.cap (inChan (aggregate_step ev cp)) = Chan.cap (inChan cp)
    ∧ ((Chan.len (inChan cp) ≤ Chan.cap (inChan cp))%nat →
       (Chan.len (inChan (aggregate_step ev cp)) ≤ Chan.cap (inChan cp))%nat).
Proof.
  intros Hp.
  destruct ev as [inData| |stamp|stamp| |].
  - exists []. cbn [aggregate_step foldl app].
    destruct (Send_received cp inData) as (-> & -> & Hlen & -> & -> & _).
    destruct (Send_keeps_ring_and_parent cp inData) as [-> ->].
    by repeat split.
  - exists []. cbn. rewrite app_nil_r. by repeat split.
  - exists []. unfold aggregate_step.
    destruct (at_stage cp); rewrite ?Hp; cbn; rewrite app_nil_r;
      by repeat split.
  - exists []. unfold aggregate_step.
    destruct (at_stage cp); rewrite ?Hp; cbn; rewrite app_nil_r;
      by repeat split.
  - unfold aggregate_step, Chan.try_recv.
    destruct (at_stage cp); try (exists []; cbn; rewrite app_nil_r;
                                  by repeat split).
    destruct (Chan.buf (inChan cp)) as [|inData rest] eqn:Hbuf.
    + exists []. cbn. rewrite Hbuf. by repeat split.
    + rewrite Hp. exists [inData]. cbn. rewrite app_nil_r.
      repeat split; try done.
      unfold Chan.len. rewrite Hbuf. cbn. lia.
  - exists []. unfold aggregate_step.
    destruct (at_stage cp), (quit cp); cbn; rewrite app_nil_r;
      by repeat split.
Qed.

Lemma aggregate_orphan (evs : list event) (cp : caduceusProfiler) :
  parent cp = None →
  ∃ got,
    profilerRing (aggregate evs cp) = foldl Add (profilerRing cp) got
    ∧ got ++ Chan.buf (inChan (aggregate evs cp))
      = Chan.buf (inChan cp) ++ received evs cp
    ∧ logger (aggregate evs cp) = logger cp
    ∧ (data cp = [] → data (aggregate evs cp) = [])
    ∧ ((Chan.len (inChan cp) ≤ Chan.cap (inChan cp))%nat →
       (Chan.len (inChan (aggregate evs cp)) ≤ Chan.cap (inChan cp))%nat).
Proof.
  revert cp. induction evs as [|ev evs IH]; intros cp Hp.
  - exists []. cbn. rewrite app_nil_r. by repeat split.
  - destruct (aggregate_step_orphan ev cp Hp)
      as (got1 & S1 & S2 & S3 & S4 & S5 & S6 & S7).
    destruct (IH _ S3) as (got2 & R1 & R2 & R3 & R4 & R5).
    exists (got1 ++ got2). unfold aggregate in *. cbn [foldl].
    rewrite received_cons, R1, S1, R3, S4, foldl_app.
    rewrite S6 in R5.
    split; [done |]. split.
    + rewrite <- (assoc_L (++)), R2, !(assoc_L (++)), S2.
      done.
    + split; [done |]. split; auto.
Qed.

(** X13. A profiler built without a parent passes every value [Send]
    accepted on to its ring, each once and in the order of the calls:
    whatever the interleaving of calls and of cases of the loop, the ring
    [Report] reads is the new ring with the values taken so far added one
    by one, and those values followed by the ones still in the channel
    are exactly the accepted ones.  Such a profiler keeps no batch, logs
    no stats, and never holds more than [QueueSize] values. *)
Theorem orphan_profiler_feeds_ring
    (spf : ServerProfilerFactory) (nm : string) (cp : caduceusProfiler)
    (evs : list event) :
  New spf nm = inl cp → Parent spf = None →
  ∃ got,
    Report (aggregate evs cp)
    = Snapshot (foldl Add (NewCaduceusRing (Duration spf)) got)
    ∧ got ++ Chan.buf (inChan (aggregate evs cp)) = received evs cp
    ∧ data (aggregate evs cp) = []
    ∧ logger (aggregate evs cp) = []
    ∧ (Z.of_nat (Chan.len (inChan (aggregate evs cp))) ≤ QueueSize spf).
Proof.
  intros Hnew Hparent. unfold New in Hnew.
  destruct (Z.ltb_spec (QueueSize spf) 1);
    [by rewrite !orb_true_r in Hnew |].
  destruct (_ || _); [done |]. injection Hnew as <-.
  match goal with
  | |- context [aggregate evs ?cp] =>
      destruct (aggregate_orphan evs cp Hparent)
        as (got & R1 & R2 & R3 & R4 & R5)
  end.
  cbn in R1, R2, R3, R4, R5.
  exists got. unfold Report. rewrite R1.
  split; [done |]. split; [done |]. split; [by apply R4 |].
  split; [done |]. specialize (R5 ltac:(lia)). lia.
Qed.

End ProfilerRunProperties.

Lemma orphan_profiler_feeds_ring_witness :
  ∃ got,
    @Profiler.Report Profiler.list_ring
      (@Profiler.aggregate Profiler.list_ring Profiler.blank_format
         [Profiler.Begin "t0"; Profiler.CallSend (Profiler.Other "a");
          Profiler.CallSend (Profiler.Other "b"); Profiler.SelectData]
         (@Profiler.Build_caduceusProfiler Profiler.list_ring
            "p" 10 (@Profiler.NewCaduceusRing Profiler.list_ring 6)
            (Chan.make 1) false None [] [] Profiler.Spawned))
    = @Profiler.Snapshot Profiler.list_ring
        (foldl (@Profiler.Add Profiler.list_ring)
               (@Profiler.NewCaduceusRing Profiler.list_ring 6) got)
    ∧ got ++ [] = [Profiler.Other "a"].
Proof.
  destruct (@orphan_profiler_feeds_ring Profiler.list_ring
              Profiler.blank_format
              {| Profiler.Frequency := 10; Profiler.Duration := 6;
                 Profiler.QueueSize := 1; Profiler.Parent := None |}
              "p" _
              [Profiler.Begin "t0"; Profiler.CallSend (Profiler.Other "a");
               Profiler.CallSend (Profiler.Other "b"); Profiler.SelectData]
              eq_refl eq_refl) as (got & Hreport & Hgot & _).
  exists got. split; [exact Hreport | exact Hgot].
Defined.
Section RelayingProfiler.
Context `{Profiler.ServerRing} `{Profiler.StatsFormat}.
Import Profiler.

Lemma filterNonTelemetryElements_app (a b : list any) :
  filterNonTelemetryElements (a ++ b)
  = filterNonTelemetryElements a ++ filterNonTelemetryElements b.
Proof.
  induction a as [|[t|cs|tag] a IH]; cbn; [done | by f_equal | done | done].
Qed.

Lemma telemetry_count_app (a b : list any) :
  telemetry_count (a ++ b) = telemetry_count a + telemetry_count b.
Proof.
  unfold telemetry_count.
  rewrite filterNonTelemetryElements_app, length_app. lia.
Qed.

Lemma telemetry_count_cons (x : any) (l : list any) :
  telemetry_count (x :: l) = telemetry_count [x] + telemetry_count l.
Proof. apply (telemetry_count_app [x] l). Qed.

Lemma events_logged_app (a b : list CaduceusStats) :
  events_logged (a ++ b) = events_logged a + events_logged b.
Proof.
  unfold events_logged. induction a as [|cs a IH]; cbn; [done |].
  rewrite IH. lia.
Qed.

Ltac count_arith :=
  change (telemetry_count []) with 0 in *;
  unfold events_logged in *; cbn [foldr] in *; lia.

Lemma process_EventsSent (cp : caduceusProfiler) (stamp : string)
    (raw : list any) :
  EventsSent (process cp stamp raw) = telemetry_count raw
  ∧ Name (process cp stamp raw) = name cp.
Proof.
  unfold process, telemetry_count.
  destruct (Z.ltb_spec 0 (Z.of_nat (length (filterNonTelemetryElements raw))));
    cbn; split; try done; lia.
Qed.

Lemma send_to_parent_buf (p : Chan.chan any) (cs : CaduceusStats) :
  Chan.cap (send_to_parent p cs) = Chan.cap p
  ∧ ∃ fwd, Chan.buf (send_to_parent p cs) = Chan.buf p ++ (Stats <$> fwd)
           ∧ fwd `sublist_of` [cs].
Proof.
  unfold send_to_parent, Chan.try_send, Chan.send.
  case_decide; cbn.
  - split; [done |]. by exists [cs].
  - split; [done |]. exists []. rewrite app_nil_r. split; [done |].
    apply sublist_nil_l.
Qed.

Lemma aggregate_step_relays (ev : event) (cp : caduceusProfiler)
    (p : Chan.chan any) :
  relays cp p →
  ∃ p' fwd new,
    relays (aggregate_step ev cp) p'
    ∧ Chan.cap p' = Chan.cap p
    ∧ Chan.buf p' = Chan.buf p ++ (Stats <$> fwd)
    ∧ fwd `sublist_of` new
    ∧ logger (aggregate_step ev cp) = logger cp ++ new
    ∧ Forall (λ cs, Name cs = name cp) new
    ∧ name (aggregate_step ev cp) = name cp
    ∧ events_logged new
      + telemetry_count (data (aggregate_step ev cp))
      + telemetry_count (Chan.buf (inChan (aggregate_step ev cp)))
      = telemetry_count (data cp)
        + telemetry_count (Chan.buf (inChan cp))
        + telemetry_count (received [ev] cp).
Proof.
  intros [Hp Hdata].
  assert (Hquiet : ∀ cp', parent cp' = Some p → data cp' = data cp →
            at_stage cp' = at_stage cp → name cp' = name cp →
            logger cp' = logger cp →
            Chan.buf (inChan cp') = Chan.buf (inChan cp) ++ received [ev] cp →
            ∃ p' fwd new,
              relays cp' p'
              ∧ Chan.cap p' = Chan.cap p
              ∧ Chan.buf p' = Chan.buf p ++ (Stats <$> fwd)
              ∧ fwd `sublist_of` new
              ∧ logger cp' = logger cp ++ new
              ∧ Forall (λ cs, Name cs = name cp) new
              ∧ name cp' = name cp
              ∧ events_logged new + telemetry_count (data cp')
                + telemetry_count (Chan.buf (inChan cp'))
                = telemetry_count (data cp)
                  + telemetry_count (Chan.buf (inChan cp))
                  + telemetry_count (received [ev] cp)).
  { intros cp' Hp' Hd' Hs' Hn' Hl' Hb'. exists p, [], [].
    rewrite Hd', Hb', Hl', telemetry_count_app, !app_nil_r.
    unfold relays. rewrite Hp', Hd', Hs'.
    repeat split; try done. count_arith. }
  destruct ev as [inData| |stamp|stamp| |].
  - cbn [aggregate_step].
    destruct (Send_received cp inData)
      as (Hb & _ & _ & Hl & Hd & Hs & _ & Hn).
    apply Hquiet; try done.
    by rewrite (proj2 (Send_keeps_ring_and_parent cp inData)).
  - apply Hquiet; try done. cbn. by rewrite app_nil_r.
  - unfold aggregate_step.
    destruct (at_stage cp) eqn:Hstage;
      try (apply Hquiet; try done; cbn; by rewrite app_nil_r).
    rewrite Hp.
    destruct (send_to_parent_buf p (process cp stamp (data cp)))
      as (Hcap & fwd & Hbuf & Hfwd).
    destruct (process_EventsSent cp stamp (data cp)) as [Hsent Hname].
    exists (send_to_parent p (process cp stamp (data cp))), fwd,
           [process cp stamp (data cp)].
    rewrite (Hdata eq_refl) in *.
    unfold relays. cbn. rewrite Hsent.
    repeat split; try done; auto. count_arith.
  - unfold aggregate_step.
    destruct (at_stage cp) eqn:Hstage;
      try (apply Hquiet; try done; cbn; by rewrite app_nil_r).
    rewrite Hp.
    destruct (send_to_parent_buf p (process cp stamp (data cp)))
      as (Hcap & fwd & Hbuf & Hfwd).
    destruct (process_EventsSent cp stamp (data cp)) as [Hsent Hname].
    exists (send_to_parent p (process cp stamp (data cp))), fwd,
           [process cp stamp (data cp)].
    unfold relays. cbn. rewrite Hsent.
    repeat split; try done; auto; try count_arith.
  - unfold aggregate_step, Chan.try_recv.
    destruct (at_stage cp) eqn:Hstage;
      try (apply Hquiet; try done; cbn; by rewrite app_nil_r).
    destruct (Chan.buf (inChan cp)) as [|inData rest] eqn:Hbuf.
    + apply Hquiet; try done; cbn; by rewrite ?Hbuf.
    + rewrite Hp. exists p, [], []. unfold relays. cbn.
      rewrite telemetry_count_app, (telemetry_count_cons inData rest),
        !app_nil_r.
      repeat split; try done. count_arith.
  - unfold aggregate_step.
    destruct (at_stage cp) eqn:Hstage;
      try (apply Hquiet; try done; cbn; by rewrite app_nil_r).
    destruct (quit cp).
    + exists p, [], []. unfold relays. cbn. rewrite !app_nil_r.
      repeat split; try done. count_arith.
    + apply Hquiet; try done. cbn. by rewrite app_nil_r.
Qed.

Lemma aggregate_relays (evs : list event) (cp : caduceusProfiler)
    (p : Chan.chan any) :
  relays cp p →
  ∃ p' fwd new,
    parent (aggregate evs cp) = Some p'
    ∧ Chan.cap p' = Chan.cap p
    ∧ Chan.buf p' = Chan.buf p ++ (Stats <$> fwd)
    ∧ fwd `sublist_of` new
    ∧ logger (aggregate evs cp) = logger cp ++ new
    ∧ Forall (λ cs, Name cs = name cp) new
    ∧ events_logged new
      + telemetry_count (data (aggregate evs cp))
      + telemetry_count (Chan.buf (inChan (aggregate evs cp)))
      = telemetry_count (data cp)
        + telemetry_count (Chan.buf (inChan cp))
        + telemetry_count (received evs cp).
Proof.
  revert cp p. induction evs as [|ev evs IH]; intros cp p Hrel.
  - exists p, [], []. cbn. rewrite !app_nil_r.
    repeat split; try done; [apply Hrel | count_arith].
  - destruct (aggregate_step_relays ev cp p Hrel)
      as (p1 & fwd1 & new1 & S1 & S2 & S3 & S4 & S5 & S6 & S7 & S8).
    destruct (IH _ _ S1)
      as (p2 & fwd2 & new2 & R1 & R2 & R3 & R4 & R5 & R6 & R7).
    exists p2, (fwd1 ++ fwd2), (new1 ++ new2).
    unfold aggregate in *. cbn [foldl].
    rewrite received_cons, telemetry_count_app, events_logged_app.
    rewrite R1, R2, S2, R3, S3, R5, S5, fmap_app, !(assoc_L (++)).
    rewrite S7 in R6.
    repeat split; try done.
    + by apply sublist_app.
    + by apply Forall_app.
    + lia.
Qed.

(** X14. A profiler built with a parent accounts for every telemetry
    value [Send] accepted: whatever the interleaving of calls and of cases
    of the loop, the events reported by the stats it logged so far, the
    telemetry in its batch and the telemetry still in its channel add up
    to the telemetry accepted.  Every stats entry it logs carries the
    profiler's name; the parent's channel receives only logged entries,
    in the order they were logged, behind what it held, and never changes
    its capacity: an entry the full parent refused is logged but not
    forwarded. *)
Theorem relaying_profiler_accounts_for_telemetry
    (spf : ServerProfilerFactory) (nm : string) (cp : caduceusProfiler)
    (p : Chan.chan any) (evs : list event) :
  New spf nm = inl cp → Parent spf = Some p →
  ∃ p' fwd,
    parent (aggregate evs cp) = Some p'
    ∧ Chan.cap p' = Chan.cap p
    ∧ Chan.buf p' = Chan.buf p ++ (Stats <$> fwd)
    ∧ fwd `sublist_of` logger (aggregate evs cp)
    ∧ Forall (λ cs, Name cs = nm) (logger (aggregate evs cp))
    ∧ events_logged (logger (aggregate evs cp))
      + telemetry_count (data (aggregate evs cp))
      + telemetry_count (Chan.buf (inChan (aggregate evs cp)))
      = telemetry_count (received evs cp).
Proof.
  intros Hnew Hparent. unfold New in Hnew.
  destruct (_ || _); [done |]. injection Hnew as <-.
  match goal with
  | |- context [aggregate evs ?cp] =>
      destruct (aggregate_relays evs cp p)
        as (p' & fwd & new & R1 & R2 & R3 & R4 & R5 & R6 & R7);
        [by split |]
  end.
  cbn in R1, R2, R3, R4, R5, R6, R7.
  exists p', fwd. rewrite R5. by repeat split.
Qed.

(** X15. Once [aggregate] has returned, after [Close], nothing reads the
    profiler's channel any more: no case of the loop changes anything,
    the ring, the batch, the log and the parent stay as they are, and
    [Send] keeps accepting values only until the channel holds
    [QueueSize] of them. *)
Theorem returned_profiler_is_inert (cp : caduceusProfiler)
    (evs : list event) :
  at_stage cp = Returned →
  (Chan.len (inChan cp) ≤ Chan.cap (inChan cp))%nat →
  at_stage (aggregate evs cp) = Returned
  ∧ profilerRing (aggregate evs cp) = profilerRing cp
  ∧ data (aggregate evs cp) = data cp
  ∧ logger (aggregate evs cp) = logger cp
  ∧ parent (aggregate evs cp) = parent cp
  ∧ inChan (aggregate evs cp)
    = Chan.Make (Chan.cap (inChan cp))
        (take (Chan.cap (inChan cp)) (Chan.buf (inChan cp) ++ offered evs)).
Proof.
  revert cp. induction evs as [|ev evs IH]; intros cp Hstage Hlen.
  - cbn. rewrite app_nil_r, take_ge by done. by destruct cp, inChan0.
  - unfold aggregate in *. cbn [foldl].
    destruct ev as [inData| |stamp|stamp| |];
      try (unfold aggregate_step at 2 4 6 8 10 12; rewrite Hstage;
           cbn [offered]; by apply IH).
    + cbn [aggregate_step offered].
      destruct (Send_received cp inData)
        as (Hb & Hc & Hl & Hlog & Hd & Hs & _ & _).
      destruct (Send_keeps_ring_and_parent cp inData) as [Hr Hp].
      destruct (IH (Send cp inData).1) as (I1 & I2 & I3 & I4 & I5 & I6);
        [congruence | rewrite Hc; auto |].
      rewrite I1, I2, I3, I4, I5, I6, Hr, Hp, Hd, Hlog, Hc, Hb.
      repeat split; try done. f_equal.
      cbn [received]. unfold Send.
      destruct (decide (Chan.len (inChan cp) < Chan.cap (inChan cp))%nat).
      * rewrite try_send_free by done. cbn. by rewrite <- app_assoc.
      * rewrite try_send_full by lia. cbn. rewrite app_nil_r.
        unfold Chan.len in *. by rewrite !take_app_le by lia.
    + cbn [aggregate_step offered].
      destruct (IH (Close cp)) as (I1 & I2 & I3 & I4 & I5 & I6);
        [done | done |].
      by rewrite I1, I2, I3, I4, I5, I6.
Qed.

End RelayingProfiler.

Lemma relaying_profiler_accounts_for_telemetry_witness :
  ∃ p' fwd,
    @Profiler.parent Profiler.list_ring
      (@Profiler.aggregate Profiler.list_ring Profiler.blank_format
         [Profiler.Begin "t0"; Profiler.CallSend (Profiler.Other "a");
          Profiler.SelectData; Profiler.SelectTick "t1"]
         (@Profiler.Build_caduceusProfiler Profiler.list_ring
            "p" 10 (@Profiler.NewCaduceusRing Profiler.list_ring 6)
            (Chan.make 1) false (Some (Chan.make 1)) [] []
            Profiler.Spawned)) = Some p'
    ∧ Chan.cap p' = 1%nat
    ∧ Chan.buf p' = [] ++ (Profiler.Stats <$> fwd).
Proof.
  destruct (@relaying_profiler_accounts_for_telemetry Profiler.list_ring
              Profiler.blank_format
              {| Profiler.Frequency := 10; Profiler.Duration := 6;
                 Profiler.QueueSize := 1;
                 Profiler.Parent := Some (Chan.make 1) |}
              "p" _ (Chan.make 1)
              [Profiler.Begin "t0"; Profiler.CallSend (Profiler.Other "a");
               Profiler.SelectData; Profiler.SelectTick "t1"]
              eq_refl eq_refl) as (p' & fwd & Hp & Hcap & Hbuf & _).
  exists p', fwd. split; [exact Hp |]. split; [exact Hcap | exact Hbuf].
Defined.

Lemma returned_profiler_is_inert_witness :
  @Profiler.inChan Profiler.list_ring
    (@Profiler.aggregate Profiler.list_ring Profiler.blank_format
       [Profiler.CallSend (Profiler.Other "a"); Profiler.SelectData;
        Profiler.CallSend (Profiler.Other "b")]
       (@Profiler.Build_caduceusProfiler Profiler.list_ring
          "p" 10 (@Profiler.NewCaduceusRing Profiler.list_ring 6)
          (Chan.make 1) true None [] [] Profiler.Returned))
  = Chan.Make 1 [Profiler.Other "a"].
Proof.
  exact (proj2 (proj2 (proj2 (proj2 (proj2
    (@returned_profiler_is_inert Profiler.list_ring Profiler.blank_format
       (@Profiler.Build_caduceusProfiler Profiler.list_ring
          "p" 10 (@Profiler.NewCaduceusRing Profiler.list_ring 6)
          (Chan.make 1) true None [] [] Profiler.Returned)
       [Profiler.CallSend (Profiler.Other "a"); Profiler.SelectData;
        Profiler.CallSend (Profiler.Other "b")]
       eq_refl (Nat.le_0_l 1))))))).
Defined.

(** ** binary64 arithmetic

    What the operations of the Standard Library's [SpecFloat] compute on
    the numbers [get98th] meets. *)

Section Float64.
Import SpecFloat.

Lemma digits2_pos_log2 (p : positive) :
  Z.pos (digits2_pos p) = Z.log2 (Z.pos p) + 1.
Proof.
  induction p as [p IH|p IH|]; cbn [digits2_pos].
  - rewrite Pos2Z.inj_succ, IH, Pos2Z.inj_xI, Z.log2_succ_double; lia.
  - rewrite Pos2Z.inj_succ, IH, Pos2Z.inj_xO, Z.log2_double; lia.
  - done.
Qed.

(** [digits] of a positive number: the number of its bits. *)
Lemma digits2_pos_bounds (p : positive) (l : Z) :
  2 ^ (l - 1) ≤ Z.pos p < 2 ^ l → 1 ≤ l → Z.pos (digits2_pos p) = l.
Proof.
  intros Hp Hl. rewrite digits2_pos_log2.
  rewrite (Z.log2_unique (Z.pos p) (l - 1)); [lia | lia |].
  by replace (Z.succ (l - 1)) with l by lia.
Qed.

Lemma Pos_iter_xO (m d : positive) :
  Z.pos (Pos.iter xO m d) = Z.pos m * 2 ^ Z.pos d.
Proof.
  induction d as [|d IH] using Pos.peano_ind.
  - cbn. lia.
  - rewrite Pos.iter_succ, Pos2Z.inj_xO, IH, Pos2Z.inj_succ, Z.pow_succ_r; lia.
Qed.

Lemma iter_pos_Pos_iter {A} (f : A → A) (p : positive) (x : A) :
  iter_pos f p x = Pos.iter f x p.
Proof.
  revert x. induction p as [p IH|p IH|]; intros x; cbn [iter_pos Pos.iter].
  - by rewrite !IH, !Pos.iter_swap.
  - by rewrite !IH.
  - done.
Qed.

Lemma shr_1_m (mrs : shr_record) :
  0 ≤ shr_m mrs → shr_m (shr_1 mrs) = shr_m mrs / 2.
Proof.
  destruct mrs as [m r s]. cbn [shr_m]. intros Hm.
  destruct m as [|[p|p|]|p]; cbn [shr_1 shr_m]; try done; try lia.
  - rewrite Pos2Z.inj_xI. apply Z.div_unique with 1; lia.
  - rewrite Pos2Z.inj_xO. apply Z.div_unique with 0; lia.
Qed.

Lemma shr_iter_m (k : positive) (mrs : shr_record) :
  0 ≤ shr_m mrs →
  shr_m (iter_pos shr_1 k mrs) = shr_m mrs / 2 ^ Z.pos k.
Proof.
  intros Hm. rewrite iter_pos_Pos_iter.
  induction k as [|k IH] using Pos.peano_ind.
  - cbn [Pos.iter]. by rewrite shr_1_m.
  - rewrite Pos.iter_succ, shr_1_m, IH, Pos2Z.inj_succ, Z.pow_succ_r by
      (rewrite ?IH; try apply Z.div_pos; lia).
    rewrite Z.div_div by lia. f_equal. lia.
Qed.

Lemma shr_1_exact (m : Z) :
  0 ≤ m → m mod 2 = 0 →
  shr_1 (Build_shr_record m false false)
  = Build_shr_record (m / 2) false false.
Proof.
  intros Hm Heven.
  destruct m as [|[p|p|]|p]; cbn [shr_1]; try done; try lia.
  - assert (Z.pos p~1 mod 2 = 1); [| lia].
    rewrite Pos2Z.inj_xI. symmetry. apply Z.mod_unique with (Z.pos p); lia.
  - f_equal. rewrite Pos2Z.inj_xO.
    apply Z.div_unique with 0; lia.
Qed.

Lemma shr_iter_exact (k : positive) (m : Z) :
  0 ≤ m → m mod 2 ^ Z.pos k = 0 →
  iter_pos shr_1 k (Build_shr_record m false false)
  = Build_shr_record (m / 2 ^ Z.pos k) false false.
Proof.
  intros Hm. rewrite iter_pos_Pos_iter.
  induction k as [|k IH] using Pos.peano_ind; intros Hmod.
  - cbn [Pos.iter]. by apply shr_1_exact.
  - rewrite Pos2Z.inj_succ, Z.pow_succ_r in * by lia.
    assert (Hk : 0 < 2 ^ Z.pos k) by (apply Z.pow_pos_nonneg; lia).
    rewrite Z.mul_comm, Z.rem_mul_r in Hmod by lia.
    pose proof (Z.mod_pos_bound m (2 ^ Z.pos k) Hk).
    pose proof (Z.mod_pos_bound (m / 2 ^ Z.pos k) 2 ltac:(lia)).
    rewrite Pos.iter_succ, IH by nia.
    rewrite shr_1_exact; [| apply Z.div_pos; lia | nia].
    rewrite Z.div_div by lia. do 2 f_equal. lia.
Qed.

Lemma fexp_53 (x : Z) : - 1021 ≤ x → fexp 53 1024 x = x - 53.
Proof. unfold fexp, emin. lia. Qed.

Lemma shr_fexp_pos (p : positive) (e k : Z) :
  Z.log2 (Z.pos p) = k + 52 → - 1021 ≤ k + 53 + e →
  shr_fexp 53 1024 (Z.pos p) e loc_Exact
  = shr (Build_shr_record (Z.pos p) false false) e k.
Proof.
  intros Hlog He. unfold shr_fexp. cbn [Zdigits2 shr_record_of_loc].
  rewrite digits2_pos_log2, fexp_53 by lia. f_equal. lia.
Qed.

Lemma round_nearest_even_near (q : Z) (l : location) :
  round_nearest_even q l = q ∨ round_nearest_even q l = q + 1.
Proof.
  unfold round_nearest_even.
  destruct l as [|[| |]]; try destruct (Z.even q); auto.
Qed.

(** Rounding a positive mantissa of at least 53 bits to binary64: the
    result is finite, its value is the mantissa cut to 53 bits or the
    next one up, and it is the mantissa itself when the bits cut off are
    all zero. *)
Lemma binary_round_aux_finite (s : bool) (p : positive) (e k : Z) :
  Z.log2 (Z.pos p) = k + 52 → 0 ≤ k → - 1000 ≤ e → e + k ≤ 900 →
  ∃ m e',
    binary_round_aux 53 1024 s (Z.pos p) e loc_Exact = S754_finite s m e'
    ∧ e + k ≤ e' ≤ e + k + 1
    ∧ 2 ^ 52 ≤ Z.pos m < 2 ^ 53
    ∧ (Z.pos m * 2 ^ (e' - (e + k)) = Z.pos p / 2 ^ k
       ∨ Z.pos m * 2 ^ (e' - (e + k)) = Z.pos p / 2 ^ k + 1)
    ∧ (Z.pos p mod 2 ^ k = 0 → Z.pos m = Z.pos p / 2 ^ k ∧ e' = e + k).
Proof.
  intros Hlog Hk He Hek.
  assert (Hp : 2 ^ (k + 52) ≤ Z.pos p < 2 ^ (k + 53)).
  { pose proof (Z.log2_spec (Z.pos p) ltac:(lia)) as Hspec.
    rewrite Hlog in Hspec.
    by replace (k + 53) with (Z.succ (k + 52)) by lia. }
  assert (H2k : 0 < 2 ^ k) by (apply Z.pow_pos_nonneg; lia).
  assert (Hq : 2 ^ 52 ≤ Z.pos p / 2 ^ k < 2 ^ 53).
  { rewrite !Z.pow_add_r in Hp by lia. split.
    - apply Z.div_le_lower_bound; lia.
    - apply Z.div_lt_upper_bound; lia. }
  unfold binary_round_aux.
  rewrite (shr_fexp_pos p e k Hlog) by lia.
  set (q := Z.pos p / 2 ^ k) in *.
  assert (Hfirst : ∃ mrs, shr (Build_shr_record (Z.pos p) false false) e k
                          = (mrs, e + k)
                          ∧ shr_m mrs = q
                          ∧ (Z.pos p mod 2 ^ k = 0 →
                             mrs = Build_shr_record q false false)).
  { unfold shr. destruct k as [|kp|kp]; [| | lia].
    - eexists. split; [by rewrite Z.add_0_r |]. cbn [shr_m].
      subst q. rewrite Z.pow_0_r, Z.div_1_r. auto.
    - eexists. split; [done |]. split.
      + by rewrite shr_iter_m.
      + intros Hmod. by rewrite shr_iter_exact. }
  destruct Hfirst as (mrs & -> & Hm & Hexact).
  set (m1 := round_nearest_even (shr_m mrs) (loc_of_shr_record mrs)).
  assert (Hm1 : (m1 = q ∨ m1 = q + 1)
                ∧ (Z.pos p mod 2 ^ k = 0 → m1 = q)).
  { subst m1. rewrite Hm. split; [apply round_nearest_even_near |].
    intros Hmod. by rewrite (Hexact Hmod). }
  clearbody m1. clear Hexact Hm mrs.
  destruct Hm1 as [Hnear Hexact].
  destruct (decide (m1 = 2 ^ 53)) as [Hcarry|Hfits].
  - (* the mantissa was rounded up to 54 bits *)
    subst m1. change (2 ^ 53) with (Z.pos (2 ^ 53)) at 1 2.
    rewrite (shr_fexp_pos (2 ^ 53) (e + k) 1) by (try done; lia).
    cbn -[Z.add Z.leb Z.sub].
    destruct (Z.leb_spec (e + k + 1) (1024 - 53)); [| lia].
    exists (2 ^ 52)%positive, (e + k + 1).
    split; [done |]. split; [lia |]. split; [done |].
    replace (e + k + 1 - (e + k)) with 1 by lia.
    split; [right; destruct Hnear as [Hn|Hn]; lia |].
    intros Hmod. specialize (Hexact Hmod). lia.
  - assert (Hm1 : 2 ^ 52 ≤ m1 < 2 ^ 53) by lia.
    destruct m1 as [|m|m]; try lia.
    rewrite (shr_fexp_pos m (e + k) 0);
      [| apply Z.log2_unique; lia | lia].
    cbn -[Z.add Z.leb Z.sub Z.pow].
    destruct (Z.leb_spec (e + k) (1024 - 53)); [| lia].
    exists m, (e + k).
    split; [done |]. split; [lia |]. split; [done |].
    rewrite Z.sub_diag, Z.pow_0_r, Z.mul_1_r. split; [done |].
    intros Hmod. by rewrite Hexact.
Qed.

(** A positive integer below [2^53] is a binary64 number. *)
Lemma binary_normalize_small (z l : Z) :
  2 ^ (l - 1) ≤ z < 2 ^ l → 1 ≤ l ≤ 53 →
  ∃ m, binary_normalize 53 1024 z 0 false = S754_finite false m (l - 53)
       ∧ Z.pos m = z * 2 ^ (53 - l).
Proof.
  intros Hz Hl.
  assert (H0 : 0 < 2 ^ (l - 1)) by (apply Z.pow_pos_nonneg; lia).
  destruct z as [|p|p]; try lia.
  unfold binary_normalize, binary_round.
  rewrite (digits2_pos_bounds p l) by (try done; lia).
  rewrite fexp_53 by lia. unfold shl_align.
  replace (l + 0 - 53 - 0) with (l - 53) by lia.
  replace (l + 0 - 53) with (l - 53) by lia.
  destruct (l - 53) as [|d|d] eqn:Hd; [| lia |].
  - destruct (binary_round_aux_finite false p 0 0)
      as (m & e' & -> & He' & _ & _ & Hexact); try lia.
    { apply Z.log2_unique; [lia |].
      replace l with 53 in Hz by lia. exact Hz. }
    destruct Hexact as [Hm ->]; [by rewrite Z.pow_0_r, Z.mod_1_r |].
    exists m. split; [done |].
    rewrite Hm, Z.pow_0_r, Z.div_1_r.
    replace (53 - l) with 0 by lia. lia.
  - assert (Hmz : Z.pos (Pos.iter xO p d) = Z.pos p * 2 ^ (53 - l))
      by (rewrite Pos_iter_xO; do 2 f_equal; lia).
    assert (H2 : 2 ^ (l - 1) * 2 ^ (53 - l) = 2 ^ 52)
      by (rewrite <- Z.pow_add_r by lia; f_equal; lia).
    assert (H3 : 2 ^ l * 2 ^ (53 - l) = 2 ^ 53)
      by (rewrite <- Z.pow_add_r by lia; f_equal; lia).
    assert (H4 : 0 < 2 ^ (53 - l)) by (apply Z.pow_pos_nonneg; lia).
    destruct (binary_round_aux_finite false (Pos.iter xO p d)
                (Z.neg d) 0)
      as (m & e' & -> & He' & _ & _ & Hexact); try lia.
    { apply Z.log2_unique; [lia |]. rewrite Hmz. nia. }
    destruct Hexact as [Hm ->]; [by rewrite Z.pow_0_r, Z.mod_1_r |].
    exists m. split; [f_equal; lia |].
    by rewrite Hm, Z.pow_0_r, Z.div_1_r.
Qed.

Lemma ceil_div_unique (m B T : Z) :
  0 < B → (T - 1) * B < m ≤ T * B → - ((- m) / B) = T.
Proof.
  intros HB Hm.
  rewrite <- (Z.div_unique (- m) B (- T) (T * B - m)); lia.
Qed.

(** [math.Ceil(float64(n) * 0.98)] is [ceil(98 n / 100)], exactly, for
    every [n] below [2^47]: the float64 product is one of the two
    binary64 numbers next to [n] times the constant, and no integer lies
    between these and the exact [0.98 n]. *)
Lemma Ceil_of_product (n : Z) :
  1 ≤ n < 2 ^ 47 →
  Stats.math_Ceil
    (SFmul 53 1024 (Stats.float64_of_int n) Stats.const_0_98)
  = binary_normalize 53 1024 (Stats.exact98 n + 1) 0 false.
Proof.
  intros Hn.
  set (L := Z.log2 n + 1).
  assert (HL : 2 ^ (L - 1) ≤ n < 2 ^ L).
  { pose proof (Z.log2_spec n ltac:(lia)) as Hspec. subst L.
    by replace (Z.log2 n + 1 - 1) with (Z.log2 n) by lia. }
  assert (HL47 : 1 ≤ L ≤ 47).
  { pose proof (Z.log2_nonneg n).
    pose proof (proj1 (Z.log2_lt_pow2 n 47 ltac:(lia)) ltac:(lia)). lia. }
  destruct (binary_normalize_small n L HL ltac:(lia)) as (mz & Hfloat & Hmz).
  unfold Stats.float64_of_int. rewrite Hfloat.
  unfold Stats.const_0_98. cbn [SFmul xorb].
  set (A := 2 ^ (53 - L)) in *.
  assert (HA : 64 ≤ A).
  { subst A. change 64 with (2 ^ 6). apply Z.pow_le_mono_r; lia. }
  assert (HX : 2 ^ 52 ≤ Z.pos mz < 2 ^ 53).
  { assert (2 ^ (L - 1) * A = 2 ^ 52)
      by (subst A; rewrite <- Z.pow_add_r by lia; f_equal; lia).
    assert (2 ^ L * A = 2 ^ 53)
      by (subst A; rewrite <- Z.pow_add_r by lia; f_equal; lia).
    nia. }
  rewrite Pos2Z.inj_mul.
  set (P := Z.pos mz * 8827055269646172).
  assert (HP : 2 ^ 104 ≤ P < 2 ^ 106) by (subst P; lia).
  assert (Hlog : Z.log2 P = 104 ∨ Z.log2 P = 105).
  { pose proof (Z.log2_le_mono (2 ^ 104) P ltac:(lia)) as Hlo.
    rewrite Z.log2_pow2 in Hlo by lia.
    pose proof (proj1 (Z.log2_lt_pow2 P 106 ltac:(lia)) ltac:(lia)). lia. }
  set (T := Stats.exact98 n + 1).
  assert (HT : 49 * n ≤ 50 * T ∧ 50 * (T - 1) < 49 * n).
  { subst T. unfold Stats.exact98.
    pose proof (Z.div_mod (49 * n + 49) 50 ltac:(lia)).
    pose proof (Z.mod_pos_bound (49 * n + 49) 50 ltac:(lia)). lia. }
  assert (HY : 49 * Z.pos mz ≤ 50 * (T * A)
               ∧ 50 * (T * A) - 49 * A ≤ 49 * Z.pos mz
               ∧ Z.pos mz < 2 ^ 47 * A) by (rewrite Hmz; nia).
  clearbody T. 
  assert (Hk : ∃ k, Z.log2 P = k + 52 ∧ (k = 52 ∨ k = 53))
    by (destruct Hlog; [exists 52 | exists 53]; lia).
  destruct Hk as (k & Hlogk & Hk).
  subst P.
  change (Z.pos mz * 8827055269646172)
    with (Z.pos mz * Z.pos 8827055269646172) in *.
  rewrite <- Pos2Z.inj_mul in *.
  destruct (binary_round_aux_finite false (mz * 8827055269646172)
              (L - 53 + -53) k Hlogk)
    as (m & e' & -> & He' & Hm & Hnear & _); try lia.
  rewrite Pos2Z.inj_mul in *.
  unfold Stats.math_Ceil.
  destruct (Z.leb_spec 0 e'); [lia |].
  cbn [cond_Zopp]. f_equal.
  apply ceil_div_unique; [apply Z.pow_pos_nonneg; lia |].
  assert (He'' : e' = L - 106 + k ∨ e' = L - 106 + k + 1) by lia.
  set (q := Z.pos mz * 8827055269646172 / 2 ^ k) in *.
  assert (Hq : q * 2 ^ k ≤ Z.pos mz * 8827055269646172 < (q + 1) * 2 ^ k).
  { subst q.
    pose proof (Z.div_mod (Z.pos mz * 8827055269646172) (2 ^ k)
                  ltac:(destruct Hk as [-> | ->]; lia)).
    pose proof (Z.mod_pos_bound (Z.pos mz * 8827055269646172) (2 ^ k)
                  ltac:(destruct Hk as [-> | ->]; lia)).
    lia. }
  clearbody q.
  destruct Hk as [-> | ->].
  - (* the product has 105 bits *)
    assert (HB : 2 ^ (- e') * 2 ^ (e' - (L - 53 + -53 + 52)) = 2 * A).
    { rewrite <- Z.pow_add_r by lia. subst A.
      replace (- e' + (e' - (L - 53 + -53 + 52))) with (1 + (53 - L))
        by lia.
      rewrite Z.pow_add_r by lia. lia. }
    destruct He'' as [-> | ->].
    + replace (L - 106 + 52 - (L - 53 + -53 + 52)) with 0 in * by lia.
      rewrite Z.pow_0_r in *. nia.
    + replace (L - 106 + 52 + 1 - (L - 53 + -53 + 52)) with 1 in * by lia.
      rewrite Z.pow_1_r in *. nia.
  - (* the product has 106 bits *)
    assert (HB : 2 ^ (- e') * 2 ^ (e' - (L - 53 + -53 + 53)) = A).
    { rewrite <- Z.pow_add_r by lia. subst A. f_equal. lia. }
    destruct He'' as [-> | ->].
    + replace (L - 106 + 53 - (L - 53 + -53 + 53)) with 0 in * by lia.
      rewrite Z.pow_0_r in *. nia.
    + replace (L - 106 + 53 + 1 - (L - 53 + -53 + 53)) with 1 in * by lia.
      rewrite Z.pow_1_r in *. nia.
Qed.

(** Taking one from a positive integer below [2^47] held in a float64
    and converting to [int64] gives the integer less one. *)
Lemma int64_of_pred (T : Z) :
  1 ≤ T < 2 ^ 47 →
  Stats.int64_of_float64
    (SFsub 53 1024 (binary_normalize 53 1024 T 0 false) Stats.const_1)
  = Some (T - 1).
Proof.
  intros HT.
  set (l := Z.log2 T + 1).
  assert (Hl : 2 ^ (l - 1) ≤ T < 2 ^ l).
  { pose proof (Z.log2_spec T ltac:(lia)) as Hspec. subst l.
    by replace (Z.log2 T + 1 - 1) with (Z.log2 T) by lia. }
  assert (Hl47 : 1 ≤ l ≤ 47).
  { pose proof (Z.log2_nonneg T).
    pose proof (proj1 (Z.log2_lt_pow2 T 47 ltac:(lia)) ltac:(lia)). lia. }
  destruct (binary_normalize_small T l Hl ltac:(lia)) as (mT & -> & HmT).
  unfold Stats.const_1. cbn [SFsub cond_Zopp].
  rewrite Z.min_r by lia.
  assert (Haligned : Z.pos (shl_align mT (l - 53) (-52)).1 = T * 2 ^ 52).
  { unfold shl_align.
    replace (-52 - (l - 53)) with (1 - l) by lia.
    destruct (1 - l) as [|d|d] eqn:Hd; try lia; cbn [fst].
    - rewrite HmT. do 2 f_equal. lia.
    - rewrite Pos_iter_xO, HmT, <- Z.mul_assoc, <- Z.pow_add_r by lia.
      do 2 f_equal. lia. }
  change (shl_align 4503599627370496 (-52) (-52)).1
    with 4503599627370496%positive.
  change (fst ?x) with (x.1).
  rewrite Haligned. clear Haligned.
  destruct (decide (T = 1)) as [->|Hne]; [done |].
  set (k := Z.log2 (T - 1)).
  assert (Hk : 2 ^ k ≤ T - 1 < 2 ^ (k + 1)).
  { pose proof (Z.log2_spec (T - 1) ltac:(lia)) as Hspec. subst k.
    by replace (Z.log2 (T - 1) + 1) with (Z.succ (Z.log2 (T - 1))) by lia. }
  assert (Hk47 : 0 ≤ k ≤ 46).
  { pose proof (Z.log2_nonneg (T - 1)).
    pose proof (proj1 (Z.log2_lt_pow2 (T - 1) 47 ltac:(lia)) ltac:(lia)).
    lia. }
  assert (H2k : 0 < 2 ^ k) by (apply Z.pow_pos_nonneg; lia).
  assert (Hsplit : 2 ^ 52 = 2 ^ (52 - k) * 2 ^ k)
    by (rewrite <- Z.pow_add_r by lia; f_equal; lia).
  assert (H52k : 0 < 2 ^ (52 - k)) by (apply Z.pow_pos_nonneg; lia).
  destruct (T * 2 ^ 52 - Z.pos 4503599627370496) as [|pM|pM] eqn:HM;
    try lia.
  assert (HMv : Z.pos pM = (T - 1) * 2 ^ (52 - k) * 2 ^ k)
    by (rewrite <- Z.mul_assoc, <- Hsplit; lia).
  assert (HlogM : Z.log2 (Z.pos pM) = k + 52).
  { apply Z.log2_unique; [lia |].
    replace (Z.succ (k + 52)) with (k + 1 + 52) by lia.
    rewrite !(Z.pow_add_r _ _ 52) by lia. lia. }
  unfold binary_normalize, binary_round.
  rewrite digits2_pos_log2, HlogM, fexp_53 by lia.
  unfold shl_align.
  replace (k + 52 + 1 + -52 - 53 - -52) with k by lia.
  destruct k as [|kp|kp] eqn:Hkp; try lia.
  - destruct (binary_round_aux_finite false pM (-52) 0 HlogM)
      as (m & e' & -> & _ & _ & _ & Hexact); try lia.
    destruct Hexact as [Hm ->]; [by rewrite Z.pow_0_r, Z.mod_1_r |].
    unfold Stats.int64_of_float64. cbn [cond_Zopp].
    destruct (Z.leb_spec 0 (-52 + 0)); [lia |].
    rewrite Hm, Z.pow_0_r, Z.div_1_r, HMv.
    replace (- (-52 + 0)) with (52 - 0) by lia.
    rewrite Z.pow_0_r, Z.mul_1_r, Z.div_mul by lia.
    destruct (Z.leb_spec (- 2 ^ 63) (T - 1)); [| lia].
    destruct (Z.ltb_spec (T - 1) (2 ^ 63)); [done | lia].
  - destruct (binary_round_aux_finite false pM (-52) (Z.pos kp) HlogM)
      as (m & e' & -> & _ & _ & _ & Hexact); try lia.
    destruct Hexact as [Hm ->]; [by rewrite HMv, Z.mod_mul by lia |].
    unfold Stats.int64_of_float64. cbn [cond_Zopp].
    destruct (Z.leb_spec 0 (-52 + Z.pos kp)); [lia |].
    rewrite Hm, HMv, Z.div_mul by lia.
    replace (- (-52 + Z.pos kp)) with (52 - Z.pos kp) by lia.
    rewrite Z.div_mul by lia.
    destruct (Z.leb_spec (- 2 ^ 63) (T - 1)); [| lia].
    destruct (Z.ltb_spec (T - 1) (2 ^ 63)); [done | lia].
Qed.

(** The index [get98th] computes in float64 arithmetic is the exact
    one for every series of fewer than [2^47] samples. *)
Lemma index98_exact (n : Z) :
  1 ≤ n < 2 ^ 47 → Stats.index98 n = Some (Stats.exact98 n).
Proof.
  intros Hn. unfold Stats.index98. rewrite Ceil_of_product by done.
  assert (HT : 1 ≤ Stats.exact98 n + 1 ≤ n).
  { unfold Stats.exact98.
    pose proof (Z.div_mod (49 * n + 49) 50 ltac:(lia)).
    pose proof (Z.mod_pos_bound (49 * n + 49) 50 ltac:(lia)). lia. }
  rewrite int64_of_pred by lia. f_equal. lia.
Qed.

End Float64.

(** ** The timing statistics of [process] *)

Section TimingProperties.
Import Stats.

Lemma Less_lookup (a : int64Array) (i j : nat) (x y : Z) :
  a !! i = Some x → a !! j = Some y →
  Less a i j = Some (bool_decide (x < y)).
Proof. intros Hi Hj. unfold Less. by rewrite Hi, Hj. Qed.

Lemma StronglySorted_lookup_le (a : int64Array) (i j : nat) (x y : Z) :
  StronglySorted Z.le a → (i < j)%nat →
  a !! i = Some x → a !! j = Some y → x ≤ y.
Proof.
  intros Hsorted. revert i j.
  induction Hsorted as [|z a Hsorted IH Hall]; intros i j Hij Hi Hj.
  - done.
  - destruct j as [|j]; [lia |]. cbn in Hj. destruct i as [|i].
    + injection Hi as <-. rewrite Forall_forall in Hall.
      apply Hall. by apply list_elem_of_lookup_2 with j.
    + cbn in Hi. apply (IH i j); [lia | done | done].
Qed.

Lemma sorted_by_Less_StronglySorted (a : int64Array) :
  sorted_by_Less a ↔ StronglySorted Z.le a.
Proof.
  split.
  - induction a as [|z a IH]; intros Hless; [constructor |].
    constructor.
    + apply IH. intros i j Hij. specialize (Hless (S i) (S j)).
      cbn in Hless. apply Hless. lia.
    + apply Forall_forall. intros y Hy.
      apply list_elem_of_lookup_1 in Hy as [j Hj].
      pose proof (lookup_lt_Some _ _ _ Hj) as Hlt.
      specialize (Hless 0%nat (S j) ltac:(cbn; lia)).
      rewrite (Less_lookup (z :: a) (S j) 0 y z Hj eq_refl) in Hless.
      injection Hless as Hless. apply bool_decide_eq_false in Hless. lia.
  - intros Hsorted i j Hij.
    destruct (lookup_lt_is_Some_2 a i ltac:(lia)) as [x Hx].
    destruct (lookup_lt_is_Some_2 a j ltac:(lia)) as [y Hy].
    rewrite (Less_lookup a j i y x Hy Hx). f_equal.
    apply bool_decide_eq_false.
    pose proof (StronglySorted_lookup_le a i j x y Hsorted
                  ltac:(lia) Hx Hy). lia.
Qed.

Lemma sort_Sort_sorted (a : int64Array) :
  StronglySorted Z.le (sort_Sort a) ∧ sort_Sort a ≡ₚ a.
Proof.
  split; [| apply merge_sort_Permutation].
  apply StronglySorted_merge_sort; [apply _ |].
  intros x y. lia.
Qed.

Lemma insert_swap_decomposed (l1 l2 l3 : list Z) (x y : Z) :
  <[length l1 := y]>
    (<[(length l1 + S (length l2))%nat := x]> (l1 ++ x :: l2 ++ y :: l3))
  = l1 ++ y :: l2 ++ x :: l3.
Proof.
  rewrite insert_app_r.
  change (<[S (length l2) := x]> (x :: l2 ++ y :: l3))
    with (x :: <[length l2 := x]> (l2 ++ y :: l3)).
  rewrite <- (Nat.add_0_r (length l2)) at 1. rewrite insert_app_r.
  rewrite <- (Nat.add_0_r (length l1)) at 1. by rewrite insert_app_r.
Qed.

Lemma insert_swap_Permutation (a : int64Array) (i j : nat) (x y : Z) :
  (i < j)%nat → a !! i = Some x → a !! j = Some y →
  <[i := y]> (<[j := x]> a) ≡ₚ a.
Proof.
  intros Hij Hi Hj.
  pose proof (lookup_lt_Some _ _ _ Hj) as Hjlen.
  assert (Hi' : take j a !! i = Some x) by (by rewrite lookup_take_lt).
  pose proof (take_drop_middle a j y Hj) as Ha.
  pose proof (take_drop_middle (take j a) i x Hi') as Ht.
  set (l1 := take i (take j a)) in *.
  set (l2 := drop (S i) (take j a)) in *.
  set (l3 := drop (S j) a) in *.
  rewrite <- Ht in Ha.
  assert (Hl1 : length l1 = i) by (subst l1; rewrite !length_take; lia).
  assert (Hl2 : (length l1 + S (length l2))%nat = j).
  { apply (f_equal length) in Ht. rewrite length_app in Ht. cbn in Ht.
    rewrite length_take in Ht. lia. }
  rewrite <- Ha, <- (assoc_L (++)). cbn [app].
  rewrite <- Hl2 at 1. rewrite <- Hl1 at 1.
  rewrite insert_swap_decomposed. solve_Permutation.
Qed.

Lemma Swap_Permutation (a a' : int64Array) (i j : nat) :
  Swap a i j = Some a' → a' ≡ₚ a.
Proof.
  unfold Swap in *. intros Hswap.
  apply bind_Some in Hswap as (x & Hi & Hswap).
  apply bind_Some in Hswap as (y & Hj & Hswap).
  injection Hswap as <-.
  destruct (lt_eq_lt_dec i j) as [[Hlt| ->]|Hgt].
  - by apply insert_swap_Permutation.
  - assert (x = y) as -> by congruence.
    by rewrite list_insert_insert_eq, list_insert_id.
  - rewrite list_insert_insert_ne by lia.
    by apply insert_swap_Permutation.
Qed.

(** X16. [int64Array] gives [sort.Sort] what it needs, and one result
    only.  [Swap] exchanges the two elements and keeps the others, so it
    rearranges the series without adding or losing a value, and it
    panics exactly on an index out of range; [Less] compares the values
    at two indexes.  [sort.Sort] leaves a rearrangement in which no
    element is [Less] than an earlier one, and the ascending arrangement
    is the only such. *)
Theorem int64Array_sorts_ascending (a : int64Array) :
  (∀ i j, is_Some (Swap a i j) ↔ (i < length a ∧ j < length a)%nat)
  ∧ (∀ i j a', Swap a i j = Some a' →
       a' ≡ₚ a ∧ a' !! i = a !! j ∧ a' !! j = a !! i
       ∧ ∀ k, k ≠ i → k ≠ j → a' !! k = a !! k)
  ∧ (∀ i j x y, a !! i = Some x → a !! j = Some y →
       Less a i j = Some (bool_decide (x < y)))
  ∧ sorted_by_Less (sort_Sort a)
  ∧ sort_Sort a ≡ₚ a
  ∧ (∀ b, b ≡ₚ a → sorted_by_Less b → b = sort_Sort a).
Proof.
  split; [| split; [| split; [| split; [| split]]]].
  - intros i j. unfold Swap. rewrite <- !lookup_lt_is_Some. split.
    + intros [a' Hswap].
      apply bind_Some in Hswap as (x & Hi & Hswap).
      apply bind_Some in Hswap as (y & Hj & _). eauto.
    + intros [[x Hi] [y Hj]]. rewrite Hi, Hj. cbn. eauto.
  - intros i j a' Hswap.
    split; [by apply Swap_Permutation with i j |].
    unfold Swap in *.
    apply bind_Some in Hswap as (x & Hi & Hswap).
    apply bind_Some in Hswap as (y & Hj & Hswap).
    injection Hswap as <-.
    pose proof (lookup_lt_Some _ _ _ Hi) as Hilen.
    pose proof (lookup_lt_Some _ _ _ Hj) as Hjlen.
    split; [| split].
    + rewrite list_lookup_insert_eq by (rewrite length_insert; lia).
      done.
    + destruct (decide (i = j)) as [->|Hne].
      * rewrite list_lookup_insert_eq by (rewrite length_insert; lia).
        congruence.
      * rewrite list_lookup_insert_ne by done.
        by rewrite list_lookup_insert_eq by lia.
    + intros k Hki Hkj. by rewrite !list_lookup_insert_ne by done.
  - apply Less_lookup.
  - apply sorted_by_Less_StronglySorted, sort_Sort_sorted.
  - apply sort_Sort_sorted.
  - intros b Hperm Hsorted.
    apply (StronglySorted_unique Z.le).
    + by apply sorted_by_Less_StronglySorted.
    + apply sort_Sort_sorted.
    + rewrite Hperm. symmetry. apply sort_Sort_sorted.
Qed.

(** The float64 index is the exact one on every batch size up to
    [largest_batch]. *)
Lemma index98_checked (n : Z) :
  1 ≤ n ≤ largest_batch → index98 n = Some (exact98 n).
Proof.
  intros Hn. apply index98_exact. unfold largest_batch in Hn. lia.
Qed.

Lemma exact98_bounds (n : Z) :
  1 ≤ n → 0 ≤ exact98 n < n ∧ 49 * n ≤ 50 * (exact98 n + 1)
          ∧ 50 * exact98 n < 49 * n.
Proof.
  intros Hn. unfold exact98.
  pose proof (Z.div_mod (49 * n + 49) 50 ltac:(lia)) as Hdiv.
  pose proof (Z.mod_pos_bound (49 * n + 49) 50 ltac:(lia)) as Hmod.
  lia.
Qed.

Lemma count_le_Permutation (v : Z) (a b : int64Array) :
  a ≡ₚ b → count_le v a = count_le v b ∧ count_lt v a = count_lt v b.
Proof. intros Hperm. unfold count_le, count_lt. by rewrite Hperm. Qed.

Lemma filter_all {A} (P : A → Prop) `{∀ x, Decision (P x)} (l : list A) :
  Forall P l → filter P l = l.
Proof.
  induction 1 as [|x l Hx Hl IH]; [done |].
  by rewrite filter_cons_True, IH.
Qed.

Lemma filter_none {A} (P : A → Prop) `{∀ x, Decision (P x)} (l : list A) :
  Forall (λ x, ¬ P x) l → filter P l = [].
Proof.
  induction 1 as [|x l Hx Hl IH]; [done |].
  by rewrite filter_cons_False, IH.
Qed.

(** In an ascending series, the samples up to an index are at most the
    one at the index, and none from the index on is below it. *)
Lemma sorted_counts (s : int64Array) (k : nat) (v : Z) :
  StronglySorted Z.le s → s !! k = Some v →
  Z.of_nat k + 1 ≤ count_le v s ∧ count_lt v s ≤ Z.of_nat k.
Proof.
  intros Hsorted Hk.
  pose proof (lookup_lt_Some _ _ _ Hk) as Hlen.
  unfold count_le, count_lt. split.
  - rewrite <- (take_drop (S k) s), filter_app, length_app.
    rewrite (filter_all (λ x, x ≤ v)).
    + rewrite length_take. lia.
    + apply Forall_forall. intros x Hx.
      apply list_elem_of_lookup_1 in Hx as [i Hi].
      apply lookup_take_Some in Hi as [Hi Hlt].
      destruct (decide (i = k)) as [->|Hne]; [assert (x = v) by congruence; lia |].
      apply (StronglySorted_lookup_le s i k x v Hsorted); [lia | done | done].
  - rewrite <- (take_drop k s), filter_app, length_app.
    rewrite (filter_none (λ x, x < v) (drop k s)).
    + pose proof (length_filter (λ x, x < v) (take k s)) as Hle.
      rewrite length_take in Hle. cbn. lia.
    + apply Forall_forall. intros x Hx.
      apply list_elem_of_lookup_1 in Hx as [i Hi].
      rewrite lookup_drop in Hi.
      destruct i as [|i].
      * rewrite Nat.add_0_r in Hi. assert (x = v) by congruence. lia.
      * pose proof (StronglySorted_lookup_le s k (k + S i) v x Hsorted
                      ltac:(lia) Hk Hi). lia.
Qed.

(** The percentile of a series of a checked size. *)
Lemma perc98_checked (series : int64Array) :
  1 ≤ Len series ≤ largest_batch →
  ∃ v, perc98 series = Some v
       ∧ v ∈ series
       ∧ 98 * Len series ≤ 100 * count_le v series
       ∧ 100 * count_lt v series < 98 * Len series.
Proof.
  intros Hn.
  destruct (exact98_bounds (Len series) ltac:(lia)) as (Hk & Hup & Hlow).
  destruct (sort_Sort_sorted series) as [Hsorted Hperm].
  assert (HLen : Len (sort_Sort series) = Len series)
    by (unfold Len; by rewrite Hperm).
  unfold perc98, get98th. rewrite HLen, index98_checked by done.
  cbn [at_index mbind option_bind].
  destruct (Z.ltb_spec (exact98 (Len series)) 0); [lia |].
  destruct (lookup_lt_is_Some_2 (sort_Sort series)
              (Z.to_nat (exact98 (Len series)))) as [v Hv].
  { unfold Len in *. rewrite Hperm. lia. }
  exists v. split; [done |]. split.
  - rewrite <- Hperm.
    by apply list_elem_of_lookup_2 with (Z.to_nat (exact98 (Len series))).
  - destruct (count_le_Permutation v _ _ Hperm) as [<- <-].
    destruct (sorted_counts _ _ v Hsorted Hv). lia.
Qed.

(** X17. For every series of 1 up to [2^47 - 1] samples, the index
    [get98th] computes in float64 arithmetic is the exact
    [ceil(0.98 n) - 1], which lies within the series, so the index
    expression of [process] does not panic; the value [process] reports
    as the 98th percentile is a sample of the series such that at least
    98 in 100 of the samples are at most that value and fewer than 98 in
    100 are below it.  On the empty series the index is -1: the guard
    [0 < n] of [process] is what keeps it from indexing there. *)
Theorem perc98_is_the_98th_percentile (series : int64Array) :
  1 ≤ Len series ≤ largest_batch →
  get98th series = Some (exact98 (Len series))
  ∧ 0 ≤ exact98 (Len series) < Len series
  ∧ (∃ v, perc98 series = Some v
          ∧ v ∈ series
          ∧ 98 * Len series ≤ 100 * count_le v series
          ∧ 100 * count_lt v series < 98 * Len series)
  ∧ get98th [] = Some (-1)
  ∧ perc98 [] = None.
Proof.
  intros Hn.
  split; [by apply index98_checked |].
  split; [apply exact98_bounds; lia |].
  split; [by apply perc98_checked |].
  split; by vm_compute.
Qed.

Lemma perc98_is_the_98th_percentile_witness :
  get98th [30; 10; 20] = Some 2 ∧ perc98 [30; 10; 20] = Some 30.
Proof.
  destruct (perc98_is_the_98th_percentile [30; 10; 20]
              ltac:(by vm_compute)) as (Hindex & _ & (v & Hv & _) & _).
  split; [exact Hindex |]. vm_compute. reflexivity.
Defined.

Lemma wrap64_small (z : Z) : - 2 ^ 63 ≤ z < 2 ^ 63 → wrap64 z = z.
Proof. intros Hz. unfold wrap64. rewrite Z.mod_small; lia. Qed.

Lemma total_exact_from (series : int64Array) (lo hi sum k : Z) :
  Forall (λ x, lo ≤ x ≤ hi) series →
  0 ≤ k → k * lo ≤ sum ≤ k * hi →
  - 2 ^ 63 ≤ (k + Len series) * lo → (k + Len series) * hi < 2 ^ 63 →
  foldl (λ sum x, wrap64 (sum + x)) sum series = sum + exact_sum series
  ∧ (k + Len series) * lo ≤ sum + exact_sum series
    ≤ (k + Len series) * hi.
Proof.
  intros Hall. revert sum k.
  induction Hall as [|x series Hx Hall IH]; intros sum k Hk Hsum Hlo Hhi.
  - unfold Len in *. cbn in *. split; lia.
  - unfold Len in *. cbn [foldl exact_sum foldr length] in *.
    rewrite Nat2Z.inj_succ in *.
    assert (Hfits : - 2 ^ 63 ≤ sum + x < 2 ^ 63) by nia.
    rewrite (wrap64_small _ Hfits).
    destruct (IH (sum + x) (k + 1)) as [-> Hbounds]; try lia.
    replace (k + 1 + Z.of_nat (length series))
      with (k + Z.succ (Z.of_nat (length series))) in Hbounds by lia.
    fold (exact_sum series) in *. split; lia.
Qed.

(** X18. When the samples of a series lie between [lo] and [hi] and
    the series is short enough for their sum to fit 64 bits, the running
    sum of [process] is the exact sum, the average it reports is the
    exact mean with its fraction cut off, and that average lies between
    [lo] and [hi]. *)
Theorem average_is_the_truncated_mean (series : int64Array) (lo hi : Z) :
  series ≠ [] →
  Forall (λ x, lo ≤ x ≤ hi) series →
  - 2 ^ 63 ≤ Len series * lo → Len series * hi < 2 ^ 63 →
  total series = exact_sum series
  ∧ average series = Z.quot (exact_sum series) (Len series)
  ∧ lo ≤ average series ≤ hi.
Proof.
  intros Hne Hall Hlo Hhi.
  destruct (total_exact_from series lo hi 0 0 Hall) as [Htotal Hbounds];
    try lia.
  assert (Hn : 0 < Len series)
    by (unfold Len; destruct series; [done | cbn; lia]).
  unfold average, total. rewrite Htotal, !Z.add_0_l in *.
  split; [done |]. split; [done |].
  split.
  - apply Z.quot_le_lower_bound; lia.
  - apply Z.quot_le_upper_bound; lia.
Qed.

Lemma average_is_the_truncated_mean_witness :
  average [7; 8; 10] = 8.
Proof.
  destruct (average_is_the_truncated_mean [7; 8; 10] 7 10
              ltac:(discriminate)
              ltac:(repeat constructor; lia)
              ltac:(by vm_compute) ltac:(by vm_compute))
    as (_ & Haverage & _).
  rewrite Haverage. reflexivity.
Defined.

Lemma Sub_bounds (t u : Z) :
  minDuration ≤ Sub t u ≤ maxDuration
  ∧ (minDuration ≤ t - u ≤ maxDuration → Sub t u = t - u)
  ∧ (t - u < minDuration → Sub t u = minDuration)
  ∧ (maxDuration < t - u → Sub t u = maxDuration).
Proof.
  unfold Sub, minDuration, maxDuration.
  destruct (Z.ltb_spec (t - u) (- 2 ^ 63));
    destruct (Z.ltb_spec (2 ^ 63 - 1) (t - u)); lia.
Qed.

(** X19. For a batch of 1 up to [2^47 - 1] telemetry values, the timing
    part of [process] does not panic, and each of the three percentiles it
    formats is the duration of one of the batch's values: for the
    processing time from [TimeReceived] to [TimeOutboundAccepted], for
    the latency from [TimeReceived] to [TimeSent], for the response from
    [TimeSent] to [TimeResponded].  Each duration is the difference of
    the two instants where that fits a [Duration], and the largest or
    smallest [Duration] where it does not. *)
Theorem timing_of_reports_durations_of_the_batch
    (String : Z → string) (ts : list Profiler.CaduceusTelemetry) :
  1 ≤ Z.of_nat (length ts) ≤ largest_batch →
  (∃ p l r,
     timing_of String ts
     = Some {| Profiler.processingPerc98 := String p;
               Profiler.processingAvg := String (average (processingTime ts));
               Profiler.latencyPerc98 := String l;
               Profiler.latencyAvg := String (average (latency ts));
               Profiler.responsePerc98 := String r;
               Profiler.responseAvg := String (average (responseTime ts)) |}
     ∧ (∃ t, t ∈ ts ∧ p = Sub (Profiler.TimeOutboundAccepted t)
                              (Profiler.TimeReceived t))
     ∧ (∃ t, t ∈ ts ∧ l = Sub (Profiler.TimeSent t)
                              (Profiler.TimeReceived t))
     ∧ (∃ t, t ∈ ts ∧ r = Sub (Profiler.TimeResponded t)
                              (Profiler.TimeSent t)))
  ∧ (∀ t u, minDuration ≤ Sub t u ≤ maxDuration
            ∧ (minDuration ≤ t - u ≤ maxDuration → Sub t u = t - u)
            ∧ (t - u < minDuration → Sub t u = minDuration)
            ∧ (maxDuration < t - u → Sub t u = maxDuration)).
Proof.
  intros Hn. split; [| apply Sub_bounds].
  destruct (perc98_checked (processingTime ts)) as (p & Hp & Hpin & _);
    [unfold Len, processingTime; by rewrite length_fmap |].
  destruct (perc98_checked (latency ts)) as (l & Hl & Hlin & _);
    [unfold Len, latency; by rewrite length_fmap |].
  destruct (perc98_checked (responseTime ts)) as (r & Hr & Hrin & _);
    [unfold Len, responseTime; by rewrite length_fmap |].
  exists p, l, r. unfold timing_of. rewrite Hp, Hl, Hr.
  split; [done |].
  apply list_elem_of_fmap in Hpin as (tp & -> & Htp).
  apply list_elem_of_fmap in Hlin as (tl & -> & Htl).
  apply list_elem_of_fmap in Hrin as (tr & -> & Htr).
  eauto 10.
Qed.

Lemma timing_of_reports_durations_of_the_batch_witness :
  is_Some (timing_of (λ _, "")
             [{| Profiler.RawPayloadSize := 13; Profiler.TimeReceived := 0;
                 Profiler.TimeOutboundAccepted := 1; Profiler.TimeSent := 2;
                 Profiler.TimeResponded := 3 |}]).
Proof.
  destruct (timing_of_reports_durations_of_the_batch (λ _, "")
              [{| Profiler.RawPayloadSize := 13; Profiler.TimeReceived := 0;
                  Profiler.TimeOutboundAccepted := 1; Profiler.TimeSent := 2;
                  Profiler.TimeResponded := 3 |}]
              ltac:(by vm_compute)) as [(p & l & r & Htiming & _) _].
  rewrite Htiming. eexists. reflexivity.
Defined.

End TimingProperties.

(** ** Runs of the intake *)

Section IntakeRuns.
Import Intake.

Lemma count_apply_other stats stat value other :
  other ≠ stat →
  health.count (health.apply (health.Inc stat value) stats) other
  = health.count stats other.
Proof. intros Hne. unfold health.count. by rewrite lookup_apply_other. Qed.

Ltac count_bucket :=
  cbn [Monitor]; unfold payload_total, payload_stats, SendEvent;
  cbn [Monitor];
  rewrite ?Forall_cons, ?Forall_nil;
  rewrite ?count_apply_same, ?count_apply_other by done;
  rewrite ?wrap64_small by lia; repeat split; lia.

(** [IncrementBucket] adds one to the total of the payload counters, as
    long as they are far from the end of [int]. *)
Lemma IncrementBucket_total (inSize bound : Z) (ch : CaduceusHealth) :
  counters_below bound ch → bound < 2 ^ 63 - 1 →
  counters_below (bound + 1) (IncrementBucket inSize ch)
  ∧ payload_total (IncrementBucket inSize ch) = payload_total ch + 1.
Proof.
  unfold counters_below at 1. unfold payload_total at 1, payload_stats at 1.
  rewrite !Forall_cons, Forall_nil.
  intros [(H0 & H1 & H2 & H3 & _) Htotal] Hb.
  unfold counters_below, IncrementBucket.
  destruct (inSize <? 100); [count_bucket |].
  destruct (inSize <? 1000); [count_bucket |].
  destruct (inSize <? 10000); count_bucket.
Qed.

Lemma Send_length {F : Type} (wp : WorkerPool F) (inFunc : F) :
  match (Send wp inFunc).2 with
  | None =>
      length (taken (Send wp inFunc).1 ++ Chan.buf (jobs (Send wp inFunc).1))
      = S (length (taken wp ++ Chan.buf (jobs wp)))
  | Some _ => (Send wp inFunc).1 = wp
  end.
Proof.
  unfold Send, Chan.try_send, Chan.send.
  destruct (waiting wp); [case_decide |]; cbn; try done;
    rewrite !length_app; cbn; lia.
Qed.

Lemma receive_length {F : Type} (wp : WorkerPool F) :
  length (taken (receive wp) ++ Chan.buf (jobs (receive wp)))
  = length (taken wp ++ Chan.buf (jobs wp)).
Proof.
  unfold receive, Chan.try_recv. destruct (busy wp); [done |].
  destruct (Chan.buf (jobs wp)) eqn:Hbuf; cbn; rewrite ?Hbuf; [done |].
  rewrite !length_app. cbn. lia.
Qed.

Ltac quiet_step :=
  cbn; rewrite ?Z.add_0_l, ?Z.add_0_r;
  split; [lia | split; [assumption | split; lia]].

(** One event of the intake: the pool and the counters move together. *)
Lemma intake_step_counts (ev : intake_event) (sh : ServerHandler)
    (bound : Z) :
  counters_below bound (caduceusHealth sh) → bound < 2 ^ 63 - 1 →
  0 ≤ answered_accepted [ev] sh ≤ 1
  ∧ counters_below (bound + answered_accepted [ev] sh)
      (caduceusHealth (intake_step sh ev))
  ∧ payload_total (caduceusHealth (intake_step sh ev))
    = payload_total (caduceusHealth sh) + answered_accepted [ev] sh
  ∧ Z.of_nat (length (taken (workerPool (intake_step sh ev))
                      ++ Chan.buf (jobs (workerPool (intake_step sh ev)))))
    = Z.of_nat (length (taken (workerPool sh)
                        ++ Chan.buf (jobs (workerPool sh))))
      + answered_accepted [ev] sh.
Proof.
  intros Hbelow Hbound.
  assert (Hsame : counters_below (bound + 0) (caduceusHealth sh))
    by (by rewrite Z.add_0_r).
  destruct ev as [request now1 now2|]; cbn [answered_accepted intake_step].
  - unfold ServeHTTP, Info. cbn [workerPool caduceusHealth logger].
    destruct (Body request) as [myPayload|err]; [| quiet_step].
    destruct (Header request !! "Content-Type") as [[|v [|v' value]]|];
      cbn [fst snd]; case_decide; try quiet_step; try congruence.
    match goal with
    | |- context [Send ?wp ?f] =>
        pose proof (Send_length wp f) as Hsend;
        destruct (Send wp f) as [wp' [err|]]
    end; cbn [fst snd] in *.
    + subst wp'. quiet_step.
    + destruct (IncrementBucket_total
                  (Z.of_nat (String.length myPayload)) bound
                  (caduceusHealth sh) Hbelow Hbound) as [Hinc Htotal].
      cbn. rewrite Hsend, ?Z.add_0_r.
      split; [lia | split; [assumption | split; lia]].
  - cbn. rewrite receive_length. quiet_step.
Qed.

Lemma answered_accepted_cons (ev : intake_event) (evs : list intake_event)
    (sh : ServerHandler) :
  answered_accepted (ev :: evs) sh
  = answered_accepted [ev] sh + answered_accepted evs (intake_step sh ev).
Proof. cbn [answered_accepted]. lia. Qed.

Lemma intake_run_counts (evs : list intake_event) (sh : ServerHandler)
    (bound : Z) :
  counters_below bound (caduceusHealth sh) →
  bound + Z.of_nat (length evs) < 2 ^ 63 →
  0 ≤ answered_accepted evs sh ≤ Z.of_nat (length evs)
  ∧ payload_total (caduceusHealth (intake_run evs sh))
    = payload_total (caduceusHealth sh) + answered_accepted evs sh
  ∧ Z.of_nat (length (taken (workerPool (intake_run evs sh))
                      ++ Chan.buf (jobs (workerPool (intake_run evs sh)))))
    = Z.of_nat (length (taken (workerPool sh)
                        ++ Chan.buf (jobs (workerPool sh))))
      + answered_accepted evs sh.
Proof.
  revert sh bound. induction evs as [|ev evs IH]; intros sh bound Hbelow Hb.
  - cbn. repeat split; lia.
  - cbn [length] in Hb. rewrite Nat2Z.inj_succ in Hb.
    destruct (intake_step_counts ev sh bound Hbelow ltac:(lia))
      as (Ha & Hbelow' & Htotal & Hlen).
    destruct (IH _ _ Hbelow' ltac:(lia)) as (Ha' & Htotal' & Hlen').
    unfold intake_run in *. cbn [foldl length].
    rewrite answered_accepted_cons, Htotal', Hlen', Htotal, Hlen.
    rewrite Nat2Z.inj_succ. repeat split; lia.
Qed.

(** X20. The payload counters count the accepted jobs.  On a handler
    whose pool [WorkerPoolFactory.New] made, after any sequence of
    requests and of workers coming to their receive, the number of
    requests the handler answered with [WriteHeader(202)] is the number of
    jobs the workers received or the queue still holds, and it is what
    the four payload-size counters have gone up by together, as long as
    the counters stay within [int]. *)
Theorem intake_counts_accepted_jobs
    (wpf : WorkerPoolFactory) (sh : ServerHandler)
    (evs : list intake_event) (bound : Z) :
  WorkerPoolFactory_New wpf = Some (workerPool sh) →
  counters_below bound (caduceusHealth sh) →
  bound + Z.of_nat (length evs) < 2 ^ 63 →
  Z.of_nat (length (taken (workerPool (intake_run evs sh))
                    ++ Chan.buf (jobs (workerPool (intake_run evs sh)))))
  = answered_accepted evs sh
  ∧ payload_total (caduceusHealth (intake_run evs sh))
    = payload_total (caduceusHealth sh) + answered_accepted evs sh
  ∧ 0 ≤ answered_accepted evs sh ≤ Z.of_nat (length evs).
Proof.
  intros Hnew Hbelow Hbound.
  destruct (intake_run_counts evs sh bound Hbelow Hbound)
    as (Ha & Htotal & Hlen).
  unfold WorkerPoolFactory_New in Hnew.
  destruct (wpf_QueueSize wpf <? 0); [done |].
  injection Hnew as Hnew. rewrite <- Hnew in Hlen. cbn in Hlen.
  by repeat split; try lia.
Qed.

End IntakeRuns.

Lemma intake_counts_accepted_jobs_witness :
  payload_total
    (Intake.caduceusHealth
       (intake_run [Arrives (Intake.post "a") 1 2; WorkerReceives;
                    Arrives Intake.broken_post 3 4;
                    Arrives (Intake.post "b") 5 6]
          Intake.test_handler))
  = payload_total (Intake.caduceusHealth Intake.test_handler) + 2.
Proof.
  destruct (intake_counts_accepted_jobs
              {| wpf_NumWorkers := 1; wpf_QueueSize := 1 |}
              Intake.test_handler
              [Arrives (Intake.post "a") 1 2; WorkerReceives;
               Arrives Intake.broken_post 3 4;
               Arrives (Intake.post "b") 5 6] 0 eq_refl
              ltac:(split; [repeat constructor; by vm_compute
                           | by vm_compute])
              ltac:(by vm_compute)) as (_ & Htotal & _).
  rewrite Htotal. reflexivity.
Defined.

(** ** The tonnage of a batch *)

Section Tonnage.
Context `{Profiler.ServerRing} `{Profiler.StatsFormat}.
Import Profiler.

Lemma tonnage_of_total (ts : list CaduceusTelemetry) :
  tonnage_of ts = Stats.total (RawPayloadSize <$> ts).
Proof.
  unfold tonnage_of, Stats.total. generalize 0.
  induction ts as [|t ts IH]; intros sum; [done |]. cbn. apply IH.
Qed.

Lemma filterNonTelemetryElements_idemp (raw : list any) :
  filterNonTelemetryElements (filterNonTelemetryElements raw)
  = filterNonTelemetryElements raw.
Proof.
  induction raw as [|[t|cs|tag] raw IH]; cbn; [done | by f_equal | done | done].
Qed.

Lemma telemetry_of_filter (raw : list any) :
  telemetry_of (filterNonTelemetryElements raw) = telemetry_of raw.
Proof.
  induction raw as [|[t|cs|tag] raw IH]; cbn; [done | by f_equal | done | done].
Qed.

Lemma length_telemetry_of (raw : list any) :
  length (telemetry_of raw) = length (filterNonTelemetryElements raw).
Proof.
  induction raw as [|[t|cs|tag] raw IH]; cbn; [done | by f_equal | done | done].
Qed.

(** X21. The stats [process] returns depend on the telemetry values of
    the batch only: values of other kinds change nothing.  When the
    payload sizes of the telemetry lie between 0 and [hi] and their count
    times [hi] fits an [int], the tonnage reported is their exact sum,
    which is between 0 and that product. *)
Theorem process_tonnage_is_the_sum (cp : caduceusProfiler)
    (stamp : string) (raw : list any) (hi : Z) :
  Forall (λ t, 0 ≤ RawPayloadSize t ≤ hi) (telemetry_of raw) →
  Z.of_nat (length (telemetry_of raw)) * hi < 2 ^ 63 →
  process cp stamp raw = process cp stamp (filterNonTelemetryElements raw)
  ∧ Tonnage (process cp stamp raw)
    = Stats.exact_sum (RawPayloadSize <$> telemetry_of raw)
  ∧ 0 ≤ Tonnage (process cp stamp raw)
    ≤ Z.of_nat (length (telemetry_of raw)) * hi.
Proof.
  intros Hsizes Hfits.
  split; [unfold process; by rewrite filterNonTelemetryElements_idemp |].
  assert (Hall : Forall (λ x, 0 ≤ x ≤ hi) (RawPayloadSize <$> telemetry_of raw))
    by (by apply Forall_fmap).
  destruct (total_exact_from (RawPayloadSize <$> telemetry_of raw)
              0 hi 0 0 Hall) as [Htotal Hbounds]; [lia | lia | | |].
  { unfold Stats.Len. rewrite length_fmap. lia. }
  { unfold Stats.Len. rewrite length_fmap. lia. }
  unfold Stats.Len in Hbounds. rewrite length_fmap in Hbounds.
  rewrite !Z.add_0_l in *.
  unfold process. rewrite <- length_telemetry_of.
  destruct (Z.ltb_spec 0 (Z.of_nat (length (telemetry_of raw))));
    cbn [Tonnage].
  - rewrite telemetry_of_filter, tonnage_of_total.
    unfold Stats.total. rewrite Htotal. split; [done | lia].
  - destruct (telemetry_of raw); [cbn; lia | cbn in *; lia].
Qed.

End Tonnage.

Lemma process_tonnage_is_the_sum_witness :
  Profiler.Tonnage
    (@Profiler.process Profiler.list_ring Profiler.blank_format
       (@Profiler.Build_caduceusProfiler Profiler.list_ring
          "p" 10 (@Profiler.NewCaduceusRing Profiler.list_ring 6)
          (Chan.make 1) false None [] [] Profiler.Looping)
       "t"
       [Profiler.Other "note";
        Profiler.Telemetry
          {| Profiler.RawPayloadSize := 13; Profiler.TimeReceived := 0;
             Profiler.TimeOutboundAccepted := 1; Profiler.TimeSent := 2;
             Profiler.TimeResponded := 3 |}])
  = 13.
Proof.
  destruct (@process_tonnage_is_the_sum Profiler.list_ring
              Profiler.blank_format
              (@Profiler.Build_caduceusProfiler Profiler.list_ring
                 "p" 10 (@Profiler.NewCaduceusRing Profiler.list_ring 6)
                 (Chan.make 1) false None [] [] Profiler.Looping)
              "t"
              [Profiler.Other "note";
               Profiler.Telemetry
                 {| Profiler.RawPayloadSize := 13; Profiler.TimeReceived := 0;
                    Profiler.TimeOutboundAccepted := 1; Profiler.TimeSent := 2;
                    Profiler.TimeResponded := 3 |}]
              13
              ltac:(repeat constructor; by vm_compute)
              ltac:(by vm_compute)) as (_ & Htonnage & _).
  rewrite Htonnage. reflexivity.
Defined.
(** The float64 constants are binary64 numbers, and the one for [0.98]
    is the nearest to it: [0.98 * 2^53] is within a half of its
    mantissa. *)
Example const_0_98_is_nearest :
  SpecFloat.valid_binary 53 1024 Stats.const_0_98 = true
  ∧ SpecFloat.valid_binary 53 1024 Stats.const_1 = true
  ∧ 2 * Z.abs (100 * 8827055269646172 - 98 * 2 ^ 53) ≤ 100
  ∧ Stats.int64_of_float64 Stats.const_1 = Some 1.
Proof. by vm_compute. Qed.
